(** * indexeddb-util: a shallow embedding of the promise layer over IndexedDB

    The library wraps the callback style of the browser's IndexedDB API into
    promises: functions on a store handle ([getObjectData], [queryObjectData],
    [addObjectData], ...), a transaction handler, [createDB] with seeding, and
    the class [IndexedDBUtil].  The browser side (object stores, key
    generators, indices, transactions, cursors) is the host.  It is given here
    as an executable reference semantics that follows the algorithms of the
    Indexed Database API for the calls the library makes, under these
    conventions:

    - numbers are integers ([Z]): no NaN, no fractions, and they print in
      decimal (as JS prints integers below 10^21); the key generator stops
      at 2^53 as the host's does;
    - a record is a JS object whose fields hold primitives, keys are numbers
      and strings, the key path of a store is one field name (never the
      empty key path, which the host refuses together with a key generator);
    - the requests of a transaction run in the order in which they are placed,
      and one transaction runs at a time;
    - a request fails for the reason its algorithm gives (a constraint, a
      missing key) or because the host reports an I/O failure; the failures to
      come are scripted by a list with one optional failure per request, and
      the empty script is the host that never fails;
    - an error event nobody cancels aborts the transaction, and so does an
      exception that escapes an event handler (the library cancels no event
      and catches nothing in its handlers);
    - the store handle given to a record operation belongs to a live
      transaction of the mode the operation needs;
    - whether a connection to a database is open elsewhere is a parameter
      ([connected]) of the requests it can block: an open request that has
      to upgrade, and a delete request.

    The definitions come first: the host, the library function by function,
    then the reference definitions the properties are stated with.  The
    properties follow, one section per operation. *)

From Stdlib Require Import ZArith Lia.
From stdpp Require Import base option list strings gmap pretty sorting.

Local Open Scope Z_scope.

(** ** JavaScript values, errors and promises *)

Inductive jsval :=
  | VUndefined
  | VNull
  | VBool (b : bool)
  | VNum (n : Z)
  | VStr (s : string).

Global Instance jsval_eq_dec : EqDecision jsval.
Proof. solve_decision. Defined.

(** A record is a JS object; [r[f]] on a missing field is [undefined]. *)
Abbreviation record := (gmap string jsval).

Definition get_field (r : record) (f : string) : jsval :=
  default VUndefined (r !! f).

(** [a === b] on primitives. *)
Definition strict_eq (a b : jsval) : bool := bool_decide (a = b).

Definition dquote : string := String (Ascii.ascii_of_nat 34) EmptyString.

(** A DOMException (or a native TypeError) raised by the host. *)
Record DOMException := mkDOM { dom_name : string; dom_message : string }.

Global Instance DOMException_eq_dec : EqDecision DOMException.
Proof. solve_decision. Defined.

(** The error classes of the library: [IndexedDBError] and its subclasses.
    All of them carry the name IndexedDBError, so the class is kept apart. *)
Inductive errorClass :=
  | ClsIndexedDBError
  | ClsDatabaseNotFoundError
  | ClsStoreNotFoundError
  | ClsTransactionError.

Global Instance errorClass_eq_dec : EqDecision errorClass.
Proof. solve_decision. Defined.

Record libError := mkLibError {
  err_class : errorClass;
  err_message : string;
  err_code : option string
}.

Global Instance libError_eq_dec : EqDecision libError.
Proof. solve_decision. Defined.

Definition IndexedDBError (message : string) : libError :=
  mkLibError ClsIndexedDBError message None.

Definition DatabaseNotFoundError (dbName : string) : libError :=
  mkLibError ClsDatabaseNotFoundError
    ("Database " +:+ dquote +:+ dbName +:+ dquote +:+ " not found")
    (Some "DB_NOT_FOUND").

Definition StoreNotFoundError (storeName : string) : libError :=
  mkLibError ClsStoreNotFoundError
    ("Object store " +:+ dquote +:+ storeName +:+ dquote +:+ " not found")
    (Some "STORE_NOT_FOUND").

Definition TransactionError (message : string) : libError :=
  mkLibError ClsTransactionError message (Some "TRANSACTION_ERROR").

(** What a promise is rejected with, or what a call throws. *)
Inductive jsError :=
  | HostError (e : DOMException)
  | LibError (e : libError).

Global Instance jsError_eq_dec : EqDecision jsError.
Proof. solve_decision. Defined.

Definition error_message (e : jsError) : string :=
  match e with
  | HostError d => dom_message d
  | LibError l => err_message l
  end.

(** [m || d] on strings: the empty string is falsy. *)
Definition or_default (m d : string) : string :=
  if decide (m = EmptyString) then d else m.

(** [request.error?.message || d]. *)
Definition message_or (e : DOMException) (d : string) : string :=
  or_default (dom_message e) d.

(** The state in which a promise ends up. [Pending] is a promise that is
    never settled. *)
Inductive promise (A : Type) :=
  | Resolved (a : A)
  | Rejected (e : jsError)
  | Pending.
Global Arguments Resolved {A} a.
Global Arguments Rejected {A} e.
Global Arguments Pending {A}.

(** A synchronous call either throws or returns. *)
Inductive call (A : Type) :=
  | Throws (e : jsError)
  | Returns (a : A).
Global Arguments Throws {A} e.
Global Arguments Returns {A} a.

(** ** Keys *)

(** A valid key is a number or a string; numbers sort before strings. *)
Inductive key :=
  | KNum (n : Z)
  | KStr (s : string).

Global Instance key_eq_dec : EqDecision key.
Proof. solve_decision. Defined.

Definition key_of_val (v : jsval) : option key :=
  match v with
  | VNum n => Some (KNum n)
  | VStr s => Some (KStr s)
  | _ => None
  end.

Definition val_of_key (k : key) : jsval :=
  match k with
  | KNum n => VNum n
  | KStr s => VStr s
  end.

(** [`${key}`]. *)
Definition key_to_string (k : key) : string :=
  match k with
  | KNum n => pretty n
  | KStr s => s
  end.

Definition key_le (a b : key) : Prop :=
  match a, b with
  | KNum x, KNum y => x ≤ y
  | KNum _, KStr _ => True
  | KStr _, KNum _ => False
  | KStr s, KStr t => String.le s t
  end.

Global Instance key_le_dec : RelDecision key_le.
Proof. intros [x|s] [y|t]; simpl; apply _. Defined.

Definition key_lt : relation key := strict key_le.

Global Instance key_lt_dec : RelDecision key_lt.
Proof. intros a b. unfold key_lt, strict. apply _. Defined.

(** ** The host: object stores *)

Record IDBIndex := mkIndex {
  idx_name : string;
  idx_keyPath : list string;   (* one path, or several for a compound index *)
  idx_unique : bool
}.

Record IDBObjectStore := mkStore {
  os_name : string;
  os_keyPath : option string;       (* in-line keys when set *)
  os_autoIncrement : bool;          (* the store has a key generator *)
  os_keygen : Z;                    (* the generator's current number *)
  os_indices : list IDBIndex;
  os_rows : list (key * record)     (* ascending in the primary key *)
}.

Definition DataError : DOMException :=
  mkDOM "DataError" "The data provided does not meet requirements.".
Definition ConstraintError_key : DOMException :=
  mkDOM "ConstraintError" "Key already exists in the object store.".
Definition ConstraintError_index (index : string) : DOMException :=
  mkDOM "ConstraintError"
    ("Unable to add key to index " +:+ index +:+
     ": at least one key does not satisfy the uniqueness requirements.").
Definition NotFoundError : DOMException :=
  mkDOM "NotFoundError" "The specified object store or index was not found.".
Definition InvalidStateError : DOMException :=
  mkDOM "InvalidStateError" "The transaction has finished.".
Definition InvalidAccessError : DOMException :=
  mkDOM "InvalidAccessError" "The storeNames parameter was empty.".
Definition VersionError : DOMException :=
  mkDOM "VersionError"
    "The requested version is less than the existing version.".
Definition AbortError : DOMException :=
  mkDOM "AbortError" "The transaction was aborted.".
Definition TypeError : DOMException :=
  mkDOM "TypeError" "The version must not be zero or negative.".
Definition ConstraintError_keygen : DOMException :=
  mkDOM "ConstraintError" "Maximum key generator value reached.".

(** *** Rows *)

Definition rows_lookup (k : key) (rows : list (key * record)) : option record :=
  snd <$> find (λ kv, bool_decide (kv.1 = k)) rows.

Fixpoint rows_insert (k : key) (v : record) (rows : list (key * record))
  : list (key * record) :=
  match rows with
  | [] => [(k, v)]
  | (k', v') :: rest =>
      if decide (key_lt k k') then (k, v) :: (k', v') :: rest
      else if decide (k = k') then (k, v) :: rest
      else (k', v') :: rows_insert k v rest
  end.

Definition rows_delete (k : key) (rows : list (key * record))
  : list (key * record) :=
  filter (λ kv, kv.1 ≠ k) rows.

(** *** Index keys *)

(** The key of a record in an index: every path must evaluate to a valid key,
    otherwise the record is not in the index. *)
Definition index_key (idx : IDBIndex) (v : record) : option (list key) :=
  mapM (λ p, key_of_val (get_field v p)) (idx_keyPath idx).

(** Some record other than the one stored under [k] has the index key of [v]. *)
Definition index_clash (idx : IDBIndex) (k : key) (v : record)
    (rows : list (key * record)) : bool :=
  match index_key idx v with
  | None => false
  | Some ik =>
      bool_decide (Exists (λ kv, kv.1 ≠ k ∧ index_key idx kv.2 = Some ik) rows)
  end.

Definition unique_violation (s : IDBObjectStore) (k : key) (v : record)
  : option IDBIndex :=
  find (λ idx, idx_unique idx && index_clash idx k v (os_rows s))
       (os_indices s).

(** *** Placing a record: the synchronous part of [add] and [put] *)

(** The key the value carries at the key path: [Returns None] asks the key
    generator; a store without in-line key and without generator has no key
    to use, since this library never passes one. *)
Definition extract_key (s : IDBObjectStore) (v : record) : call (option key) :=
  match os_keyPath s with
  | Some p =>
      match get_field v p with
      | VUndefined =>
          if os_autoIncrement s then Returns None
          else Throws (HostError DataError)
      | x =>
          match key_of_val x with
          | Some k => Returns (Some k)
          | None => Throws (HostError DataError)
          end
      end
  | None =>
      if os_autoIncrement s then Returns None
      else Throws (HostError DataError)
  end.

(** The key generator gives no number above 2^53. *)
Definition max_keygen : Z := 9007199254740992.

(** The key generator is asked, and its current number is above 2^53: the
    request fails. *)
Definition keygen_exhausted (s : IDBObjectStore) (ok : option key) : bool :=
  match ok with
  | None => bool_decide (max_keygen < os_keygen s)
  | Some _ => false
  end.

(** The key to store under, the value as stored (a generated key is injected
    at the key path) and the key generator afterwards: a numeric key that the
    value carries moves the generator past [min(key, 2^53)]. *)
Definition assign_key (s : IDBObjectStore) (v : record) (ok : option key)
  : key * record * Z :=
  match ok with
  | Some k =>
      (k, v,
       match k with
       | KNum n =>
           if os_autoIncrement s
              && bool_decide (os_keygen s ≤ Z.min n max_keygen)
           then Z.min n max_keygen + 1 else os_keygen s
       | KStr _ => os_keygen s
       end)
  | None =>
      (KNum (os_keygen s),
       match os_keyPath s with
       | Some p => <[p := VNum (os_keygen s)]> v
       | None => v
       end,
       os_keygen s + 1)
  end.

Definition set_rows (s : IDBObjectStore) (gen : Z) (rows : list (key * record))
  : IDBObjectStore :=
  mkStore (os_name s) (os_keyPath s) (os_autoIncrement s) gen (os_indices s)
    rows.

(** *** The asynchronous part of the requests *)

(** Store a record, no overwrite ([add]). *)
Definition store_add (ok : option key) (v : record) (s : IDBObjectStore)
  : DOMException + (key * IDBObjectStore) :=
  if keygen_exhausted s ok then inl ConstraintError_keygen
  else
    let '(k, v', gen) := assign_key s v ok in
    if bool_decide (is_Some (rows_lookup k (os_rows s)))
    then inl ConstraintError_key
    else match unique_violation s k v' with
         | Some idx => inl (ConstraintError_index (idx_name idx))
         | None => inr (k, set_rows s gen (rows_insert k v' (os_rows s)))
         end.

(** Store a record, overwriting ([put], [cursor.update]). *)
Definition store_put (ok : option key) (v : record) (s : IDBObjectStore)
  : DOMException + (key * IDBObjectStore) :=
  if keygen_exhausted s ok then inl ConstraintError_keygen
  else
    let '(k, v', gen) := assign_key s v ok in
    match unique_violation s k v' with
    | Some idx => inl (ConstraintError_index (idx_name idx))
    | None => inr (k, set_rows s gen (rows_insert k v' (os_rows s)))
    end.

Definition store_get (k : key) (s : IDBObjectStore)
  : DOMException + (option record * IDBObjectStore) :=
  inr (rows_lookup k (os_rows s), s).

Definition store_getAll (s : IDBObjectStore)
  : DOMException + (list record * IDBObjectStore) :=
  inr ((os_rows s).*2, s).

Definition store_delete (k : key) (s : IDBObjectStore)
  : DOMException + (unit * IDBObjectStore) :=
  inr ((), set_rows s (os_keygen s) (rows_delete k (os_rows s))).

Definition store_clear (s : IDBObjectStore)
  : DOMException + (unit * IDBObjectStore) :=
  inr ((), set_rows s (os_keygen s) []).

(** *** Key ranges *)

Record IDBKeyRange := mkRange {
  kr_lower : option key;
  kr_upper : option key;
  kr_lowerOpen : bool;
  kr_upperOpen : bool
}.

Definition in_range (r : IDBKeyRange) (k : key) : bool :=
  match kr_lower r with
  | None => true
  | Some l => if kr_lowerOpen r then bool_decide (key_lt l k)
              else bool_decide (key_le l k)
  end &&
  match kr_upper r with
  | None => true
  | Some u => if kr_upperOpen r then bool_decide (key_lt k u)
              else bool_decide (key_le k u)
  end.

(** [count(keyRange)]: every key when no range is given. *)
Definition range_admits (keyRange : option IDBKeyRange) (k : key) : bool :=
  match keyRange with
  | None => true
  | Some r => in_range r k
  end.

Definition store_count (keyRange : option IDBKeyRange) (s : IDBObjectStore)
  : DOMException + (Z * IDBObjectStore) :=
  inr (Z.of_nat
         (length (filter (λ kv, range_admits keyRange kv.1) (os_rows s))), s).

(** *** Cursors *)

Inductive IDBCursorDirection :=
  | Next
  | NextUnique
  | Prev
  | PrevUnique.

Fixpoint idxkey_ltb (a b : list key) : bool :=
  match a, b with
  | [], [] => false
  | [], _ :: _ => true
  | _ :: _, [] => false
  | x :: a', y :: b' =>
      if decide (key_lt x y) then true
      else if decide (x = y) then idxkey_ltb a' b' else false
  end.

(** An index entry: the index key, then the record's primary key and value.
    Entries are ordered by index key, then by primary key. *)
Definition entry_ltb (a b : list key * (key * record)) : bool :=
  idxkey_ltb a.1 b.1 ||
  (bool_decide (a.1 = b.1) && bool_decide (key_lt a.2.1 b.2.1)).

Fixpoint entry_insert (e : list key * (key * record))
    (es : list (list key * (key * record))) : list (list key * (key * record)) :=
  match es with
  | [] => [e]
  | e' :: rest =>
      if entry_ltb e e' then e :: e' :: rest else e' :: entry_insert e rest
  end.

Definition index_entries (idx : IDBIndex) (rows : list (key * record))
  : list (list key * (key * record)) :=
  foldr entry_insert []
    (omap (λ kv, (λ ik, (ik, kv)) <$> index_key idx kv.2) rows).

(** The first entry of every index key. *)
Fixpoint unique_entries (seen : option (list key))
    (es : list (list key * (key * record))) : list (list key * (key * record)) :=
  match es with
  | [] => []
  | e :: rest =>
      if decide (seen = Some e.1) then unique_entries seen rest
      else e :: unique_entries (Some e.1) rest
  end.

(** [store.index(name)] throws when the store has no such index. *)
Definition store_index (s : IDBObjectStore) (name : string) : call IDBIndex :=
  match find (λ idx, bool_decide (idx_name idx = name)) (os_indices s) with
  | Some idx => Returns idx
  | None => Throws (HostError NotFoundError)
  end.

(** The records a cursor opened with [openCursor(undefined, direction)]
    visits, in the order of its visits; [source] is the store itself or one
    of its indices. *)
Definition cursor_records (s : IDBObjectStore) (source : option IDBIndex)
    (direction : IDBCursorDirection) : list (key * record) :=
  match source with
  | None =>
      match direction with
      | Next | NextUnique => os_rows s
      | Prev | PrevUnique => reverse (os_rows s)
      end
  | Some idx =>
      let es := index_entries idx (os_rows s) in
      match direction with
      | Next => es.*2
      | NextUnique => (unique_entries None es).*2
      | Prev => reverse es.*2
      | PrevUnique => reverse (unique_entries None es).*2
      end
  end.

(** ** Requests against a store handle

    A library function receives a store handle of a live transaction.  The
    handle is the state of the computation: the store's content, the script of
    I/O failures still to come, and whether the transaction got aborted. *)

Record host := mkHost {
  h_store : IDBObjectStore;
  h_io : list (option DOMException);
  h_aborted : bool
}.

Definition Host (A : Type) : Type := host → A * host.

Global Instance Host_ret : MRet Host := λ A a h, (a, h).
Global Instance Host_bind : MBind Host :=
  λ A B f m h, let '(a, h') := m h in f a h'.

Definition get_store : Host IDBObjectStore := λ h, (h_store h, h).

(** One request: it fails when the host scripts an I/O failure for it or when
    its algorithm fails; the error event then aborts the transaction.
    [inl] is the error event, [inr] the success event with its result. *)
Definition request {A}
    (run : IDBObjectStore → DOMException + (A * IDBObjectStore))
  : Host (DOMException + A) := λ h,
  match h_io h with
  | Some e :: io => (inl e, mkHost (h_store h) io true)
  | io =>
      match run (h_store h) with
      | inl e => (inl e, mkHost (h_store h) (tail io) true)
      | inr (a, s') => (inr a, mkHost s' (tail io) (h_aborted h))
      end
  end.

(** An exception that escapes an event handler aborts the transaction. *)
Definition handler_throws : Host unit := λ h,
  ((), mkHost (h_store h) (h_io h) true).

(** The next event of a cursor request: the cursor has moved (or is at its
    end), unless the host fails. *)
Definition cursor_event : Host (DOMException + unit) :=
  request (λ s, inr ((), s)).

(** ** The library: record operations (low-level functions)

    The first argument of each function of the library, the store handle, is
    the state of [Host]. *)

Record QueryOptions := mkQuery {
  q_index : option string;
  q_direction : option IDBCursorDirection;
  q_limit : option Z;
  q_offset : option Z
}.

Definition getObjectData (k : key) : Host (promise (option record)) :=
  r ← request (store_get k);
  match r with
  | inr result => mret (Resolved result)
  | inl error =>
      mret (Rejected (LibError (IndexedDBError
              (message_or error "Failed to retrieve data"))))
  end.

Definition getAllObjectData : Host (promise (list record)) :=
  r ← request store_getAll;
  match r with
  | inr result => mret (Resolved result)
  | inl error =>
      mret (Rejected (LibError (IndexedDBError
              (message_or error "Failed to retrieve all data"))))
  end.

(** [limit && counted >= limit]: an unset limit and the limit 0 are falsy. *)
Definition limit_reached (limit : option Z) (counted : Z) : bool :=
  match limit with
  | Some l => bool_decide (l ≠ 0) && bool_decide (l ≤ counted)
  | None => false
  end.

(** The success handler of the cursor request, once per cursor event. *)
Fixpoint query_cursor (offset : Z) (limit : option Z)
    (cursor : list (key * record)) (skipped counted : Z)
    (results : list record) : Host (promise (list record)) :=
  ev ← cursor_event;
  match ev with
  | inl error =>
      mret (Rejected (LibError (IndexedDBError
              (message_or error "Query failed"))))
  | inr _ =>
      match cursor with
      | [] => mret (Resolved results)
      | (_, value) :: rest =>
          if bool_decide (skipped < offset)
          then query_cursor offset limit rest (skipped + 1) counted results
          else if limit_reached limit counted then mret (Resolved results)
          else query_cursor offset limit rest skipped (counted + 1)
                 (results ++ [value])
      end
  end.

(** [index ? store.index(index) : store]: the empty name is falsy. *)
Definition query_source (s : IDBObjectStore) (index : option string)
  : call (option IDBIndex) :=
  match index with
  | None => Returns None
  | Some name =>
      if decide (name = EmptyString) then Returns None
      else match store_index s name with
           | Returns idx => Returns (Some idx)
           | Throws e => Throws e
           end
  end.

Definition queryObjectData (options : QueryOptions)
  : Host (promise (list record)) :=
  let direction := default Next (q_direction options) in
  let offset := default 0 (q_offset options) in
  s ← get_store;
  match query_source s (q_index options) with
  | Returns source =>
      query_cursor offset (q_limit options)
        (cursor_records s source direction) 0 0 []
  | Throws error =>
      mret (Rejected (LibError (IndexedDBError (error_message error))))
  end.

Definition countObjectData (keyRange : option IDBKeyRange) : Host (promise Z) :=
  r ← request (store_count keyRange);
  match r with
  | inr result => mret (Resolved result)
  | inl error =>
      mret (Rejected (LibError (IndexedDBError
              (message_or error "Count failed"))))
  end.

Definition addObjectData (data : record) : Host (promise (list record)) :=
  s ← get_store;
  match extract_key s data with
  | Throws e => mret (Rejected e)
  | Returns ok =>
      r ← request (store_add ok data);
      match r with
      | inr _ => getAllObjectData
      | inl error =>
          mret (Rejected (LibError (IndexedDBError
                  (message_or error "Failed to add data to store"))))
      end
  end.

Definition putObjectData (data : record) : Host (promise key) :=
  s ← get_store;
  match extract_key s data with
  | Throws e => mret (Rejected e)
  | Returns ok =>
      r ← request (store_put ok data);
      match r with
      | inr result => mret (Resolved result)
      | inl error =>
          mret (Rejected (LibError (IndexedDBError
                  (message_or error "Failed to put data"))))
      end
  end.

(** [results[index] = x] on a JS array: a write past the end leaves holes. *)
Definition array_set {A} (a : list (option A)) (index : nat) (x : A)
  : list (option A) :=
  if decide (index < length a)%nat then <[index := Some x]> a
  else a ++ replicate (index - length a) None ++ [Some x].

(** The [forEach] of [bulkAddObjectData]: [store.add] validates each value
    when it is called; the loop ends where a call throws. *)
Fixpoint place_adds (s : IDBObjectStore) (dataArray : list record)
  : list (option key * record) * option jsError :=
  match dataArray with
  | [] => ([], None)
  | data :: rest =>
      match extract_key s data with
      | Throws e => ([], Some e)
      | Returns ok =>
          let '(placed, thrown) := place_adds s rest in
          ((ok, data) :: placed, thrown)
      end
  end.

(** The handlers of the placed requests, in the order of the requests.
    [total] is [dataArray.length]. After an error event the transaction is
    aborted: the requests that follow fail too, and their [reject] comes
    second. *)
Fixpoint run_adds (total : nat) (placed : list (option key * record))
    (index completed : nat) (results : list (option key))
  : Host (promise (list (option key))) :=
  match placed with
  | [] => mret Pending
  | (ok, data) :: rest =>
      r ← request (store_add ok data);
      match r with
      | inr result =>
          let results := array_set results index result in
          let completed := S completed in
          if decide (completed = total) then mret (Resolved results)
          else run_adds total rest (S index) completed results
      | inl error =>
          mret (Rejected (LibError (IndexedDBError
                  (message_or error
                     ("Failed to add item at index " +:+ pretty index)))))
      end
  end.

Definition bulkAddObjectData (dataArray : list record)
  : Host (promise (list (option key))) :=
  match dataArray with
  | [] => mret (Resolved [])
  | _ =>
      s ← get_store;
      let '(placed, thrown) := place_adds s dataArray in
      p ← run_adds (length dataArray) placed 0 0 [];
      match thrown with
      | Some e => mret (Rejected e)
      | None => mret p
      end
  end.

(** [cursor.update(newData)] throws unless, with in-line keys, the new value
    carries the key of the record under the cursor. *)
Definition cursor_update_check (s : IDBObjectStore) (pk : key) (newData : record)
  : call unit :=
  match os_keyPath s with
  | None => Returns ()
  | Some p =>
      if decide (key_of_val (get_field newData p) = Some pk) then Returns ()
      else Throws (HostError DataError)
  end.

Definition store_update (pk : key) (newData : record) (s : IDBObjectStore)
  : DOMException + (key * IDBObjectStore) :=
  match unique_violation s pk newData with
  | Some idx => inl (ConstraintError_index (idx_name idx))
  | None =>
      inr (pk, set_rows s (os_keygen s) (rows_insert pk newData (os_rows s)))
  end.

(** The success handler of the cursor request of [updateObjectData]. *)
Fixpoint update_cursor (keyPath : string) (k : key) (newData : record)
    (cursor : list (key * record)) : Host (promise (list record)) :=
  ev ← cursor_event;
  match ev with
  | inl error =>
      mret (Rejected (LibError (IndexedDBError
              (message_or error "Cursor operation failed"))))
  | inr _ =>
      match cursor with
      | [] =>
          mret (Rejected (LibError (IndexedDBError
                  ("Failed to locate object for update with " +:+ keyPath +:+
                   "=" +:+ key_to_string k))))
      | (pk, value) :: rest =>
          if strict_eq (get_field value keyPath) (val_of_key k) then
            s ← get_store;
            match cursor_update_check s pk newData with
            | Throws _ => _ ← handler_throws; mret Pending
            | Returns _ =>
                r ← request (store_update pk newData);
                match r with
                | inr _ => getAllObjectData
                | inl error =>
                    mret (Rejected (LibError (IndexedDBError
                            (message_or error "Update operation failed"))))
                end
            end
          else update_cursor keyPath k newData rest
      end
  end.

(** [updateObjectData]; [between] is what requests that other code placed on
    the same transaction do after the [getAll] answer and before the cursor
    opens. Nothing comes between when the caller awaits the function. *)
Definition updateObjectData_between (between : Host unit)
    (keyPath : string) (k : key) (newData : record)
  : Host (promise (list record)) :=
  p ← getAllObjectData;
  match p with
  | Resolved allData =>
      match find (λ data, strict_eq (get_field data keyPath) (val_of_key k))
                 allData with
      | None =>
          s ← get_store;
          mret (Rejected (LibError (IndexedDBError
                  ("There's no object in the " +:+ os_name s +:+ " whose " +:+
                   keyPath +:+ " matches " +:+ key_to_string k +:+ "."))))
      | Some _ =>
          _ ← between;
          s ← get_store;
          update_cursor keyPath k newData (cursor_records s None Next)
      end
  | Rejected error => mret (Rejected error)
  | Pending => mret Pending
  end.

Definition updateObjectData
  : string → key → record → Host (promise (list record)) :=
  updateObjectData_between (mret ()).

Definition deleteObjectData (k : key)
  : Host (promise (option record * list record)) :=
  p ← getObjectData k;
  match p with
  | Resolved deletedObject =>
      match deletedObject with
      | None =>
          s ← get_store;
          mret (Rejected (LibError (IndexedDBError
                  ("Object with key " +:+ dquote +:+ key_to_string k +:+
                   dquote +:+ " not found in store " +:+ dquote +:+
                   os_name s +:+ dquote))))
      | Some _ =>
          r ← request (store_delete k);
          match r with
          | inr _ =>
              p' ← getAllObjectData;
              match p' with
              | Resolved allData => mret (Resolved (deletedObject, allData))
              | Rejected error => mret (Rejected error)
              | Pending => mret Pending
              end
          | inl error =>
              mret (Rejected (LibError (IndexedDBError
                      (message_or error "Delete operation failed"))))
          end
      end
  | Rejected error =>
      mret (Rejected (LibError (IndexedDBError
              ("Failed to retrieve object before deletion: " +:+
               error_message error))))
  | Pending => mret Pending
  end.

Definition clearObjectStore : Host (promise unit) :=
  r ← request store_clear;
  match r with
  | inr _ => mret (Resolved ())
  | inl error =>
      mret (Rejected (LibError (IndexedDBError
              (message_or error "Clear operation failed"))))
  end.

(** ** The host: databases, connections and transactions *)

Record database := mkDB {
  db_version : Z;
  db_stores : list IDBObjectStore
}.

(** The browser: whether [window.indexedDB] is there, the databases by name,
    and the script of I/O failures. One transaction runs at a time. *)
Record world := mkWorld {
  w_supported : bool;
  w_dbs : gmap string database;
  w_io : list (option DOMException)
}.

(** An open connection ([IDBDatabase]). *)
Record IDBDatabase := mkConn {
  conn_name : string;
  conn_version : Z
}.

Inductive IDBTransactionMode :=
  | readonly
  | readwrite.

(** A transaction object: its scope, its mode, whether it has finished, and
    the database as it was when the transaction started. *)
Record IDBTransaction := mkTx {
  tx_db : string;
  tx_scope : list string;
  tx_mode : IDBTransactionMode;
  tx_finished : bool;
  tx_before : database
}.

Definition find_store (name : string) (db : database) : option IDBObjectStore :=
  find (λ s, bool_decide (os_name s = name)) (db_stores db).

Definition objectStoreNames_contains (db : database) (name : string) : bool :=
  bool_decide (is_Some (find_store name db)).

Fixpoint replace_store (s : IDBObjectStore) (stores : list IDBObjectStore)
  : list IDBObjectStore :=
  match stores with
  | [] => []
  | s' :: rest =>
      if decide (os_name s' = os_name s) then s :: rest
      else s' :: replace_store s rest
  end.

Definition write_store (name : string) (s : IDBObjectStore) (w : world)
  : world :=
  match w_dbs w !! name with
  | Some db =>
      mkWorld (w_supported w)
        (<[name := mkDB (db_version db) (replace_store s (db_stores db))]>
           (w_dbs w))
        (w_io w)
  | None => w
  end.

(** [stores: string | string[]]. *)
Definition scope_of (stores : string + list string) : list string :=
  match stores with
  | inl name => [name]
  | inr names => names
  end.

(** [dbObject.transaction(stores, mode)]. *)
Definition db_transaction (dbObject : IDBDatabase)
    (stores : string + list string) (mode : IDBTransactionMode) (w : world)
  : call IDBTransaction :=
  match w_dbs w !! conn_name dbObject with
  | None => Throws (HostError InvalidStateError)
  | Some db =>
      match scope_of stores with
      | [] => Throws (HostError InvalidAccessError)
      | scope =>
          if forallb (objectStoreNames_contains db) scope
          then Returns (mkTx (conn_name dbObject) scope mode false db)
          else Throws (HostError NotFoundError)
      end
  end.

(** [tx.IDBObjectStore(name)]. *)
Definition tx_objectStore (tx : IDBTransaction) (name : string) (w : world)
  : call IDBObjectStore :=
  if tx_finished tx then Throws (HostError InvalidStateError)
  else if bool_decide (name ∈ tx_scope tx) then
    match w_dbs w !! tx_db tx ≫= find_store name with
    | Some s => Returns s
    | None => Throws (HostError NotFoundError)
    end
  else Throws (HostError NotFoundError).

(** The transaction object once the transaction has finished: after
    [abort()], or after its completion event. *)
Definition tx_finish (tx : IDBTransaction) : IDBTransaction :=
  mkTx (tx_db tx) (tx_scope tx) (tx_mode tx) true (tx_before tx).

(** [tx.abort()]: the changes of the transaction are undone. *)
Definition tx_abort (tx : IDBTransaction) (w : world)
  : call IDBTransaction * world :=
  if tx_finished tx then (Throws (HostError InvalidStateError), w)
  else (Returns (tx_finish tx),
        mkWorld (w_supported w) (<[tx_db tx := tx_before tx]> (w_dbs w))
          (w_io w)).

(** ** The library: promises over the browser *)

Definition Async (A : Type) : Type := world → promise A * world.

Global Instance Async_ret : MRet Async := λ A a w, (Resolved a, w).
(** [await]. *)
Global Instance Async_bind : MBind Async :=
  λ A B f m w,
    match m w with
    | (Resolved a, w') => f a w'
    | (Rejected e, w') => (Rejected e, w')
    | (Pending, w') => (Pending, w')
    end.

(** A call made inside an async function: a throw rejects its promise. *)
Definition async_call {A} (c : world → call A) : Async A := λ w,
  match c w with
  | Returns a => (Resolved a, w)
  | Throws e => (Rejected e, w)
  end.

(** Every exception the host throws is an [Error]; so are the library's. *)
Definition instanceof_Error (e : jsError) : bool :=
  match e with
  | HostError _ => true
  | LibError _ => true
  end.

(** *** The transaction handler *)

Record TransactionHandler := mkHandler { tx : IDBTransaction }.

Definition transaction (dbObject : IDBDatabase) (stores : string + list string)
    (mode : IDBTransactionMode) (w : world) : call TransactionHandler :=
  match db_transaction dbObject stores mode w with
  | Returns t => Returns (mkHandler t)
  | Throws e => Throws e
  end.

Definition getStore (this : TransactionHandler) (name : string)
  : Async IDBObjectStore := λ w,
    match tx_objectStore (tx this) name w with
    | Returns store => (Resolved store, w)
    | Throws error =>
        (Rejected (LibError
           (if instanceof_Error error then StoreNotFoundError name
            else TransactionError "Failed to access object store")), w)
    end.

(** [commit()] settles on the completion events of the transaction; on a
    transaction that has finished before, they never come. *)
Definition commit (this : TransactionHandler) : Async unit := λ w,
  if tx_finished (tx this) then (Pending, w) else (Resolved (), w).

Definition abort (this : TransactionHandler) (w : world)
  : call TransactionHandler * world :=
  match tx_abort (tx this) w with
  | (Returns t, w') => (Returns (mkHandler t), w')
  | (Throws e, w') => (Throws e, w')
  end.

(** Running a record operation on a store handle of the transaction: the
    store's new content is written to the database, unless a request error
    aborted the transaction, which undoes what the transaction did. *)
Definition on_store {A} (this : TransactionHandler) (store : IDBObjectStore)
    (op : Host (promise A)) : Async A := λ w,
  let '(p, h) := op (mkHost store (w_io w) false) in
  let w' := mkWorld (w_supported w) (w_dbs w) (h_io h) in
  (p, if h_aborted h
      then mkWorld (w_supported w)
             (<[tx_db (tx this) := tx_before (tx this)]> (w_dbs w)) (h_io h)
      else write_store (tx_db (tx this)) (h_store h) w').

(** *** Opening a database *)

Record IDBObjectStoreParameters := mkParams {
  keyPath : option string;
  autoIncrement : bool
}.

Record IDBIndexConfig := mkIndexConfig {
  ic_name : string;
  ic_keyPath : list string;
  ic_unique : bool
}.

(** An initial record, of type [{ id: string | number; [key: string]: any }]. *)
Record seedRecord := mkSeed {
  seed_id : key;
  seed_fields : record
}.

Definition seed_object (item : seedRecord) : record :=
  <["id" := val_of_key (seed_id item)]> (seed_fields item).

Record IDBStoreConfig := mkStoreConfig {
  sc_name : string;
  sc_config : IDBObjectStoreParameters;
  sc_indices : option (list IDBIndexConfig);
  sc_data : option (list seedRecord)
}.

Record DatabaseConfig := mkConfig {
  cfg_name : string;
  cfg_version : Z;
  cfg_stores : list IDBStoreConfig
}.

Definition createObjectStore (name : string) (config : IDBObjectStoreParameters)
  : IDBObjectStore :=
  mkStore name (keyPath config) (autoIncrement config) 1 [] [].

(** [createIndex]: a unique index over records that share an index key fails,
    which aborts the upgrade. *)
Definition createIndex (indexConfig : IDBIndexConfig) (s : IDBObjectStore)
  : option IDBObjectStore :=
  let idx := mkIndex (ic_name indexConfig) (ic_keyPath indexConfig)
               (ic_unique indexConfig) in
  if ic_unique indexConfig
     && negb (bool_decide (NoDup (omap (λ kv, index_key idx kv.2) (os_rows s))))
  then None
  else Some (mkStore (os_name s) (os_keyPath s) (os_autoIncrement s)
               (os_keygen s) (os_indices s ++ [idx]) (os_rows s)).

Definition indexNames_contains (s : IDBObjectStore) (name : string) : bool :=
  bool_decide (Exists (λ idx, idx_name idx = name) (os_indices s)).

(** The body of [stores.forEach] in [onupgradeneeded]. *)
Definition upgrade_store (store : IDBStoreConfig) (db : database)
  : option database :=
  let '(objectStore, db) :=
    match find_store (sc_name store) db with
    | None =>
        let s := createObjectStore (sc_name store) (sc_config store) in
        (s, mkDB (db_version db) (db_stores db ++ [s]))
    | Some s => (s, db)
    end in
  s ← foldl (λ acc indexConfig,
               s ← acc;
               if indexNames_contains s (ic_name indexConfig) then Some s
               else createIndex indexConfig s)
            (Some objectStore) (default [] (sc_indices store));
  Some (mkDB (db_version db) (replace_store s (db_stores db))).

Definition onupgradeneeded (stores : option (list IDBStoreConfig))
    (db : database) : option database :=
  foldl (λ acc store, db ← acc; upgrade_store store db) (Some db)
    (default [] stores).

(** The events of an open request that the library listens to. *)
Inductive openEvent :=
  | OpenError (e : DOMException)
  | OpenBlocked
  | OpenSuccess (db : IDBDatabase).

(** [indexedDB.open(name, version)] with its upgrade handler: the request's
    error event, its blocked event, or its success event with the
    connection. [connected] tells whether a connection to the database is
    open elsewhere: nothing in this library closes a connection on
    [versionchange], so an upgrade is blocked then, and the database is as
    it was when the blocked event comes. *)
Definition indexedDB_open (name : string) (version : Z)
    (upgrade : database → option database) (connected : bool) (w : world)
  : openEvent * world :=
  match w_io w with
  | Some e :: io => (OpenError e, mkWorld (w_supported w) (w_dbs w) io)
  | io =>
      let w := mkWorld (w_supported w) (w_dbs w) (tail io) in
      let old := default (mkDB 0 []) (w_dbs w !! name) in
      if bool_decide (version < db_version old) then (OpenError VersionError, w)
      else if bool_decide (db_version old < version) then
        if connected && bool_decide (is_Some (w_dbs w !! name))
        then (OpenBlocked, w)
        else
          match upgrade (mkDB version (db_stores old)) with
          | Some db =>
              (OpenSuccess (mkConn name version),
               mkWorld (w_supported w) (<[name := db]> (w_dbs w)) (w_io w))
          | None => (OpenError AbortError, w)
          end
      else (OpenSuccess (mkConn name version), w)
  end.

Definition open_blocked : jsError :=
  LibError (IndexedDBError "Database open request was blocked").

(** The add requests of the seeding loop; nothing listens to them. When one
    fails its error event reaches [tx.onerror], before the transaction records
    the error: [tx.error] is still null there. *)
Fixpoint run_seed (placed : list (option key * record)) : Host (promise unit) :=
  match placed with
  | [] => mret (Resolved ())
  | (ok, item) :: rest =>
      r ← request (store_add ok item);
      match r with
      | inr _ => run_seed rest
      | inl _ =>
          mret (Rejected (LibError (TransactionError "Transaction failed")))
      end
  end.

(** The body of the loop over [storesWithData], on the store's handle. *)
Definition seed_store (data : list seedRecord) : Host (promise unit) :=
  r ← request store_getAll;
  match r with
  | inl error => mret (Rejected (HostError error))
  | inr existingData =>
      let existingIds := (λ item, get_field item "id") <$> existingData in
      s ← get_store;
      let '(placed, thrown) :=
        place_adds s
          (seed_object <$>
             filter (λ item, val_of_key (seed_id item) ∉ existingIds) data) in
      p ← run_seed placed;
      match thrown with
      | Some e => mret (Rejected e)
      | None => mret p
      end
  end.

Definition has_data (store : IDBStoreConfig) : bool :=
  match sc_data store with
  | Some (_ :: _) => true
  | _ => false
  end.

(** [for (const store of storesWithData)], inside the [try]. *)
Fixpoint seed_stores (db : IDBDatabase) (storesWithData : list IDBStoreConfig)
  : Async unit :=
  match storesWithData with
  | [] => mret ()
  | store :: rest =>
      t ← async_call (db_transaction db (inl (sc_name store)) readwrite);
      objectStore ← async_call (tx_objectStore t (sc_name store));
      _ ← on_store (mkHandler t) objectStore
            (seed_store (default [] (sc_data store)));
      seed_stores db rest
  end.

(** The promise [createDB] returns. *)
Definition createDB_promise (name : string) (version : Z)
    (stores : option (list IDBStoreConfig)) (connected : bool)
  : Async IDBDatabase := λ w,
  if bool_decide (version ≤ 0) then (Rejected (HostError TypeError), w)
  else
    match indexedDB_open name version (onupgradeneeded stores) connected w with
    | (OpenError error, w) =>
        (Rejected (LibError (IndexedDBError
           (message_or error "Failed to open database"))), w)
    | (OpenBlocked, w) => (Rejected open_blocked, w)
    | (OpenSuccess db, w) =>
        match stores with
        | None | Some [] => (Resolved db, w)
        | Some stores =>
            match filter (λ store, has_data store) stores with
            | [] => (Resolved db, w)
            | storesWithData =>
                match seed_stores db storesWithData w with
                | (Resolved _, w) => (Resolved db, w)
                | (Rejected error, w) =>
                    (Rejected
                       (if instanceof_Error error then error
                        else LibError (IndexedDBError "Unknown error occurred")),
                     w)
                | (Pending, w) => (Pending, w)
                end
            end
        end
    end.

Definition not_supported : jsError :=
  LibError (IndexedDBError "IndexedDB is not supported in this browser!").

Definition createDB (name : string) (version : Z)
    (stores : option (list IDBStoreConfig)) (connected : bool) (w : world)
  : call (promise IDBDatabase) * world :=
  if w_supported w then
    let '(p, w') := createDB_promise name version stores connected w in
    (Returns p, w')
  else (Throws not_supported, w).

Definition openDB (name : string) (version : Z) (connected : bool) (w : world)
  : call (promise IDBDatabase) * world :=
  if w_supported w then
    if bool_decide (version ≤ 0)
    then (Returns (Rejected (HostError TypeError)), w)
    else
      match indexedDB_open name version Some connected w with
      | (OpenSuccess db, w') => (Returns (Resolved db), w')
      | (OpenError error, w') =>
          (Returns (Rejected (LibError (IndexedDBError
             (message_or error "Failed to open database")))), w')
      | (OpenBlocked, w') => (Returns (Rejected open_blocked), w')
      end
  else (Throws not_supported, w).

(** ** The library: the class [IndexedDBUtil] *)

Record IndexedDBUtil := mkUtil {
  dbName : string;
  dbVersion : Z;
  db : option IDBDatabase;      (* [null] until [init], and after [close] *)
  stores : list IDBStoreConfig
}.

Module Util.

Definition constructor (config : DatabaseConfig) : IndexedDBUtil :=
  mkUtil (cfg_name config) (cfg_version config) None (cfg_stores config).

Definition set_db (this : IndexedDBUtil) (d : option IDBDatabase)
  : IndexedDBUtil :=
  mkUtil (dbName this) (dbVersion this) d (stores this).

(** [init] assigns [this.db] once [createDB] has resolved. *)
Definition init (this : IndexedDBUtil) (connected : bool) (w : world)
  : promise unit * IndexedDBUtil * world :=
  if negb (w_supported w) then (Rejected not_supported, this, w)
  else
    match createDB (dbName this) (dbVersion this) (Some (stores this))
            connected w with
    | (Throws e, w') => (Rejected e, this, w')
    | (Returns (Resolved d), w') => (Resolved (), set_db this (Some d), w')
    | (Returns (Rejected e), w') => (Rejected e, this, w')
    | (Returns Pending, w') => (Pending, this, w')
    end.

Definition not_initialized : jsError :=
  LibError (IndexedDBError "Database not initialized. Call init() first.").

Definition getDB (this : IndexedDBUtil) : call IDBDatabase :=
  match db this with
  | None => Throws not_initialized
  | Some d => Returns d
  end.

Definition transaction (this : IndexedDBUtil) (stores : string + list string)
    (mode : IDBTransactionMode) (w : world) : call TransactionHandler :=
  match getDB this with
  | Throws e => Throws e
  | Returns d => transaction d stores mode w
  end.

Definition get (this : IndexedDBUtil) (storeName : string) (k : key)
  : Async (option record) :=
  t ← async_call (transaction this (inl storeName) readonly);
  store ← getStore t storeName;
  on_store t store (getObjectData k).

Definition getAll (this : IndexedDBUtil) (storeName : string)
  : Async (list record) :=
  t ← async_call (transaction this (inl storeName) readonly);
  store ← getStore t storeName;
  on_store t store getAllObjectData.

Definition query (this : IndexedDBUtil) (storeName : string)
    (options : QueryOptions) : Async (list record) :=
  t ← async_call (transaction this (inl storeName) readonly);
  store ← getStore t storeName;
  on_store t store (queryObjectData options).

Definition count (this : IndexedDBUtil) (storeName : string)
    (keyRange : option IDBKeyRange) : Async Z :=
  t ← async_call (transaction this (inl storeName) readonly);
  store ← getStore t storeName;
  on_store t store (countObjectData keyRange).

Definition add (this : IndexedDBUtil) (storeName : string) (data : record)
  : Async (list record) :=
  t ← async_call (transaction this (inl storeName) readwrite);
  store ← getStore t storeName;
  result ← on_store t store (addObjectData data);
  _ ← commit t;
  mret result.

Definition put (this : IndexedDBUtil) (storeName : string) (data : record)
  : Async key :=
  t ← async_call (transaction this (inl storeName) readwrite);
  store ← getStore t storeName;
  result ← on_store t store (putObjectData data);
  _ ← commit t;
  mret result.

Definition bulkAdd (this : IndexedDBUtil) (storeName : string)
    (dataArray : list record) : Async (list (option key)) :=
  t ← async_call (transaction this (inl storeName) readwrite);
  store ← getStore t storeName;
  result ← on_store t store (bulkAddObjectData dataArray);
  _ ← commit t;
  mret result.

Definition update (this : IndexedDBUtil) (storeName : string)
    (keyPath : string) (k : key) (newData : record) : Async (list record) :=
  t ← async_call (transaction this (inl storeName) readwrite);
  store ← getStore t storeName;
  result ← on_store t store (updateObjectData keyPath k newData);
  _ ← commit t;
  mret result.

Definition delete (this : IndexedDBUtil) (storeName : string) (k : key)
  : Async (option record * list record) :=
  t ← async_call (transaction this (inl storeName) readwrite);
  store ← getStore t storeName;
  result ← on_store t store (deleteObjectData k);
  _ ← commit t;
  mret result.

Definition clear (this : IndexedDBUtil) (storeName : string) : Async unit :=
  t ← async_call (transaction this (inl storeName) readwrite);
  store ← getStore t storeName;
  _ ← on_store t store clearObjectStore;
  commit t.

(** [close] closes the connection and forgets it. *)
Definition close (this : IndexedDBUtil) : IndexedDBUtil :=
  match db this with
  | Some _ => set_db this None
  | None => this
  end.

End Util.

(** The key range builders. *)
Module KeyRange.
Definition only (value : key) : IDBKeyRange :=
  mkRange (Some value) (Some value) false false.
Definition lowerBound (lower : key) (open : bool) : IDBKeyRange :=
  mkRange (Some lower) None open true.
Definition upperBound (upper : key) (open : bool) : IDBKeyRange :=
  mkRange None (Some upper) true open.
(** [IDBKeyRange.bound] throws when the range can hold no key. *)
Definition bound (lower upper : key) (lowerOpen upperOpen : bool)
  : call IDBKeyRange :=
  if decide (key_lt upper lower) then Throws (HostError DataError)
  else if bool_decide (lower = upper) && (lowerOpen || upperOpen)
  then Throws (HostError DataError)
  else Returns (mkRange (Some lower) (Some upper) lowerOpen upperOpen).
End KeyRange.

(** * Reference definitions for the properties *)

(** What a traversal hands out when [skip] records are still to be skipped
    and [counted] records have been collected. *)
Definition page_from (skip : Z) (limit : option Z) (counted : Z)
    (cursor : list (key * record)) : list record :=
  let rest := drop (Z.to_nat skip) cursor in
  (match limit with
   | Some l =>
       if decide (l = 0) then rest else take (Z.to_nat (l - counted)) rest
   | None => rest
   end).*2.


(** The records a query visits: those of its source, in its direction. *)
Definition query_visits (s : IDBObjectStore) (options : QueryOptions)
  : list (key * record) :=
  match query_source s (q_index options) with
  | Returns source =>
      cursor_records s source (default Next (q_direction options))
  | Throws _ => []
  end.

(** The length the specification gives for a query over [M] records. *)
Definition query_length (M : Z) (options : QueryOptions) : Z :=
  let O := default 0 (q_offset options) in
  match q_limit options with
  | Some L => Z.max 0 (Z.min L (M - O))
  | None => Z.max 0 (M - O)
  end.

(** ** Sample data *)

Definition item (name : string) : record := {[ "name" := VStr name ]}.

Definition stored_item (id : Z) (name : string) : record :=
  {[ "id" := VNum id; "name" := VStr name ]}.

(** The substore [items] of the specification's scenario: auto-increment
    keys at [id], after the insertion of a, b and c. *)
Definition items_empty : IDBObjectStore :=
  mkStore "items" (Some "id") true 1 [] [].

Definition items_abc : IDBObjectStore :=
  mkStore "items" (Some "id") true 4 []
    [(KNum 1, stored_item 1 "a"); (KNum 2, stored_item 2 "b");
     (KNum 3, stored_item 3 "c")].

(** The same substore with the key generator at its last number, 2^53, and
    after a record was put under the key 2^53: the key generator has passed
    its last number. *)
Definition items_last : IDBObjectStore :=
  mkStore "items" (Some "id") true 9007199254740992 [] [].

Definition items_full : IDBObjectStore :=
  mkStore "items" (Some "id") true 9007199254740993 []
    [(KNum 9007199254740992, stored_item 9007199254740992 "z")].

Definition handle (s : IDBObjectStore) : host := mkHost s [] false.

(** A substore [users] with a unique index on [email] and an index on [age];
    the second user has no age. *)
Definition user (id : Z) (email : string) (age : option Z) : record :=
  let r : record := {[ "id" := VNum id; "email" := VStr email ]} in
  match age with
  | Some a => <["age" := VNum a]> r
  | None => r
  end.

Definition users_two : IDBObjectStore :=
  mkStore "users" (Some "id") true 3
    [mkIndex "email" ["email"] true; mkIndex "age" ["age"] false]
    [(KNum 1, user 1 "john@example.com" (Some 30));
     (KNum 2, user 2 "jane@example.com" None)].

(** ** Reading the outcome of a request *)

(** The I/O failure the host has scripted for the next request, if any. *)
Definition next_failure (h : host) : option DOMException :=
  mjoin (head (h_io h)).

(** An insert was refused for the constraint [d]: the add request of
    [store.add] fails with [d], a ConstraintError of the host; the promise is
    rejected with the library's error that carries the message of [d]; the
    store keeps its content and the transaction is aborted. *)
Definition constraint_rejected (ok : option key) (data : record)
    (d : DOMException) (h : host) : Prop :=
  dom_name d = "ConstraintError" ∧
  request (store_add ok data) h =
    (inl d, mkHost (h_store h) (tail (h_io h)) true) ∧
  addObjectData data h =
    (Rejected (LibError (IndexedDBError (dom_message d))),
     mkHost (h_store h) (tail (h_io h)) true).

(** ** The invariant of a store *)

(** The rows of a store ascend strictly in the primary key; in particular no
    key occurs twice. *)
Definition store_wf (s : IDBObjectStore) : Prop :=
  StronglySorted key_lt (os_rows s).*1.

(** The error of [deleteObjectData] for a key that is not in the store. *)
Definition delete_not_found (k : key) (s : IDBObjectStore) : jsError :=
  LibError (IndexedDBError
    ("Object with key " +:+ dquote +:+ key_to_string k +:+ dquote +:+
     " not found in store " +:+ dquote +:+ os_name s +:+ dquote)).

(** ** Bulk insert, one insert after the other *)

(** The inserts of [dataArray] made one by one, each on the store the one
    before left: the keys assigned in the order of the input, or the position
    and the error of the first insert that fails. *)
Fixpoint insert_each (s : IDBObjectStore) (dataArray : list record) (index : nat)
  : (nat * DOMException) + (list key * IDBObjectStore) :=
  match dataArray with
  | [] => inr ([], s)
  | data :: rest =>
      match extract_key s data with
      | Throws _ => inl (index, DataError)
      | Returns ok =>
          match store_add ok data s with
          | inl d => inl (index, d)
          | inr (k, s') =>
              match insert_each s' rest (S index) with
              | inr (keys, s'') => inr (k :: keys, s'')
              | inl failure => inl failure
              end
          end
      end
  end.

(** The error of [bulkAddObjectData] for the insert at [index] that fails
    with [d]. *)
Definition bulk_add_failed (index : nat) (d : DOMException) : jsError :=
  LibError (IndexedDBError
    (message_or d ("Failed to add item at index " +:+ pretty index))).

Definition same_config (s s' : IDBObjectStore) : Prop :=
  os_keyPath s = os_keyPath s' ∧ os_autoIncrement s = os_autoIncrement s'.

(** ** Find and replace *)

(** [value[keyPath] === key]. *)
Definition field_matches (keyPath : string) (k : key) (value : record) : bool :=
  strict_eq (get_field value keyPath) (val_of_key k).

(** The first row, in the order of the rows, whose field has the value. *)
Definition first_match (keyPath : string) (k : key) (rows : list (key * record))
  : option (key * record) :=
  find (λ kv, field_matches keyPath k kv.2) rows.

(** The two not-found errors of [updateObjectData]: of the first pass, over
    the array of all records, and of the cursor pass. *)
Definition update_not_found (s : IDBObjectStore) (keyPath : string) (k : key)
  : jsError :=
  LibError (IndexedDBError
    ("There's no object in the " +:+ os_name s +:+ " whose " +:+
     keyPath +:+ " matches " +:+ key_to_string k +:+ ".")).

Definition update_not_located (keyPath : string) (k : key) : jsError :=
  LibError (IndexedDBError
    ("Failed to locate object for update with " +:+ keyPath +:+
     "=" +:+ key_to_string k)).

(** A substore with out-of-line keys that holds the three items. *)
Definition notes_abc : IDBObjectStore :=
  mkStore "notes" None true 4 []
    [(KNum 1, item "a"); (KNum 2, item "b"); (KNum 3, item "b")].

(** A delete request that other code placed on the same transaction. *)
Definition other_delete (k : key) : Host unit :=
  r ← request (store_delete k); mret ().

(** ** A sample database *)

Definition app_db : database := mkDB 1 [users_two; items_abc].

Definition app_world : world := mkWorld true {[ "app" := app_db ]} [].

Definition app_conn : IDBDatabase := mkConn "app" 1.

(** The transaction over [users] and [items] of the sample database, and the
    same transaction after [abort()]. *)
Definition app_tx : TransactionHandler :=
  mkHandler (mkTx "app" ["users"; "items"] readwrite false app_db).

Definition app_tx_aborted : TransactionHandler :=
  mkHandler (tx_finish (tx app_tx)).

(** ** Sequences of method calls on one [IndexedDBUtil] object *)

Inductive method :=
  | Init (connected : bool)
  | Close
  | GetDB
  | Transaction (stores : string + list string) (mode : IDBTransactionMode)
  | Get (storeName : string) (k : key)
  | GetAll (storeName : string)
  | Query (storeName : string) (options : QueryOptions)
  | Count (storeName : string) (keyRange : option IDBKeyRange)
  | Add (storeName : string) (data : record)
  | Put (storeName : string) (data : record)
  | BulkAdd (storeName : string) (dataArray : list record)
  | Update (storeName : string) (keyPath : string) (k : key) (newData : record)
  | Delete (storeName : string) (k : key)
  | Clear (storeName : string).

(** How a call ended, without the value. *)
Inductive ending :=
  | Fulfilled
  | Failed (e : jsError)
  | Unsettled.

Definition promise_ending {A} (p : promise A) : ending :=
  match p with
  | Resolved _ => Fulfilled
  | Rejected e => Failed e
  | Pending => Unsettled
  end.

Definition call_ending {A} (c : call A) : ending :=
  match c with
  | Returns _ => Fulfilled
  | Throws e => Failed e
  end.

Definition async_ending {A} (this : IndexedDBUtil) (op : Async A) (w : world)
  : ending * IndexedDBUtil * world :=
  let '(p, w') := op w in (promise_ending p, this, w').

Definition invoke (m : method) (this : IndexedDBUtil) (w : world)
  : ending * IndexedDBUtil * world :=
  match m with
  | Init connected =>
      let '(p, this', w') := Util.init this connected w in
      (promise_ending p, this', w')
  | Close => (Fulfilled, Util.close this, w)
  | GetDB => (call_ending (Util.getDB this), this, w)
  | Transaction stores mode =>
      (call_ending (Util.transaction this stores mode w), this, w)
  | Get storeName k => async_ending this (Util.get this storeName k) w
  | GetAll storeName => async_ending this (Util.getAll this storeName) w
  | Query storeName options =>
      async_ending this (Util.query this storeName options) w
  | Count storeName keyRange =>
      async_ending this (Util.count this storeName keyRange) w
  | Add storeName data => async_ending this (Util.add this storeName data) w
  | Put storeName data => async_ending this (Util.put this storeName data) w
  | BulkAdd storeName dataArray =>
      async_ending this (Util.bulkAdd this storeName dataArray) w
  | Update storeName keyPath k newData =>
      async_ending this (Util.update this storeName keyPath k newData) w
  | Delete storeName k => async_ending this (Util.delete this storeName k) w
  | Clear storeName => async_ending this (Util.clear this storeName) w
  end.

(** Whether the object is live: initialized, and not closed since. *)
Definition live_after (m : method) (o : ending) (live : bool) : bool :=
  match m, o with
  | Init _, Fulfilled => true
  | Close, _ => false
  | _, _ => live
  end.

(** A sequence of calls, each awaited before the next, with the liveness the
    calls imply. *)
Fixpoint run_methods (ms : list method) (this : IndexedDBUtil) (w : world)
    (live : bool) : IndexedDBUtil * world * bool :=
  match ms with
  | [] => (this, w, live)
  | m :: rest =>
      let '(o, this', w') := invoke m this w in
      run_methods rest this' w' (live_after m o live)
  end.

(** ** Seeding *)

(** The values of the field [id] of the stored records: the members of the
    set [existingIds]. *)
Definition stored_ids (s : IDBObjectStore) : list jsval :=
  (λ item, get_field item "id") <$> (os_rows s).*2.

(** The initial records of a store of the configuration. *)
Definition seeds (store : IDBStoreConfig) : list seedRecord :=
  default [] (sc_data store).

(** The store of a name in the database of a name. *)
Definition store_in (w : world) (name storeName : string)
  : option IDBObjectStore :=
  w_dbs w !! name ≫= find_store storeName.

(** The store of the configuration exists and holds the [id] of each of its
    initial records. *)
Definition seeded (w : world) (name : string) (store : IDBStoreConfig) : Prop :=
  ∃ s, store_in w name (sc_name store) = Some s ∧
       ∀ item, item ∈ seeds store → val_of_key (seed_id item) ∈ stored_ids s.

(** From [w] to [w'] the database [name] keeps its version and its stores,
    and each store keeps the ids it holds. *)
Definition grows (name : string) (w w' : world) : Prop :=
  w_supported w' = w_supported w ∧
  (∀ d, w_dbs w !! name = Some d →
        ∃ d', w_dbs w' !! name = Some d' ∧ db_version d' = db_version d) ∧
  (∀ storeName s, store_in w name storeName = Some s →
        ∃ s', store_in w' name storeName = Some s' ∧
              ∀ id, id ∈ stored_ids s → id ∈ stored_ids s').

(** The stores of the library's own test: [users] with two initial records,
    [products] without. *)
Definition test_stores : list IDBStoreConfig :=
  [mkStoreConfig "users" (mkParams (Some "id") true)
     (Some [mkIndexConfig "email" ["email"] true;
            mkIndexConfig "age" ["age"] false])
     (Some [mkSeed (KNum 1)
              {[ "name" := VStr "John Doe"; "email" := VStr "john@example.com";
                 "age" := VNum 30 ]};
            mkSeed (KNum 2)
              {[ "name" := VStr "Jane Smith"; "email" := VStr "jane@example.com";
                 "age" := VNum 25 ]}]);
   mkStoreConfig "products" (mkParams (Some "id") true) None None].

(** A browser without any database. *)
Definition empty_world : world := mkWorld true ∅ [].

(** The browser after [createDB('test-db', 1, stores)]. *)
Definition test_world : world :=
  (createDB "test-db" 1 (Some test_stores) false empty_world).2.

(** An operation on a store handle keeps the invariant of the store. *)
Definition keeps_wf {A} (op : Host A) : Prop :=
  ∀ h, store_wf (h_store h) → store_wf (h_store (op h).2).

Global Instance store_wf_dec s : Decision (store_wf s).
Proof. unfold store_wf. apply _. Defined.

(** The configuration of the library's test of the class, the object after
    [init()] in a browser without databases, and the browser then. *)
Definition class_test_config : DatabaseConfig :=
  mkConfig "class-test-db" 1
    [mkStoreConfig "users" (mkParams (Some "id") true)
       (Some [mkIndexConfig "email" ["email"] true;
              mkIndexConfig "name" ["name"] false]) None;
     mkStoreConfig "posts" (mkParams (Some "id") true)
       (Some [mkIndexConfig "userId" ["userId"] false;
              mkIndexConfig "title" ["title"] false]) None].

Definition class_test_util : IndexedDBUtil :=
  (Util.init (Util.constructor class_test_config) false empty_world).1.2.

Definition class_test_world : world :=
  (Util.init (Util.constructor class_test_config) false empty_world).2.

Definition test_user : record :=
  {[ "name" := VStr "Test User"; "email" := VStr "test@example.com";
     "age" := VNum 28 ]}.

(** A substore [tasks] with an index on [tag]: two records share a tag, the
    third has none. *)
Definition task (id : Z) (tag : option string) : record :=
  match tag with
  | Some t => {[ "id" := VNum id; "tag" := VStr t ]}
  | None => {[ "id" := VNum id ]}
  end.

Definition tasks_three : IDBObjectStore :=
  mkStore "tasks" (Some "id") true 4 [mkIndex "tag" ["tag"] false]
    [(KNum 1, task 1 (Some "x")); (KNum 2, task 2 (Some "x"));
     (KNum 3, task 3 None)].

(** A substore [parts] whose key path is [sku], with one initial record
    [{ id: 1, sku: 'A' }]; the browser after [createDB('shop', 1, ...)] when
    the substore holds [rows]; and an object with a connection to it. *)
Definition parts_config : IDBStoreConfig :=
  mkStoreConfig "parts" (mkParams (Some "sku") false) None
    (Some [mkSeed (KNum 1) {[ "sku" := VStr "A" ]}]).

Definition part (sku : string) (id : Z) : record :=
  {[ "sku" := VStr sku; "id" := VNum id ]}.

Definition parts_world (rows : list (key * record)) : world :=
  mkWorld true
    {[ "shop" := mkDB 1 [mkStore "parts" (Some "sku") false 1 [] rows] ]} [].

Definition parts_util : IndexedDBUtil :=
  mkUtil "shop" 1 (Some (mkConn "shop" 1)) [parts_config].

(** * The library: deleting a database *)

(** The events of the request of [indexedDB.deleteDatabase(name)]. *)
Inductive deleteEvent :=
  | DeleteError (e : DOMException)
  | DeleteBlocked
  | DeleteSuccess.

(** [indexedDB.deleteDatabase(name)]. [connected] tells whether a connection
    to the database is open: nothing in this library closes a connection on
    [versionchange], so the request is blocked then, and the database is
    still there when the blocked event comes. *)
Definition indexedDB_deleteDatabase (name : string) (connected : bool)
    (w : world) : deleteEvent * world :=
  match w_io w with
  | Some e :: io => (DeleteError e, mkWorld (w_supported w) (w_dbs w) io)
  | io =>
      if connected
      then (DeleteBlocked, mkWorld (w_supported w) (w_dbs w) (tail io))
      else (DeleteSuccess,
            mkWorld (w_supported w) (delete name (w_dbs w)) (tail io))
  end.

Definition ReferenceError : DOMException :=
  mkDOM "ReferenceError" "indexedDB is not defined".

(** The static method [IndexedDBUtil.deleteDatabase]. It does not check for
    support: without [indexedDB] the executor of the promise throws. *)
Definition deleteDatabase (name : string) (connected : bool) : Async unit :=
  λ w,
    if w_supported w then
      match indexedDB_deleteDatabase name connected w with
      | (DeleteSuccess, w') => (Resolved (), w')
      | (DeleteError error, w') =>
          (Rejected (LibError (IndexedDBError
             (message_or error "Failed to delete database"))), w')
      | (DeleteBlocked, w') =>
          (Rejected (LibError (IndexedDBError "Database deletion was blocked")),
           w')
      end
    else (Rejected (HostError ReferenceError), w).

(** * Further reference definitions *)

(** ** More invariants of a store *)

(** With in-line keys, a stored record carries its primary key at the key
    path. *)
Definition store_keyed (s : IDBObjectStore) : Prop :=
  match os_keyPath s with
  | Some p =>
      Forall (λ kv, key_of_val (get_field kv.2 p) = Some kv.1) (os_rows s)
  | None => True
  end.

Definition key_below (gen : Z) (k : key) : Prop :=
  match k with
  | KNum n => Z.min n max_keygen < gen
  | KStr _ => True
  end.

Global Instance key_below_dec gen k : Decision (key_below gen k).
Proof. destruct k; simpl; apply _. Defined.

(** The current number of the key generator is above every numeric key of
    the store, as far as the generator goes: above [min(key, 2^53)]. *)
Definition keygen_above (s : IDBObjectStore) : Prop :=
  os_autoIncrement s = true →
  Forall (λ kv, key_below (os_keygen s) kv.1) (os_rows s).

Definition store_inv (s : IDBObjectStore) : Prop :=
  store_wf s ∧ store_keyed s ∧ keygen_above s.

Global Instance store_inv_dec s : Decision (store_inv s).
Proof.
  unfold store_inv, store_keyed, keygen_above.
  destruct (os_keyPath s); apply _.
Defined.

(** The store has the key configuration of [s0] and satisfies the
    invariants. *)
Definition cfg_inv (s0 s : IDBObjectStore) : Prop :=
  same_config s0 s ∧ store_inv s.

Definition keeps_inv {A} (s0 : IDBObjectStore) (op : Host A) : Prop :=
  ∀ h, cfg_inv s0 (h_store h) → cfg_inv s0 (h_store (op h).2).

(** ** Sequences of record operations on one store handle *)

Inductive recordOp :=
  | OpGet (k : key)
  | OpGetAll
  | OpQuery (options : QueryOptions)
  | OpCount (keyRange : option IDBKeyRange)
  | OpAdd (data : record)
  | OpPut (data : record)
  | OpBulkAdd (dataArray : list record)
  | OpUpdate (keyPath : string) (k : key) (newData : record)
  | OpDelete (k : key)
  | OpClear
  | OpSeed (data : list seedRecord).

(** The handle after the operation, whatever its outcome. *)
Definition run_op (op : recordOp) (h : host) : host :=
  match op with
  | OpGet k => (getObjectData k h).2
  | OpGetAll => (getAllObjectData h).2
  | OpQuery options => (queryObjectData options h).2
  | OpCount keyRange => (countObjectData keyRange h).2
  | OpAdd data => (addObjectData data h).2
  | OpPut data => (putObjectData data h).2
  | OpBulkAdd dataArray => (bulkAddObjectData dataArray h).2
  | OpUpdate keyPath k newData => (updateObjectData keyPath k newData h).2
  | OpDelete k => (deleteObjectData k h).2
  | OpClear => (clearObjectStore h).2
  | OpSeed data => (seed_store data h).2
  end.

Definition run_ops (ops : list recordOp) (h : host) : host :=
  foldl (λ h op, run_op op h) h ops.

(** ** One insert after the other, on the handle *)

(** [for (const data of dataArray) await addObjectData(store, data)]. *)
Fixpoint add_each (dataArray : list record) : Host (promise unit) :=
  match dataArray with
  | [] => mret (Resolved ())
  | data :: rest =>
      p ← addObjectData data;
      match p with
      | Resolved _ => add_each rest
      | Rejected e => mret (Rejected e)
      | Pending => mret Pending
      end
  end.

(** ** The store handle a method of the class works on *)

(** The transaction over one store that a method of the class opens. *)
Definition method_tx (d : IDBDatabase) (storeName : string)
    (mode : IDBTransactionMode) (before : database) : TransactionHandler :=
  mkHandler (mkTx (conn_name d) [storeName] mode false before).

(** What [this.transaction(storeName, mode)] and [getStore(storeName)] come
    to before a method runs its record operation. *)
Definition with_store {A} (this : IndexedDBUtil) (storeName : string)
    (mode : IDBTransactionMode) (w : world)
    (run : TransactionHandler → IDBObjectStore → promise A * world)
  : promise A * world :=
  match db this with
  | None => (Rejected Util.not_initialized, w)
  | Some d =>
      match w_dbs w !! conn_name d with
      | None => (Rejected (HostError InvalidStateError), w)
      | Some before =>
          match find_store storeName before with
          | None => (Rejected (HostError NotFoundError), w)
          | Some store => run (method_tx d storeName mode before) store
          end
      end
  end.

(** A record operation that does not resolve has aborted the transaction or
    left the store as it was. *)
Definition reverts {A} (op : Host (promise A)) : Prop :=
  ∀ h, match (op h).1 with
       | Resolved _ => True
       | _ => h_aborted (op h).2 = true ∨ h_store (op h).2 = h_store h
       end.

(** How a method ends on a store that the database does not have: with the
    host's error for [db.transaction], the browser untouched. *)
Definition store_missing {A} (w : world) : promise A * world :=
  (Rejected (HostError NotFoundError), w).

(** The database of the library's test of the class. *)
Definition class_test_db : database :=
  default (mkDB 0 []) (w_dbs class_test_world !! "class-test-db").

(** ** Upgrades *)

(** From [s] to [s'] the store keeps its name, its records, its key
    configuration and its indices; it may have gained indices. *)
Definition store_extends (s s' : IDBObjectStore) : Prop :=
  os_name s' = os_name s ∧ os_rows s' = os_rows s ∧
  os_keyPath s' = os_keyPath s ∧
  os_autoIncrement s' = os_autoIncrement s ∧
  os_keygen s' = os_keygen s ∧
  ∀ idx, idx ∈ os_indices s → idx ∈ os_indices s'.

(** The store of the configuration exists and has an index of each
    configured name. *)
Definition configured (store : IDBStoreConfig) (d : database) : Prop :=
  ∃ s, find_store (sc_name store) d = Some s ∧
       ∀ indexConfig, indexConfig ∈ default [] (sc_indices store) →
                      indexNames_contains s (ic_name indexConfig) = true.

(** ** Failures of the host *)

(** The error a record operation rejects with when a request of it fails
    with [d]: the host's message, or the operation's own text when the host
    gives none. *)
Definition host_failure (d : DOMException) (text : string) : jsError :=
  LibError (IndexedDBError (message_or d text)).

(** ** Queries on an index *)

(** The records that have a key in the index. *)
Definition indexed (idx : IDBIndex) (rows : list (key * record))
  : list (key * record) :=
  filter (λ kv, is_Some (index_key idx kv.2)) rows.
(** * Properties *)

(** ** Requests on a host that reports no I/O failure *)

Lemma host_eta (h : host) : mkHost (h_store h) (h_io h) (h_aborted h) = h.
Proof. by destruct h. Qed.

Lemma request_quiet {A} (run : IDBObjectStore → DOMException + (A * IDBObjectStore)) h :
  h_io h = [] →
  request run h =
    match run (h_store h) with
    | inl e => (inl e, mkHost (h_store h) [] true)
    | inr (a, s') => (inr a, mkHost s' [] (h_aborted h))
    end.
Proof. intros Hio. unfold request. rewrite Hio. by destruct (run _) as [?|[??]]. Qed.

Lemma cursor_event_quiet h : h_io h = [] → cursor_event h = (inr (), h).
Proof.
  intros Hio. unfold cursor_event. rewrite request_quiet by done.
  rewrite <- Hio. by rewrite host_eta.
Qed.

(** A cursor event never changes the store. *)
Lemma cursor_event_cases h :
  (∃ e h', cursor_event h = (inl e, h')) ∨
  (∃ h', cursor_event h = (inr (), h') ∧ h_store h' = h_store h).
Proof.
  unfold cursor_event, request.
  destruct (h_io h) as [|[e|] io]; simpl; eauto.
Qed.

Lemma getAllObjectData_quiet h :
  h_io h = [] → getAllObjectData h = (Resolved (os_rows (h_store h)).*2, h).
Proof.
  intros Hio. unfold getAllObjectData, mbind, Host_bind.
  rewrite request_quiet by done. simpl. unfold mret, Host_ret.
  rewrite <- Hio. by rewrite host_eta.
Qed.

(** ** Query and pagination *)

Lemma query_cursor_resolved offset limit cursor :
  ∀ skipped counted results h l,
    (query_cursor offset limit cursor skipped counted results h).1 = Resolved l →
    l = results ++ page_from (offset - skipped) limit counted cursor.
Proof.
  induction cursor as [|[pk value] rest IH]; intros skipped counted results h l;
    simpl; unfold mbind, Host_bind;
    destruct (cursor_event_cases h) as [(e & h' & ->)|(h' & -> & _)]; simpl;
    try discriminate.
  - intros [= <-]. unfold page_from. rewrite drop_nil.
    destruct limit as [lim|]; [case_decide|]; by rewrite ?take_nil, app_nil_r.
  - case_bool_decide as Hskip.
    + intros Hres. apply IH in Hres as ->. f_equal. unfold page_from.
      replace (Z.to_nat (offset - skipped))
        with (S (Z.to_nat (offset - (skipped + 1)))) by lia.
      done.
    + unfold page_from.
      replace (Z.to_nat (offset - skipped)) with 0%nat by lia. simpl.
      destruct (limit_reached limit counted) eqn:Hlim.
      * intros [= <-]. destruct limit as [lim|]; [|done]. simpl in Hlim.
        apply andb_prop in Hlim as [Hnz Hle].
        apply bool_decide_eq_true in Hnz, Hle.
        rewrite decide_False by done.
        replace (Z.to_nat (lim - counted)) with 0%nat by lia.
        by rewrite app_nil_r.
      * intros Hres. apply IH in Hres as ->. rewrite <- app_assoc. f_equal.
        unfold page_from. replace (Z.to_nat (offset - skipped)) with 0%nat by lia.
        simpl. destruct limit as [lim|]; [|done]. simpl in Hlim.
        case_decide as Hz; [done|].
        apply andb_false_iff in Hlim as [Hnz|Hle];
          [by apply bool_decide_eq_false in Hnz|].
        apply bool_decide_eq_false in Hle.
        replace (Z.to_nat (lim - counted))
          with (S (Z.to_nat (lim - (counted + 1)))) by lia.
        done.
Qed.

Lemma query_cursor_quiet offset limit cursor :
  ∀ skipped counted results h,
    h_io h = [] →
    ∃ l, query_cursor offset limit cursor skipped counted results h = (Resolved l, h).
Proof.
  induction cursor as [|[pk value] rest IH]; intros skipped counted results h Hio;
    simpl; unfold mbind, Host_bind; rewrite cursor_event_quiet by done.
  - by eexists.
  - case_bool_decide; [by apply IH|].
    destruct (limit_reached limit counted); [by eexists|by apply IH].
Qed.

Lemma page_from_length offset limit cursor :
  Z.of_nat (length (page_from offset limit 0 cursor)) =
    match limit with
    | Some L =>
        if decide (L = 0) then Z.max 0 (Z.of_nat (length cursor) - Z.max 0 offset)
        else Z.max 0 (Z.min L (Z.of_nat (length cursor) - Z.max 0 offset))
    | None => Z.max 0 (Z.of_nat (length cursor) - Z.max 0 offset)
    end.
Proof.
  unfold page_from. rewrite length_fmap.
  destruct limit as [L|]; [case_decide|];
    rewrite ?length_take, length_drop; lia.
Qed.

Lemma query_source_visits s options source :
  query_source s (q_index options) = Returns source →
  query_visits s options =
    cursor_records s source (default Next (q_direction options)).
Proof. unfold query_visits. by intros ->. Qed.

Lemma queryObjectData_resolved options h l :
  (queryObjectData options h).1 = Resolved l →
  l = page_from (default 0 (q_offset options)) (q_limit options) 0
        (query_visits (h_store h) options).
Proof.
  unfold queryObjectData, query_visits, mbind, Host_bind, get_store.
  destruct (query_source _ _) as [e|source]; simpl; [done|].
  intros Hres. apply query_cursor_resolved in Hres as ->.
  by rewrite Z.sub_0_r.
Qed.

(** Without an index the cursor visits every record of the substore. *)
Lemma query_visits_store s options :
  q_index options = None →
  length (query_visits s options) = length (os_rows s).
Proof.
  unfold query_visits. intros ->. simpl.
  destruct (default Next _); simpl; by rewrite ?length_reverse.
Qed.

(** C1 (amended). For every query with an offset [O >= 0] and a limit that is
    unset or not zero, the resolved list has length [max 0 (min L (M - O))] when
    the limit [L] is set and [max 0 (M - O)] otherwise, where [M] counts the
    records the cursor visits: all records of the substore when no index is
    named, the entries of the index otherwise. An offset beyond [M] gives the
    empty list, and on a host without I/O failure a query whose source exists
    resolves. *)
Theorem query_result_length h options :
  0 ≤ default 0 (q_offset options) →
  q_limit options ≠ Some 0 →
  let M := Z.of_nat (length (query_visits (h_store h) options)) in
  (∀ l, (queryObjectData options h).1 = Resolved l →
        Z.of_nat (length l) = query_length M options ∧
        (M < default 0 (q_offset options) → l = [])) ∧
  (q_index options = None → M = Z.of_nat (length (os_rows (h_store h)))) ∧
  (h_io h = [] →
   (∃ source, query_source (h_store h) (q_index options) = Returns source) →
   ∃ l, queryObjectData options h = (Resolved l, h)).
Proof.
  intros Hoff Hlim M. split_and!.
  - intros l Hres. apply queryObjectData_resolved in Hres.
    assert (Z.of_nat (length l) = query_length M options) as Hlen.
    { subst l. rewrite page_from_length. unfold query_length. fold M.
      destruct (q_limit options) as [L|]; [|lia].
      rewrite decide_False by congruence. lia. }
    split; [done|]. intros Hbeyond.
    apply length_zero_iff_nil. unfold query_length in Hlen.
    destruct (q_limit options); lia.
  - intros Hidx. unfold M. by rewrite query_visits_store.
  - intros Hio [source Hsrc].
    unfold queryObjectData, mbind, Host_bind, get_store. rewrite Hsrc.
    by apply query_cursor_quiet.
Qed.

Lemma query_result_length_witness :
  ∃ l, queryObjectData (mkQuery None None (Some 2) (Some 1)) (handle items_abc)
         = (Resolved l, handle items_abc) ∧
       Z.of_nat (length l) = 2.
Proof.
  destruct (query_result_length (handle items_abc)
              (mkQuery None None (Some 2) (Some 1))) as (Hlen & _ & Hres).
  - simpl. lia.
  - simpl. discriminate.
  - destruct Hres as [l Hl]; [reflexivity|by exists None|].
    exists l. split; [exact Hl|].
    destruct (Hlen l) as [Hn _]; [by rewrite Hl|]. exact Hn.
Defined.

(** The scenario of the specification: limit 2 and offset 1 over a, b, c. *)
Example query_scenario :
  queryObjectData (mkQuery None None (Some 2) (Some 1)) (handle items_abc) =
    (Resolved [stored_item 2 "b"; stored_item 3 "c"], handle items_abc).
Proof. reflexivity. Qed.

(** C1 as stated fails: a query through the index [age] visits only the
    users that have an age, and a negative offset skips nothing. *)
Lemma query_result_length_counterexample :
  (∃ l, (queryObjectData (mkQuery (Some "age") None None None)
           (handle users_two)).1 = Resolved l ∧
        Z.of_nat (length l) ≠
          query_length (Z.of_nat (length (os_rows users_two)))
            (mkQuery (Some "age") None None None)) ∧
  (∃ l, (queryObjectData (mkQuery None None None (Some (-1)))
           (handle items_abc)).1 = Resolved l ∧
        Z.of_nat (length l) ≠
          query_length (Z.of_nat (length (os_rows items_abc)))
            (mkQuery None None None (Some (-1)))).
Proof.
  split; eexists; (split; [vm_compute; reflexivity|vm_compute; discriminate]).
Qed.

(** The limit 0 is read as no limit at all. *)
Lemma query_cursor_limit_zero offset cursor :
  ∀ skipped counted results h,
    query_cursor offset (Some 0) cursor skipped counted results h =
    query_cursor offset None cursor skipped counted results h.
Proof.
  induction cursor as [|[pk value] rest IH]; intros; simpl; [done|].
  unfold mbind, Host_bind. destruct (cursor_event h) as [[e|[]] h']; [done|].
  case_bool_decide; [apply IH|]. simpl. apply IH.
Qed.

Lemma queryObjectData_limit_zero index direction offset h :
  queryObjectData (mkQuery index direction (Some 0) offset) h =
  queryObjectData (mkQuery index direction None offset) h.
Proof.
  unfold queryObjectData, mbind, Host_bind, get_store. simpl.
  destruct (query_source _ _); [done|]. apply query_cursor_limit_zero.
Qed.

(** C2 (fails on the code). With the limit 0 over the three items, the query
    collects every record instead of resolving with the empty list. *)
Theorem query_limit_zero_collects_all :
  queryObjectData (mkQuery None None (Some 0) None) (handle items_abc) =
    (Resolved [stored_item 1 "a"; stored_item 2 "b"; stored_item 3 "c"],
     handle items_abc).
Proof. rewrite queryObjectData_limit_zero. reflexivity. Qed.

(** ** Reading one record *)

(** C8. [get] resolves with the record stored under the key, and with
    [undefined] when there is none; it rejects only when the host fails the
    request, and then with the host's message. *)
Theorem get_absent_resolves_undefined h k :
  (getObjectData k h).1 =
    match next_failure h with
    | None => Resolved (rows_lookup k (os_rows (h_store h)))
    | Some d =>
        Rejected (LibError (IndexedDBError (message_or d "Failed to retrieve data")))
    end ∧
  (rows_lookup k (os_rows (h_store h)) = None → next_failure h = None →
   (getObjectData k h).1 = Resolved None ∧
   h_store (getObjectData k h).2 = h_store h) ∧
  (∀ e, (getObjectData k h).1 = Rejected e → is_Some (next_failure h)).
Proof.
  assert ((getObjectData k h).1 =
    match next_failure h with
    | None => Resolved (rows_lookup k (os_rows (h_store h)))
    | Some d =>
        Rejected (LibError (IndexedDBError (message_or d "Failed to retrieve data")))
    end ∧ (next_failure h = None →
           h_store (getObjectData k h).2 = h_store h)) as [Hout Hstore].
  { unfold getObjectData, next_failure, mbind, Host_bind, request.
    destruct (h_io h) as [|[d|] io]; simpl; done. }
  split_and!; [done| |].
  - intros Habs Hok. rewrite Hout, Hok, Habs. auto.
  - intros e. rewrite Hout. destruct (next_failure h); [eauto|done].
Qed.

Lemma get_absent_resolves_undefined_witness :
  (getObjectData (KNum 999) (handle items_abc)).1 = Resolved None ∧
  h_store (getObjectData (KNum 999) (handle items_abc)).2 = items_abc.
Proof.
  destruct (get_absent_resolves_undefined (handle items_abc) (KNum 999))
    as (_ & Habsent & _).
  apply Habsent; reflexivity.
Defined.

(** ** Rows *)

Lemma rows_lookup_cons k k' v' rest :
  rows_lookup k ((k', v') :: rest) =
    if decide (k' = k) then Some v' else rows_lookup k rest.
Proof.
  unfold rows_lookup. simpl. case_bool_decide; by case_decide.
Qed.

Lemma rows_lookup_None k rows : rows_lookup k rows = None ↔ k ∉ rows.*1.
Proof.
  induction rows as [|[k' v'] rest IH]; [split; [intros _; apply not_elem_of_nil|done]|].
  rewrite rows_lookup_cons, fmap_cons, not_elem_of_cons. simpl.
  case_decide as Hk.
  - split; [done|]. intros [Hne _]. congruence.
  - rewrite IH. split; [intros ?; split; [congruence|done]|by intros [_ ?]].
Qed.

Lemma rows_lookup_Some k v rows : rows_lookup k rows = Some v → (k, v) ∈ rows.
Proof.
  induction rows as [|[k' v'] rest IH]; [done|].
  rewrite rows_lookup_cons. case_decide; [intros [= ->]; subst; left|right; auto].
Qed.

Lemma rows_lookup_insert k v rows : rows_lookup k (rows_insert k v rows) = Some v.
Proof.
  induction rows as [|[k' v'] rest IH]; simpl.
  - rewrite rows_lookup_cons. by rewrite decide_True.
  - case_decide as Hlt; [by rewrite rows_lookup_cons, decide_True|].
    case_decide as Heq; [by rewrite rows_lookup_cons, decide_True|].
    rewrite rows_lookup_cons, decide_False by done. exact IH.
Qed.

Lemma rows_insert_absent k v rows :
  rows_lookup k rows = None → rows_insert k v rows ≡ₚ (k, v) :: rows.
Proof.
  induction rows as [|[k' v'] rest IH]; simpl; [done|].
  rewrite rows_lookup_cons. case_decide as Hk; [done|]. intros Habs.
  case_decide; [done|]. rewrite decide_False by done.
  rewrite IH by done. apply Permutation_swap.
Qed.

(** ** Insert *)

Lemma addObjectData_quiet h data :
  h_io h = [] →
  addObjectData data h =
    match extract_key (h_store h) data with
    | Throws e => (Rejected e, h)
    | Returns ok =>
        match store_add ok data (h_store h) with
        | inl d =>
            (Rejected (LibError (IndexedDBError
               (message_or d "Failed to add data to store"))),
             mkHost (h_store h) [] true)
        | inr (k, s') =>
            (Resolved (os_rows s').*2, mkHost s' [] (h_aborted h))
        end
    end.
Proof.
  intros Hio. unfold addObjectData, mbind, Host_bind, get_store.
  destruct (extract_key _ _) as [e|ok]; [done|].
  rewrite request_quiet by done.
  destruct (store_add _ _ _) as [d|[k s']]; [done|].
  by rewrite getAllObjectData_quiet.
Qed.

(** A record that carries a valid key at the key path is stored under it. *)
Lemma extract_key_inline s data p k :
  os_keyPath s = Some p → key_of_val (get_field data p) = Some k →
  extract_key s data = Returns (Some k) ∧
  ∃ gen, assign_key s data (Some k) = (k, data, gen).
Proof.
  intros Hp Hk. unfold extract_key, assign_key. rewrite Hp.
  destruct (get_field data p); simplify_eq/=; eauto.
Qed.

Lemma key_of_val_inv x k : key_of_val x = Some k → x = val_of_key k.
Proof. destruct x; simpl; intros [= <-]; done. Qed.

Lemma extract_key_Some s v k :
  extract_key s v = Returns (Some k) →
  ∃ p, os_keyPath s = Some p ∧ key_of_val (get_field v p) = Some k.
Proof.
  unfold extract_key. destruct (os_keyPath s) as [p|]; [|by case_match].
  intros H. exists p. split; [done|].
  destruct (get_field v p); simpl in *; try by case_match.
  all: congruence.
Qed.

Lemma extract_key_None s v :
  extract_key s v = Returns None →
  os_autoIncrement s = true ∧
  ∀ p, os_keyPath s = Some p → get_field v p = VUndefined.
Proof.
  unfold extract_key. destruct (os_keyPath s) as [p|].
  - destruct (get_field v p) eqn:Hf; simpl; try done.
    destruct (os_autoIncrement s); [|done]. intros _. split; [done|].
    by intros ? [= <-].
  - destruct (os_autoIncrement s); [|done]. by intros _.
Qed.

Lemma assign_key_keyed s v ok k v' gen p :
  extract_key s v = Returns ok → assign_key s v ok = (k, v', gen) →
  os_keyPath s = Some p → key_of_val (get_field v' p) = Some k.
Proof.
  intros Hex Has Hp. destruct ok as [k0|]; simpl in Has.
  - injection Has as <- <- _.
    apply extract_key_Some in Hex as (p' & Hp' & Hk). congruence.
  - rewrite Hp in Has. injection Has as <- <- _.
    unfold get_field. by rewrite lookup_insert_eq.
Qed.

Lemma assign_key_fields s data ok k v gen f :
  assign_key s data ok = (k, v, gen) → os_keyPath s ≠ Some f →
  get_field v f = get_field data f.
Proof.
  intros Has Hf. destruct ok as [k0|]; simpl in Has.
  - by injection Has as _ <- _.
  - injection Has as _ <- _. destruct (os_keyPath s) as [p|]; [|done].
    unfold get_field. rewrite lookup_insert_ne; [done|]. congruence.
Qed.

Lemma unique_violation_Some s k v idx :
  idx ∈ os_indices s → idx_unique idx = true →
  index_clash idx k v (os_rows s) = true →
  is_Some (unique_violation s k v).
Proof.
  intros Hin Hu Hclash. unfold unique_violation.
  destruct (find _ _) eqn:Hfind; [eauto|].
  eapply find_none in Hfind; [|by apply list_elem_of_In].
  simpl in Hfind. by rewrite Hu, Hclash in Hfind.
Qed.

Lemma message_or_key text :
  message_or ConstraintError_key text = dom_message ConstraintError_key.
Proof. unfold message_or, or_default. by rewrite decide_False. Qed.

Lemma message_or_keygen text :
  message_or ConstraintError_keygen text = dom_message ConstraintError_keygen.
Proof. unfold message_or, or_default. by rewrite decide_False. Qed.

Lemma message_or_index name text :
  message_or (ConstraintError_index name) text =
  dom_message (ConstraintError_index name).
Proof. unfold message_or, or_default. by rewrite decide_False. Qed.

(** The add request, case by case. *)
Lemma store_add_cases ok data s :
  store_add ok data s =
    if keygen_exhausted s ok then inl ConstraintError_keygen
    else if bool_decide (is_Some (rows_lookup (assign_key s data ok).1.1
                                    (os_rows s)))
    then inl ConstraintError_key
    else match unique_violation s (assign_key s data ok).1.1
                 (assign_key s data ok).1.2 with
         | Some idx => inl (ConstraintError_index (idx_name idx))
         | None =>
             inr ((assign_key s data ok).1.1,
                  set_rows s (assign_key s data ok).2
                    (rows_insert (assign_key s data ok).1.1
                       (assign_key s data ok).1.2 (os_rows s)))
         end.
Proof. unfold store_add. by destruct (assign_key s data ok) as [[??]?]. Qed.

Lemma unique_violation_found s k v idx :
  unique_violation s k v = Some idx →
  idx ∈ os_indices s ∧ idx_unique idx = true ∧
  index_clash idx k v (os_rows s) = true.
Proof.
  unfold unique_violation. intros Hfind.
  apply find_some in Hfind as [Hin Hb]. apply andb_prop in Hb as [??].
  by rewrite list_elem_of_In.
Qed.

(** C3. Let [k] be the primary key of the record and [v] the value to store:
    the record itself under the key it carries at the key path, or else the
    record with the generated key. On a host that does not fail, an insert
    whose key is already in the substore is refused for the host's
    ConstraintError of an existing key: the add request fails with it, the
    promise is rejected with the library's error that carries its message,
    and the substore is left as it was. An insert whose value clashes with
    another record in a unique index is refused in the same way, for that
    error or for the ConstraintError of a unique index of the substore that
    the value clashes in. (An insert that asks a key generator that is
    exhausted is refused for the generator's ConstraintError.) When the
    insert succeeds, the promise resolves with all records of the substore
    after the insertion: the former ones and the new one. *)
Theorem insert_rejects_or_resolves_all h data ok :
  h_io h = [] →
  extract_key (h_store h) data = Returns ok →
  let s := h_store h in
  let k := (assign_key s data ok).1.1 in
  let v := (assign_key s data ok).1.2 in
  (∀ p k0, os_keyPath s = Some p → key_of_val (get_field data p) = Some k0 →
           k = k0 ∧ v = data ∧ keygen_exhausted s ok = false) ∧
  (keygen_exhausted s ok = true →
   constraint_rejected ok data ConstraintError_keygen h) ∧
  (keygen_exhausted s ok = false →
   is_Some (rows_lookup k (os_rows s)) →
   constraint_rejected ok data ConstraintError_key h) ∧
  (keygen_exhausted s ok = false →
   ∀ idx, idx ∈ os_indices s → idx_unique idx = true →
          index_clash idx k v (os_rows s) = true →
          (is_Some (rows_lookup k (os_rows s)) ∧
           constraint_rejected ok data ConstraintError_key h) ∨
          ∃ idx', idx' ∈ os_indices s ∧ idx_unique idx' = true ∧
                  index_clash idx' k v (os_rows s) = true ∧
                  constraint_rejected ok data
                    (ConstraintError_index (idx_name idx')) h) ∧
  (keygen_exhausted s ok = false →
   rows_lookup k (os_rows s) = None → unique_violation s k v = None →
   ∃ h', addObjectData data h = (Resolved (os_rows (h_store h')).*2, h') ∧
         os_rows (h_store h') = rows_insert k v (os_rows s) ∧
         rows_lookup k (os_rows (h_store h')) = Some v ∧
         (os_rows (h_store h')).*2 ≡ₚ v :: (os_rows s).*2) ∧
  (∀ result h', addObjectData data h = (Resolved result, h') →
     result = (os_rows (h_store h')).*2 ∧
     os_rows (h_store h') = rows_insert k v (os_rows s) ∧
     length result = S (length (os_rows s)) ∧
     v ∈ result ∧ (∀ r, r ∈ (os_rows s).*2 → r ∈ result)).
Proof.
  intros Hio Hkey s k v.
  assert (addObjectData data h =
    match store_add ok data s with
    | inl d =>
        (Rejected (LibError (IndexedDBError
           (message_or d "Failed to add data to store"))),
         mkHost s [] true)
    | inr (k, s') => (Resolved (os_rows s').*2, mkHost s' [] (h_aborted h))
    end) as Hadd.
  { rewrite addObjectData_quiet by done. by rewrite Hkey. }
  assert (∀ d, store_add ok data s = inl d → dom_name d = "ConstraintError" →
               message_or d "Failed to add data to store" = dom_message d →
               constraint_rejected ok data d h) as Hrej.
  { intros d Hd Hname Hmsg. split; [done|]. rewrite Hio. simpl. split.
    - rewrite request_quiet by done. fold s. by rewrite Hd.
    - rewrite Hadd, Hd. by rewrite Hmsg. }
  pose proof (store_add_cases ok data s) as Hstore. fold k v in Hstore.
  assert (keygen_exhausted s ok = false →
    rows_lookup k (os_rows s) = None → unique_violation s k v = None →
    ∃ h', addObjectData data h = (Resolved (os_rows (h_store h')).*2, h') ∧
          os_rows (h_store h') = rows_insert k v (os_rows s) ∧
          rows_lookup k (os_rows (h_store h')) = Some v ∧
          (os_rows (h_store h')).*2 ≡ₚ v :: (os_rows s).*2) as Hok.
  { intros Hgen Habs Hnone. rewrite Hgen, Hnone in Hstore.
    rewrite bool_decide_eq_false_2 in Hstore by (rewrite Habs; by intros [??]).
    rewrite Hstore in Hadd.
    eexists (mkHost _ [] (h_aborted h)). split; [exact Hadd|].
    simpl. split_and!; [done|..].
    - apply rows_lookup_insert.
    - by rewrite rows_insert_absent. }
  split_and!; [| | | |done|].
  - intros p k0 Hp Hk0.
    destruct (extract_key_inline s data p k0 Hp Hk0) as [Hkey' [gen Hassign]].
    assert (ok = Some k0) as -> by (unfold s in Hkey'; congruence).
    unfold k, v. by rewrite Hassign.
  - intros Hgen. rewrite Hgen in Hstore.
    apply Hrej; [done|done|apply message_or_keygen].
  - intros Hgen Hdup. rewrite Hgen in Hstore.
    rewrite bool_decide_eq_true_2 in Hstore by done.
    apply Hrej; [done|done|apply message_or_key].
  - intros Hgen idx Hin Hu Hclash. rewrite Hgen in Hstore.
    case_bool_decide as Hdup.
    + left. split; [done|]. apply Hrej; [done|done|apply message_or_key].
    + right.
      destruct (unique_violation_Some s k v idx) as [idx' Hidx']; [done..|].
      rewrite Hidx' in Hstore.
      apply unique_violation_found in Hidx' as (Hin' & Hu' & Hclash').
      exists idx'. split_and!; [done..|].
      apply Hrej; [done|done|apply message_or_index].
  - intros result h' Hres. rewrite Hres in Hadd.
    destruct (keygen_exhausted s ok) eqn:Hgen;
      [by rewrite Hstore in Hadd|].
    rewrite Hstore in Hadd.
    case_bool_decide as Hdup; [done|].
    destruct (unique_violation s k v) eqn:Hviol; [done|].
    destruct Hok as (h'' & Hadd' & Hrows & _ & Hperm);
      [done|by apply eq_None_not_Some|done|].
    rewrite Hres in Hadd'. injection Hadd' as -> <-.
    split_and!; [done|done|..].
    + rewrite Hperm. simpl. by rewrite length_fmap.
    + rewrite Hperm. left.
    + intros r Hr. rewrite Hperm. by right.
Qed.

Lemma insert_rejects_or_resolves_all_witness :
  constraint_rejected (Some (KNum 1)) (user 1 "new@example.com" None)
    ConstraintError_key (handle users_two) ∧
  addObjectData (user 1 "new@example.com" None) (handle users_two) =
    (Rejected (LibError (IndexedDBError
       "Key already exists in the object store.")),
     mkHost users_two [] true) ∧
  ∃ h', addObjectData (user 3 "new@example.com" None) (handle users_two) =
          (Resolved (os_rows (h_store h')).*2, h') ∧
        rows_lookup (KNum 3) (os_rows (h_store h')) =
          Some (user 3 "new@example.com" None).
Proof.
  assert (constraint_rejected (Some (KNum 1)) (user 1 "new@example.com" None)
            ConstraintError_key (handle users_two)) as Hrej.
  { destruct (insert_rejects_or_resolves_all (handle users_two)
                (user 1 "new@example.com" None) (Some (KNum 1)))
      as (_ & _ & Hdup & _); [reflexivity|reflexivity|].
    apply Hdup; [reflexivity|]. vm_compute. eexists. reflexivity. }
  split; [exact Hrej|]. split; [exact (proj2 (proj2 Hrej))|].
  destruct (insert_rejects_or_resolves_all (handle users_two)
              (user 3 "new@example.com" None) (Some (KNum 3)))
    as (_ & _ & _ & _ & Hok & _); [reflexivity|reflexivity|].
  destruct Hok as (h' & Hadd & _ & Hget & _);
    [reflexivity|reflexivity|reflexivity|].
  exists h'. split; [exact Hadd|exact Hget].
Defined.

(** A second user with the e-mail address of the first is refused by the
    unique index. *)
Example insert_unique_index_clash :
  (addObjectData (user 3 "john@example.com" None) (handle users_two)).1 =
    Rejected (LibError (IndexedDBError
      (dom_message (ConstraintError_index "email")))).
Proof. reflexivity. Qed.

(** ** The key order and the invariant of a store *)

Global Instance key_le_po : PartialOrder key_le.
Proof.
  split; [split|].
  - intros [x|s]; simpl; [lia|done].
  - intros [x|s] [y|t] [z|u]; simpl; try done; [lia|]. by etrans.
  - intros [x|s] [y|t]; simpl; try done.
    + intros. f_equal. lia.
    + intros. f_equal. by apply (anti_symm String.le).
Qed.

Global Instance key_le_total : Total key_le.
Proof.
  intros [x|s] [y|t]; simpl; auto; [lia|]. apply (total String.le).
Qed.

Lemma key_lt_irrefl k : ¬ key_lt k k.
Proof. apply (irreflexivity (strict key_le)). Qed.

Lemma key_lt_trans a b c : key_lt a b → key_lt b c → key_lt a c.
Proof. apply (transitivity (R:=strict key_le)). Qed.

(** Two keys are equal or one is below the other. *)
Lemma key_trichotomy a b : key_lt a b ∨ a = b ∨ key_lt b a.
Proof.
  destruct (decide (a = b)) as [->|Hne]; [auto|].
  destruct (total key_le a b) as [Hle|Hle].
  - left. by apply strict_spec_alt.
  - right; right. by apply strict_spec_alt.
Qed.

Lemma sorted_keys_NoDup (keys : list key) : StronglySorted key_lt keys → NoDup keys.
Proof.
  induction 1 as [|k keys _ IH Hall]; constructor; [|done].
  intros Hin. rewrite Forall_forall in Hall.
  by apply (key_lt_irrefl k), Hall.
Qed.

Lemma rows_insert_keys k v rows k' :
  k' ∈ (rows_insert k v rows).*1 ↔ k' = k ∨ k' ∈ rows.*1.
Proof.
  induction rows as [|[k0 v0] rest IH]; simpl.
  - rewrite list_elem_of_singleton, elem_of_nil. tauto.
  - repeat case_decide; simpl; rewrite ?elem_of_cons, ?IH; simpl;
      subst; tauto.
Qed.

Lemma rows_insert_sorted k v rows :
  StronglySorted key_lt rows.*1 → StronglySorted key_lt (rows_insert k v rows).*1.
Proof.
  induction rows as [|[k0 v0] rest IH]; simpl; intros Hs.
  - repeat constructor.
  - apply StronglySorted_inv in Hs as [Hrest Hall]. rewrite Forall_forall in Hall.
    case_decide as Hlt; [|case_decide as Heq].
    + simpl. constructor; [by constructor; [|apply Forall_forall]|].
      constructor; [done|]. apply Forall_forall. intros k' Hk'.
      by eapply key_lt_trans, Hall.
    + subst. simpl. constructor; [done|by apply Forall_forall].
    + simpl. constructor; [by apply IH|]. apply Forall_forall. intros k' Hk'.
      apply rows_insert_keys in Hk' as [->|Hk']; [|by apply Hall].
      destruct (key_trichotomy k k0) as [?|[?|?]]; done.
Qed.

Lemma rows_delete_keys k rows : (rows_delete k rows).*1 = filter (λ k', k' ≠ k) rows.*1.
Proof.
  unfold rows_delete. induction rows as [|[k0 v0] rest IH]; [done|].
  simpl. rewrite !filter_cons. simpl. case_decide; simpl; [f_equal|]; exact IH.
Qed.

Lemma filter_all {A} (P : A → Prop) `{∀ x, Decision (P x)} (l : list A) :
  Forall P l → filter P l = l.
Proof.
  induction 1 as [|x l Hx _ IH]; [done|].
  by rewrite filter_cons, decide_True, IH.
Qed.

Lemma sorted_filter (P : key → Prop) `{∀ x, Decision (P x)} (keys : list key) :
  StronglySorted key_lt keys → StronglySorted key_lt (filter P keys).
Proof.
  induction 1 as [|k keys _ IH Hall]; [constructor|].
  rewrite filter_cons. case_decide; [|done].
  constructor; [done|]. rewrite Forall_forall in Hall. apply Forall_forall.
  intros k' Hk'. apply list_elem_of_filter in Hk' as [_ Hk']. by apply Hall.
Qed.

Lemma rows_delete_sorted k rows :
  StronglySorted key_lt rows.*1 → StronglySorted key_lt (rows_delete k rows).*1.
Proof. rewrite rows_delete_keys. apply sorted_filter. Qed.

Lemma rows_lookup_delete k rows : rows_lookup k (rows_delete k rows) = None.
Proof.
  apply rows_lookup_None. rewrite rows_delete_keys, list_elem_of_filter. tauto.
Qed.

(** In a store without repeated keys, deleting a key that is present removes
    one row, the one found under the key. *)
Lemma rows_delete_present k v rows :
  NoDup rows.*1 → rows_lookup k rows = Some v →
  rows ≡ₚ (k, v) :: rows_delete k rows.
Proof.
  unfold rows_delete. induction rows as [|[k0 v0] rest IH]; [done|].
  rewrite fmap_cons, NoDup_cons, rows_lookup_cons, filter_cons. simpl.
  intros [Hnotin Hnd]. case_decide as Hk.
  - intros [= ->]. subst k0. rewrite decide_False by tauto.
    rewrite filter_all; [done|].
    apply Forall_forall. intros [k1 v1] Hin. simpl. intros ->.
    apply Hnotin. apply list_elem_of_fmap. by exists (k, v1).
  - intros Hlook. rewrite decide_True by done.
    rewrite (IH Hnd Hlook) at 1. apply Permutation_swap.
Qed.

(** The invariant holds in a new store and is kept by every request. *)
Lemma store_wf_new name config : store_wf (createObjectStore name config).
Proof. constructor. Qed.

Lemma store_wf_set_rows s gen rows :
  StronglySorted key_lt rows.*1 → store_wf (set_rows s gen rows).
Proof. done. Qed.

Lemma store_add_wf ok v s k s' :
  store_wf s → store_add ok v s = inr (k, s') → store_wf s'.
Proof.
  unfold store_add. destruct (keygen_exhausted _ _) eqn:Hexh; [done|].
  destruct (assign_key s v ok) as [[k0 v0] gen].
  case_bool_decide; [done|]. destruct (unique_violation _ _ _); [done|].
  intros Hwf [= <- <-]. by apply store_wf_set_rows, rows_insert_sorted.
Qed.

Lemma store_put_wf ok v s k s' :
  store_wf s → store_put ok v s = inr (k, s') → store_wf s'.
Proof.
  unfold store_put. destruct (keygen_exhausted _ _) eqn:Hexh; [done|].
  destruct (assign_key s v ok) as [[k0 v0] gen].
  destruct (unique_violation _ _ _); [done|].
  intros Hwf [= <- <-]. by apply store_wf_set_rows, rows_insert_sorted.
Qed.

Lemma store_update_wf pk v s k s' :
  store_wf s → store_update pk v s = inr (k, s') → store_wf s'.
Proof.
  unfold store_update. destruct (unique_violation _ _ _); [done|].
  intros Hwf [= <- <-]. by apply store_wf_set_rows, rows_insert_sorted.
Qed.

Lemma store_delete_wf k s u s' :
  store_wf s → store_delete k s = inr (u, s') → store_wf s'.
Proof. intros Hwf [= <- <-]. by apply store_wf_set_rows, rows_delete_sorted. Qed.

Lemma store_clear_wf s u s' : store_clear s = inr (u, s') → store_wf s'.
Proof. intros [= <- <-]. constructor. Qed.

(** ** Delete and return *)

(** C4. On a key that is absent, [deleteObjectData] rejects with the
    not-found error and the store handle is as before: no delete request is
    placed. On a key that is present it deletes the record and resolves with
    the deleted record and the records that remain, one fewer than before. *)
Theorem delete_absent_or_present h k :
  h_io h = [] →
  store_wf (h_store h) →
  let s := h_store h in
  (rows_lookup k (os_rows s) = None →
   deleteObjectData k h = (Rejected (delete_not_found k s), h)) ∧
  (∀ v, rows_lookup k (os_rows s) = Some v →
     ∃ h', deleteObjectData k h = (Resolved (Some v, (os_rows (h_store h')).*2), h') ∧
           os_rows (h_store h') = rows_delete k (os_rows s) ∧
           rows_lookup k (os_rows (h_store h')) = None ∧
           os_rows s ≡ₚ (k, v) :: os_rows (h_store h') ∧
           length (os_rows (h_store h')).*2 = (length (os_rows s) - 1)%nat).
Proof.
  intros Hio Hwf s.
  assert (getObjectData k h = (Resolved (rows_lookup k (os_rows s)), h)) as Hget.
  { unfold getObjectData, mbind, Host_bind. rewrite request_quiet by done.
    simpl. unfold mret, Host_ret. rewrite <- Hio. by rewrite host_eta. }
  split.
  - intros Habs. unfold deleteObjectData, mbind, Host_bind.
    by rewrite Hget, Habs.
  - intros v Hv. unfold deleteObjectData, mbind, Host_bind.
    rewrite Hget, Hv. rewrite request_quiet by done. simpl.
    exists (mkHost (set_rows s (os_keygen s) (rows_delete k (os_rows s))) []
              (h_aborted h)).
    split; [reflexivity|]. simpl.
    assert (os_rows s ≡ₚ (k, v) :: rows_delete k (os_rows s)) as Hperm.
    { apply rows_delete_present; [|done]. by apply sorted_keys_NoDup. }
    split_and!; [done|apply rows_lookup_delete|done|].
    rewrite length_fmap. rewrite Hperm at 2. simpl. lia.
Qed.

Lemma delete_absent_or_present_witness :
  deleteObjectData (KNum 999) (handle items_abc) =
    (Rejected (delete_not_found (KNum 999) items_abc), handle items_abc) ∧
  ∃ h', deleteObjectData (KNum 2) (handle items_abc) =
          (Resolved (Some (stored_item 2 "b"), (os_rows (h_store h')).*2), h') ∧
        length (os_rows (h_store h')).*2 = 2%nat.
Proof.
  assert (store_wf items_abc) as Hwf
    by (apply (bool_decide_unpack _); vm_compute; exact I).
  destruct (delete_absent_or_present (handle items_abc) (KNum 999) eq_refl Hwf)
    as [Habsent _].
  destruct (delete_absent_or_present (handle items_abc) (KNum 2) eq_refl Hwf)
    as [_ Hpresent].
  split; [by apply Habsent|].
  destruct (Hpresent (stored_item 2 "b")) as (h' & Hdel & _ & _ & _ & Hlen);
    [reflexivity|].
  exists h'. split; [exact Hdel|exact Hlen].
Defined.

(** ** Bulk insert *)

Lemma extract_key_config s s' data :
  same_config s s' → extract_key s data = extract_key s' data.
Proof. intros [Hp Ha]. unfold extract_key. by rewrite Hp, Ha. Qed.

Lemma store_add_config ok data s k s' :
  store_add ok data s = inr (k, s') → same_config s s'.
Proof.
  unfold store_add. destruct (keygen_exhausted _ _) eqn:Hexh; [done|].
  destruct (assign_key s data ok) as [[k0 v0] gen].
  case_bool_decide; [done|]. destruct (unique_violation _ _ _); [done|].
  by intros [= <- <-].
Qed.

Lemma same_config_trans s1 s2 s3 :
  same_config s1 s2 → same_config s2 s3 → same_config s1 s3.
Proof. intros [??] [??]. split; congruence. Qed.

Lemma array_set_end {A} (a : list (option A)) (x : A) :
  array_set a (length a) x = a ++ [Some x].
Proof.
  unfold array_set. rewrite decide_False by lia.
  by rewrite Nat.sub_diag.
Qed.

(** When no call of [store.add] throws, the handlers of the placed requests
    settle the promise as the inserts made one by one do. *)
Lemma run_adds_insert_each dataArray :
  ∀ s0 placed index results h total,
    place_adds s0 dataArray = (placed, None) →
    h_io h = [] → same_config s0 (h_store h) →
    length results = index →
    total = (index + length dataArray)%nat →
    dataArray ≠ [] →
    match insert_each (h_store h) dataArray index with
    | inr (keys, s') =>
        run_adds total placed index index results h =
          (Resolved (results ++ (Some <$> keys)), mkHost s' [] (h_aborted h))
    | inl (i, d) =>
        (run_adds total placed index index results h).1 =
          Rejected (bulk_add_failed i d)
    end.
Proof.
  induction dataArray as [|data rest IH];
    intros s0 placed index results h total Hplace Hio Hcfg Hlen Htotal Hne;
    [done|].
  simpl in Hplace. simpl insert_each.
  rewrite <- (extract_key_config s0) by done.
  destruct (extract_key s0 data) as [e|ok]; [done|].
  destruct (place_adds s0 rest) as [placed' thrown] eqn:Hrest.
  injection Hplace as <- ->. simpl run_adds. unfold mbind, Host_bind.
  rewrite request_quiet by done.
  destruct (store_add ok data (h_store h)) as [d|[k s']] eqn:Hadd; [done|].
  rewrite <- Hlen, array_set_end, Hlen.
  destruct rest as [|data' rest'].
  - injection Hrest as <-. simpl.
    rewrite decide_True by (simpl in Htotal; lia). done.
  - rewrite decide_False by (simpl in Htotal; lia).
    specialize (IH s0 placed' (S index) (results ++ [Some k])
                  (mkHost s' [] (h_aborted h)) total Hrest eq_refl).
    simpl h_store in IH. simpl h_aborted in IH.
    destruct (insert_each s' (data' :: rest') (S index)) as [[i d]|[keys s'']].
    + apply IH; [|rewrite length_app; simpl; lia|simpl in *; lia|done].
      eapply same_config_trans, store_add_config; done.
    + rewrite IH; [by rewrite <- app_assoc| |rewrite length_app; simpl; lia
                  |simpl in *; lia|done].
      eapply same_config_trans, store_add_config; done.
Qed.

Lemma place_adds_throws dataArray :
  ∀ s0 s index e,
    (place_adds s0 dataArray).2 = Some e → same_config s0 s →
    ∃ failure, insert_each s dataArray index = inl failure.
Proof.
  induction dataArray as [|data rest IH]; intros s0 s index e; [done|].
  simpl. intros Hthrown Hcfg. rewrite <- (extract_key_config s0) by done.
  destruct (extract_key s0 data) as [?|ok]; [eauto|].
  destruct (place_adds s0 rest) as [placed thrown] eqn:Hrest.
  simpl in Hthrown. subst thrown.
  destruct (store_add ok data s) as [d|[k s']] eqn:Hadd; [eauto|].
  destruct (IH s0 s' (S index) e) as [failure ->]; [by rewrite Hrest| |eauto].
  eapply same_config_trans, store_add_config; done.
Qed.

Lemma insert_each_length dataArray :
  ∀ s index keys s',
    insert_each s dataArray index = inr (keys, s') →
    length keys = length dataArray.
Proof.
  induction dataArray as [|data rest IH]; intros s index keys s'; simpl.
  - by intros [= <- <-].
  - destruct (extract_key s data) as [?|ok]; [done|].
    destruct (store_add ok data s) as [d|[k s1]]; [done|].
    destruct (insert_each s1 rest (S index)) as [?|[keys' s2]] eqn:Hrest; [done|].
    intros [= <- <-]. simpl. f_equal. by eapply IH.
Qed.

(** C7. [bulkAddObjectData] places one insert per record on the store handle
    it is given. When each insert succeeds, it resolves with the assigned keys
    in the order of the input. When an insert fails, it rejects: with the
    error of the first failing request if every call of [store.add] returned,
    and with what [store.add] threw otherwise. *)
Theorem bulk_insert_keys_in_order_or_first_failure h dataArray :
  h_io h = [] →
  match insert_each (h_store h) dataArray 0 with
  | inr (keys, s') =>
      bulkAddObjectData dataArray h =
        (Resolved (Some <$> keys), mkHost s' [] (h_aborted h)) ∧
      length keys = length dataArray
  | inl (i, d) =>
      ∃ e, (bulkAddObjectData dataArray h).1 = Rejected e ∧
           match (place_adds (h_store h) dataArray).2 with
           | None => e = bulk_add_failed i d
           | Some thrown => e = thrown
           end
  end.
Proof.
  intros Hio. destruct dataArray as [|data rest].
  { simpl. by rewrite <- Hio, host_eta. }
  pose proof (run_adds_insert_each (data :: rest) (h_store h)) as Hrun.
  pose proof (place_adds_throws (data :: rest) (h_store h) (h_store h) 0) as Hthrow.
  pose proof (insert_each_length (data :: rest) (h_store h) 0) as Hlen.
  unfold bulkAddObjectData, mbind, Host_bind, get_store.
  destruct (place_adds (h_store h) (data :: rest)) as [placed thrown].
  specialize (Hrun placed 0%nat [] h (length (data :: rest))).
  destruct thrown as [e|].
  - destruct (Hthrow e) as [failure Hfail]; [done..|].
    rewrite Hfail. destruct failure as [i d]. exists e.
    by destruct (run_adds _ _ _ _ _ _).
  - specialize (Hrun eq_refl Hio (conj eq_refl eq_refl) eq_refl eq_refl).
    destruct (insert_each (h_store h) (data :: rest) 0) as [[i d]|[keys s']].
    + exists (bulk_add_failed i d).
      destruct (run_adds _ _ _ _ _ _) as [p h'].
      simpl in *. split; [|done]. by apply Hrun.
    + rewrite Hrun by done. split; [done|]. by eapply Hlen.
Qed.

Lemma bulk_insert_keys_in_order_or_first_failure_witness :
  bulkAddObjectData [item "a"; item "b"; item "c"] (handle items_empty) =
    (Resolved [Some (KNum 1); Some (KNum 2); Some (KNum 3)], handle items_abc) ∧
  ∃ e, (bulkAddObjectData [stored_item 2 "b"; stored_item 2 "again"]
          (handle items_empty)).1 = Rejected e ∧
       e = bulk_add_failed 1 ConstraintError_key.
Proof.
  split.
  - exact (proj1 (bulk_insert_keys_in_order_or_first_failure (handle items_empty)
                    [item "a"; item "b"; item "c"] eq_refl)).
  - exact (bulk_insert_keys_in_order_or_first_failure (handle items_empty)
             [stored_item 2 "b"; stored_item 2 "again"] eq_refl).
Defined.

(** ** Find and replace *)

Lemma find_values (f : record → bool) (rows : list (key * record)) :
  find f rows.*2 = snd <$> find (λ kv, f kv.2) rows.
Proof.
  induction rows as [|[k v] rest IH]; [done|]. simpl.
  by destruct (f v).
Qed.

(** The cursor pass of [updateObjectData] over the rows [cursor]. *)
Lemma update_cursor_quiet keyPath k newData cursor :
  ∀ h, h_io h = [] →
    update_cursor keyPath k newData cursor h =
      match first_match keyPath k cursor with
      | None => (Rejected (update_not_located keyPath k), h)
      | Some (pk, _) =>
          match cursor_update_check (h_store h) pk newData with
          | Throws _ => (Pending, mkHost (h_store h) [] true)
          | Returns _ =>
              match store_update pk newData (h_store h) with
              | inl d =>
                  (Rejected (LibError (IndexedDBError
                     (message_or d "Update operation failed"))),
                   mkHost (h_store h) [] true)
              | inr (_, s') =>
                  (Resolved (os_rows s').*2, mkHost s' [] (h_aborted h))
              end
          end
      end.
Proof.
  induction cursor as [|[pk value] rest IH]; intros h Hio; simpl;
    unfold mbind, Host_bind; rewrite cursor_event_quiet by done; [done|].
  fold (field_matches keyPath k value).
  destruct (field_matches keyPath k value); [|by apply IH].
  unfold get_store.
  destruct (cursor_update_check _ _ _) as [e|[]].
  - unfold handler_throws, mret, Host_ret. by rewrite Hio.
  - rewrite request_quiet by done.
    destruct (store_update _ _ _) as [d|[k' s']]; [done|].
    by rewrite getAllObjectData_quiet.
Qed.

(** In rows that ascend in the key, the first match has the least key of all
    matches. *)
Lemma first_match_least keyPath k rows pk old :
  StronglySorted key_lt rows.*1 →
  first_match keyPath k rows = Some (pk, old) →
  (pk, old) ∈ rows ∧ field_matches keyPath k old = true ∧
  ∀ pk' v', (pk', v') ∈ rows → field_matches keyPath k v' = true → key_le pk pk'.
Proof.
  unfold first_match.
  induction rows as [|[k0 v0] rest IH]; [done|]. simpl.
  intros [Hrest Hall]%StronglySorted_inv. rewrite Forall_forall in Hall.
  destruct (field_matches keyPath k v0) eqn:Hm.
  - intros [= -> ->]. split_and!; [left|done|].
    intros pk' v' [[= -> ->]|Hin]%elem_of_cons _; [done|].
    apply strict_include, Hall, list_elem_of_fmap. by exists (pk', v').
  - intros Hfind. destruct (IH Hrest Hfind) as (Hin & Hold & Hleast).
    split_and!; [by right|done|].
    intros pk' v' [[= -> ->]|Hin']%elem_of_cons Hm'; [congruence|eauto].
Qed.

Lemma rows_lookup_insert_ne k k' v rows :
  k' ≠ k → rows_lookup k' (rows_insert k v rows) = rows_lookup k' rows.
Proof.
  intros Hne. induction rows as [|[k0 v0] rest IH]; simpl.
  - by rewrite rows_lookup_cons, decide_False.
  - case_decide; [by rewrite rows_lookup_cons, decide_False|].
    case_decide as Heq.
    + subst k0. by rewrite !rows_lookup_cons, !decide_False.
    + rewrite !rows_lookup_cons. by rewrite IH.
Qed.

(** Storing under a key that is present replaces the row in place. *)
Lemma rows_insert_present k v rows :
  StronglySorted key_lt rows.*1 → k ∈ rows.*1 →
  length (rows_insert k v rows) = length rows.
Proof.
  induction rows as [|[k0 v0] rest IH]; simpl; [by intros _ ?%elem_of_nil|].
  intros [Hrest Hall]%StronglySorted_inv [->|Hin]%elem_of_cons.
  - rewrite decide_False by apply key_lt_irrefl. by rewrite decide_True.
  - rewrite Forall_forall in Hall.
    rewrite decide_False.
    2:{ intros Hlt. apply (key_lt_irrefl k).
        eapply key_lt_trans; [done|by apply Hall]. }
    case_decide; [done|]. simpl. f_equal. by apply IH.
Qed.

Lemma updateObjectData_between_quiet between keyPath k newData h :
  h_io h = [] →
  updateObjectData_between between keyPath k newData h =
    match first_match keyPath k (os_rows (h_store h)) with
    | None => (Rejected (update_not_found (h_store h) keyPath k), h)
    | Some _ =>
        update_cursor keyPath k newData (os_rows (h_store (between h).2))
          (between h).2
    end.
Proof.
  intros Hio. unfold updateObjectData_between, mbind, Host_bind.
  rewrite getAllObjectData_quiet by done.
  fold (field_matches keyPath k). rewrite find_values. unfold first_match.
  destruct (find _ (os_rows (h_store h))) as [[pk old]|]; simpl; [|done].
  by destruct (between h) as [[] h1].
Qed.

(** C6 (amended). [updateObjectData] locates the first record, in ascending
    order of the primary key, whose field equals the value, and replaces its
    stored value with the new record, provided the host accepts the update:
    with in-line keys the new record must carry the primary key of the
    located record, and no unique index may be violated. When no record has
    the value it rejects with the not-found error of the first pass. When the
    first pass finds a record and the cursor, after requests that came in
    between, finds none, it rejects with the error of the cursor pass. *)
Theorem find_and_replace_first_match h keyPath k newData :
  h_io h = [] →
  store_wf (h_store h) →
  let s := h_store h in
  (first_match keyPath k (os_rows s) = None →
   ∀ between,
     updateObjectData_between between keyPath k newData h =
       (Rejected (update_not_found s keyPath k), h)) ∧
  (∀ pk old, first_match keyPath k (os_rows s) = Some (pk, old) →
     ((pk, old) ∈ os_rows s ∧ field_matches keyPath k old = true ∧
      ∀ pk' v', (pk', v') ∈ os_rows s → field_matches keyPath k v' = true →
                key_le pk pk') ∧
     (cursor_update_check s pk newData = Returns () →
      unique_violation s pk newData = None →
      ∃ h', updateObjectData keyPath k newData h =
              (Resolved (os_rows (h_store h')).*2, h') ∧
            os_rows (h_store h') = rows_insert pk newData (os_rows s) ∧
            rows_lookup pk (os_rows (h_store h')) = Some newData ∧
            (∀ k', k' ≠ pk →
               rows_lookup k' (os_rows (h_store h')) = rows_lookup k' (os_rows s)) ∧
            length (os_rows (h_store h')) = length (os_rows s)) ∧
     (∀ between h1,
        between h = ((), h1) → h_io h1 = [] →
        first_match keyPath k (os_rows (h_store h1)) = None →
        updateObjectData_between between keyPath k newData h =
          (Rejected (update_not_located keyPath k), h1))).
Proof.
  intros Hio Hwf s. subst s. split.
  - intros Hnone between.
    rewrite updateObjectData_between_quiet by done. by rewrite Hnone.
  - intros pk old Hfirst.
    destruct (first_match_least keyPath k _ pk old Hwf Hfirst)
      as (Hin & Hm & Hleast).
    split_and!; [done..| |].
    + intros Hcheck Hviol. unfold updateObjectData.
      rewrite updateObjectData_between_quiet by done. rewrite Hfirst.
      unfold mret, Host_ret. simpl.
      rewrite update_cursor_quiet by done. rewrite Hfirst, Hcheck.
      unfold store_update. rewrite Hviol.
      exists (mkHost (set_rows (h_store h) (os_keygen (h_store h))
                        (rows_insert pk newData (os_rows (h_store h)))) []
                (h_aborted h)).
      simpl. split_and!; [done|done|apply rows_lookup_insert|..].
      * intros k' Hne. by apply rows_lookup_insert_ne.
      * apply rows_insert_present; [done|].
        apply list_elem_of_fmap. by exists (pk, old).
    + intros between h1 Hbetween Hio1 Hlost.
      rewrite updateObjectData_between_quiet by done.
      rewrite Hfirst, Hbetween. simpl.
      rewrite update_cursor_quiet by done. by rewrite Hlost.
Qed.

Lemma find_and_replace_first_match_witness :
  (∃ h', updateObjectData "name" (KStr "b") (item "q") (handle notes_abc) =
           (Resolved (os_rows (h_store h')).*2, h') ∧
         rows_lookup (KNum 2) (os_rows (h_store h')) = Some (item "q") ∧
         rows_lookup (KNum 3) (os_rows (h_store h')) = Some (item "b")) ∧
  updateObjectData "name" (KStr "missing") (item "q") (handle notes_abc) =
    (Rejected (update_not_found notes_abc "name" (KStr "missing")),
     handle notes_abc) ∧
  (updateObjectData_between (other_delete (KNum 1)) "name" (KStr "a") (item "q")
     (handle notes_abc)).1 = Rejected (update_not_located "name" (KStr "a")).
Proof.
  assert (store_wf notes_abc) as Hwf
    by (apply (bool_decide_unpack _); vm_compute; exact I).
  split_and!.
  - destruct (find_and_replace_first_match (handle notes_abc) "name" (KStr "b")
                (item "q") eq_refl Hwf) as [_ Hfound].
    destruct (Hfound (KNum 2) (item "b")) as (_ & Hreplace & _); [reflexivity|].
    destruct Hreplace as (h' & Hupd & _ & Hnew & Hother & _);
      [reflexivity|reflexivity|].
    exists h'. split_and!; [exact Hupd|exact Hnew|].
    rewrite Hother; [reflexivity|discriminate].
  - destruct (find_and_replace_first_match (handle notes_abc) "name"
                (KStr "missing") (item "q") eq_refl Hwf) as [Hnone _].
    apply Hnone. reflexivity.
  - destruct (find_and_replace_first_match (handle notes_abc) "name" (KStr "a")
                (item "q") eq_refl Hwf) as [_ Hfound].
    destruct (Hfound (KNum 1) (item "a")) as (_ & _ & Hlost); [reflexivity|].
    erewrite Hlost; reflexivity.
Defined.

(** C6 as stated fails: with in-line keys a new record without the key of the
    located record is refused by [cursor.update]; the record stays as it was
    and the promise is never settled. *)
Lemma find_and_replace_counterexample :
  first_match "name" (KStr "b") (os_rows items_abc) =
    Some (KNum 2, stored_item 2 "b") ∧
  updateObjectData "name" (KStr "b") (item "q") (handle items_abc) =
    (Pending, mkHost items_abc [] true) ∧
  rows_lookup (KNum 2) (os_rows items_abc) ≠ Some (item "q").
Proof. split_and!; [reflexivity|reflexivity|vm_compute; discriminate]. Qed.

(** ** The transaction handler *)

Lemma find_store_name name d s : find_store name d = Some s → os_name s = name.
Proof.
  unfold find_store. intros Hfind. apply find_some in Hfind as [_ Hname].
  by apply bool_decide_eq_true in Hname.
Qed.

(** A handler that [transaction] returns is live, has the requested scope,
    and every store of its scope exists. *)
Lemma transaction_returns dbObject stores mode w h :
  transaction dbObject stores mode w = Returns h →
  tx_finished (tx h) = false ∧ tx_scope (tx h) = scope_of stores ∧
  tx_db (tx h) = conn_name dbObject ∧
  ∀ name, name ∈ scope_of stores →
          is_Some (w_dbs w !! conn_name dbObject ≫= find_store name).
Proof.
  unfold transaction, db_transaction.
  destruct (w_dbs w !! conn_name dbObject) as [d|]; [|done].
  destruct (scope_of stores) as [|n scope] eqn:Hscope; [done|].
  destruct (forallb _ _) eqn:Hall; [|done].
  intros [= <-]. simpl. split_and!; [done..|].
  intros name Hin. rewrite forallb_forall in Hall.
  apply list_elem_of_In, Hall in Hin.
  by apply bool_decide_eq_true in Hin.
Qed.

(** C9 (amended). [getStore] rejects with the store-not-found error for every
    name outside the scope of the transaction and for every name the database
    does not have; for a name within the scope of a transaction that has not
    finished it resolves with the handle of the store of that name. On a
    transaction that has finished it rejects with the same error for every
    name. *)
Theorem getStore_scope h name w :
  (name ∉ tx_scope (tx h) ∨ (w_dbs w !! tx_db (tx h) ≫= find_store name) = None →
   getStore h name w = (Rejected (LibError (StoreNotFoundError name)), w)) ∧
  (tx_finished (tx h) = false → name ∈ tx_scope (tx h) →
   ∀ s, (w_dbs w !! tx_db (tx h) ≫= find_store name) = Some s →
        getStore h name w = (Resolved s, w) ∧ os_name s = name) ∧
  (tx_finished (tx h) = true →
   getStore h name w = (Rejected (LibError (StoreNotFoundError name)), w)).
Proof.
  unfold getStore, tx_objectStore. split_and!.
  - intros Hout. destruct (tx_finished (tx h)); [done|].
    case_bool_decide as Hin; [|done].
    destruct Hout as [?|Hnone]; [done|by rewrite Hnone].
  - intros -> Hin s Hs. rewrite bool_decide_eq_true_2 by done. rewrite Hs.
    split; [done|].
    destruct (w_dbs w !! tx_db (tx h)) as [d|]; [|done].
    by eapply find_store_name.
  - by intros ->.
Qed.

Lemma getStore_scope_witness :
  transaction app_conn (inr ["users"; "items"]) readwrite app_world =
    Returns app_tx ∧
  getStore app_tx "users" app_world = (Resolved users_two, app_world) ∧
  getStore app_tx "posts" app_world =
    (Rejected (LibError (StoreNotFoundError "posts")), app_world).
Proof.
  split_and!; [reflexivity| |].
  - destruct (getStore_scope app_tx "users" app_world) as (_ & Hin & _).
    apply Hin; [reflexivity| |reflexivity].
    apply (bool_decide_unpack _). vm_compute. exact I.
  - destruct (getStore_scope app_tx "posts" app_world) as (Hout & _).
    apply Hout. left. apply (bool_decide_unpack _). vm_compute. exact I.
Defined.

(** C9 as stated fails: after [abort()] the handler rejects with the
    store-not-found error for a store of its scope. *)
Lemma getStore_counterexample :
  abort app_tx app_world = (Returns app_tx_aborted, app_world) ∧
  "users" ∈ tx_scope (tx app_tx_aborted) ∧
  objectStoreNames_contains app_db "users" = true ∧
  getStore app_tx_aborted "users" app_world =
    (Rejected (LibError (StoreNotFoundError "users")), app_world).
Proof.
  split_and!; [reflexivity| |reflexivity..].
  apply (bool_decide_unpack _). vm_compute. exact I.
Qed.

(** ** The class [IndexedDBUtil] *)

Lemma close_db this : db (Util.close this) = None.
Proof. unfold Util.close. by destruct (db this) eqn:Hdb. Qed.

Lemma close_idempotent this : Util.close (Util.close this) = Util.close this.
Proof. unfold Util.close at 1. by rewrite close_db. Qed.

Lemma async_ending_this {A} this (op : Async A) w :
  (async_ending this op w).1.2 = this.
Proof. unfold async_ending. by destruct (op w). Qed.

(** A method call keeps the handle in step with the liveness of the object. *)
Lemma invoke_handle m this w live :
  (db this = None ↔ live = false) →
  (db (invoke m this w).1.2 = None ↔ live_after m (invoke m this w).1.1 live = false).
Proof.
  intros Hinv. destruct m; simpl; rewrite ?async_ending_this; try done.
  - unfold Util.init. destruct (negb (w_supported w)); [done|].
    destruct (createDB _ _ _ _) as [[e|[d|e|]] w']; done.
  - by rewrite close_db.
Qed.

Lemma run_methods_handle ms :
  ∀ this w live,
    (db this = None ↔ live = false) →
    (db (run_methods ms this w live).1.1 = None ↔
     (run_methods ms this w live).2 = false).
Proof.
  induction ms as [|m rest IH]; intros this w live Hinv; [done|].
  simpl. pose proof (invoke_handle m this w live Hinv) as Hstep.
  destruct (invoke m this w) as [[o this'] w']. by apply IH.
Qed.

(** C10. The handle of a new object is null; [close] makes it null, and a
    second [close] changes nothing; along every sequence of method calls the
    handle is null exactly when the object is not live (never initialized
    with success, or closed since); and while the handle is null, [getDB]
    and [transaction] throw, and every record operation rejects, with the
    error that the database is not initialized, and the browser's data is as
    before. *)
Theorem null_handle_invariant :
  (∀ config, db (Util.constructor config) = None) ∧
  (∀ this, db (Util.close this) = None ∧
           Util.close (Util.close this) = Util.close this) ∧
  (∀ ms config w,
     db (run_methods ms (Util.constructor config) w false).1.1 = None ↔
     (run_methods ms (Util.constructor config) w false).2 = false) ∧
  (∀ this w, db this = None →
     Util.getDB this = Throws Util.not_initialized ∧
     (∀ stores mode,
        Util.transaction this stores mode w = Throws Util.not_initialized) ∧
     (∀ storeName k,
        Util.get this storeName k w = (Rejected Util.not_initialized, w)) ∧
     (∀ storeName,
        Util.getAll this storeName w = (Rejected Util.not_initialized, w)) ∧
     (∀ storeName options,
        Util.query this storeName options w = (Rejected Util.not_initialized, w)) ∧
     (∀ storeName keyRange,
        Util.count this storeName keyRange w = (Rejected Util.not_initialized, w)) ∧
     (∀ storeName data,
        Util.add this storeName data w = (Rejected Util.not_initialized, w)) ∧
     (∀ storeName data,
        Util.put this storeName data w = (Rejected Util.not_initialized, w)) ∧
     (∀ storeName dataArray,
        Util.bulkAdd this storeName dataArray w =
          (Rejected Util.not_initialized, w)) ∧
     (∀ storeName keyPath k newData,
        Util.update this storeName keyPath k newData w =
          (Rejected Util.not_initialized, w)) ∧
     (∀ storeName k,
        Util.delete this storeName k w = (Rejected Util.not_initialized, w)) ∧
     (∀ storeName,
        Util.clear this storeName w = (Rejected Util.not_initialized, w))).
Proof.
  split_and!.
  - done.
  - intros this. split; [apply close_db|apply close_idempotent].
  - intros ms config w. by apply run_methods_handle.
  - intros this w Hnull.
    assert (Util.getDB this = Throws Util.not_initialized) as HgetDB
      by (unfold Util.getDB; by rewrite Hnull).
    assert (∀ stores mode,
      Util.transaction this stores mode w = Throws Util.not_initialized) as Htx
      by (intros; unfold Util.transaction; by rewrite HgetDB).
    split_and!; [done|done|..]; intros;
      unfold Util.get, Util.getAll, Util.query, Util.count, Util.add, Util.put,
        Util.bulkAdd, Util.update, Util.delete, Util.clear,
        mbind, Async_bind, async_call;
      by rewrite Htx.
Qed.

Lemma null_handle_invariant_witness :
  Util.add (Util.close (mkUtil "app" 1 (Some app_conn) [])) "users"
    (user 3 "new@example.com" None) app_world =
    (Rejected Util.not_initialized, app_world).
Proof.
  destruct null_handle_invariant as (_ & Hclose & _ & Hnull).
  destruct (Hnull (Util.close (mkUtil "app" 1 (Some app_conn) [])) app_world)
    as (_ & _ & _ & _ & _ & _ & Hadd & _).
  - apply Hclose.
  - apply Hadd.
Defined.

(** ** Seeding *)

Lemma request_success {A} (run : IDBObjectStore → DOMException + (A * IDBObjectStore))
    h a h' :
  request run h = (inr a, h') →
  run (h_store h) = inr (a, h_store h') ∧ h_aborted h' = h_aborted h ∧
  h_io h' = tail (h_io h).
Proof.
  unfold request.
  destruct (h_io h) as [|[e|] io]; [| by intros [= <-] |];
    (destruct (run (h_store h)) as [e|[a' s']]; [done|]; by intros [= <- <-]).
Qed.

Lemma store_add_rows ok data s k s' :
  store_add ok data s = inr (k, s') →
  ∃ v gen, assign_key s data ok = (k, v, gen) ∧
           os_rows s' ≡ₚ (k, v) :: os_rows s ∧
           os_name s' = os_name s.
Proof.
  unfold store_add. destruct (keygen_exhausted _ _) eqn:Hexh; [done|].
  destruct (assign_key s data ok) as [[k0 v0] gen].
  case_bool_decide as Hdup; [done|].
  destruct (unique_violation _ _ _); [done|]. intros [= <- <-].
  exists v0, gen. split_and!; [done| |done]. simpl.
  apply rows_insert_absent. by apply eq_None_not_Some.
Qed.

(** The value stored for a record keeps the record's [id]. *)
Lemma assign_key_id s data ok :
  extract_key s data = Returns ok → get_field data "id" ≠ VUndefined →
  get_field (assign_key s data ok).1.2 "id" = get_field data "id".
Proof.
  unfold extract_key, assign_key. intros Hkey Hid.
  destruct ok as [k|]; [done|]. simpl.
  destruct (os_keyPath s) as [p|]; [|done].
  destruct (get_field data p) eqn:Hp; try (by destruct (os_autoIncrement s));
    try done.
  unfold get_field. rewrite lookup_insert_ne; [done|]. by intros ->.
Qed.

Lemma seed_object_id item :
  get_field (seed_object item) "id" = val_of_key (seed_id item).
Proof. unfold get_field, seed_object. by rewrite lookup_insert_eq. Qed.

Lemma seed_object_id_defined item : get_field (seed_object item) "id" ≠ VUndefined.
Proof. rewrite seed_object_id. by destruct (seed_id item). Qed.

Lemma place_adds_returns s dataArray placed :
  place_adds s dataArray = (placed, None) →
  placed.*2 = dataArray ∧ Forall (λ p, extract_key s p.2 = Returns p.1) placed.
Proof.
  revert placed. induction dataArray as [|data rest IH]; intros placed; simpl.
  - by intros [= <-].
  - destruct (extract_key s data) as [e|ok] eqn:Hkey; [done|].
    destruct (place_adds s rest) as [placed' thrown].
    intros [= <- ->]. destruct (IH placed' eq_refl) as [Hdata Hall].
    simpl. split; [by f_equal|]. by constructor.
Qed.

(** When the add requests of the seeding loop all succeed, the store keeps
    its rows and gains one row per request, with the [id] of the seed. *)
Lemma run_seed_resolved s0 placed :
  ∀ h u h',
    run_seed placed h = (Resolved u, h') →
    same_config s0 (h_store h) →
    Forall (λ p, extract_key s0 p.2 = Returns p.1 ∧
                 get_field p.2 "id" ≠ VUndefined) placed →
    h_aborted h' = h_aborted h ∧
    os_name (h_store h') = os_name (h_store h) ∧
    (∀ kv, kv ∈ os_rows (h_store h) → kv ∈ os_rows (h_store h')) ∧
    (∀ p, p ∈ placed → get_field p.2 "id" ∈ stored_ids (h_store h')) ∧
    (∀ kv, kv ∈ os_rows (h_store h') →
           kv ∈ os_rows (h_store h) ∨
           ∃ p s1, p ∈ placed ∧ get_field kv.2 "id" = get_field p.2 "id" ∧
                   same_config s0 s1 ∧ kv = (assign_key s1 p.2 p.1).1).
Proof.
  induction placed as [|[ok data] rest IH]; intros h u h'; simpl.
  - intros [= <- <-] _ _. split_and!; [done..| |by left].
    by intros p ?%elem_of_nil.
  - unfold mbind, Host_bind.
    destruct (request _ h) as [[e|k] h1] eqn:Hreq; [done|].
    intros Hrest Hcfg [[Hkey Hid] Hall]%Forall_cons. simpl in Hkey, Hid.
    apply request_success in Hreq as (Hadd & Hab & _).
    pose proof (store_add_config _ _ _ _ _ Hadd) as Hcfg1.
    apply store_add_rows in Hadd as (v & gen & Hassign & Hperm & Hname).
    assert (get_field v "id" = get_field data "id") as Hv.
    { rewrite (extract_key_config s0 (h_store h)) in Hkey by done.
      pose proof (assign_key_id _ _ _ Hkey Hid) as Hsame.
      by rewrite Hassign in Hsame. }
    destruct (IH h1 u h' Hrest) as (Hab' & Hname' & Hkeep & Hnew & Hfrom);
      [by eapply same_config_trans|done|].
    split_and!; [congruence|congruence|..].
    + intros kv Hin. apply Hkeep. rewrite Hperm. by right.
    + intros p [->|Hin]%elem_of_cons; [|by apply Hnew]. simpl.
      rewrite <- Hv. unfold stored_ids.
      apply list_elem_of_fmap. exists v. split; [done|].
      apply list_elem_of_fmap. exists (k, v). split; [done|].
      apply Hkeep. rewrite Hperm. left.
    + intros kv Hin.
      destruct (Hfrom kv Hin) as [Hin1|(p & s1 & Hp & Hidp & Hcfgp & Hkv)].
      * rewrite Hperm in Hin1. apply elem_of_cons in Hin1 as [->|Hin1]; [|by left].
        right. exists (ok, data), (h_store h).
        split_and!; [left|done|done|]. simpl. by rewrite Hassign.
      * right. exists p, s1. split_and!; [by right|done..].
Qed.

Lemma stored_ids_mono s s' :
  (∀ kv, kv ∈ os_rows s → kv ∈ os_rows s') →
  ∀ id, id ∈ stored_ids s → id ∈ stored_ids s'.
Proof.
  intros Hsub id. unfold stored_ids.
  intros (v & -> & ([k v'] & -> & Hin)%list_elem_of_fmap)%list_elem_of_fmap.
  apply list_elem_of_fmap. exists v'. split; [done|].
  apply list_elem_of_fmap. exists (k, v'). eauto.
Qed.

(** What a seeding pass that succeeds does to a store: every former row is
    kept, every initial record has its [id] in the store afterwards, and a
    new row is the row of an initial record whose [id] was not in the store:
    the initial record under the key it carries at the key path, or under a
    generated key. *)
Lemma seed_store_resolved data h u h' :
  seed_store data h = (Resolved u, h') →
  h_aborted h' = h_aborted h ∧
  os_name (h_store h') = os_name (h_store h) ∧
  (∀ kv, kv ∈ os_rows (h_store h) → kv ∈ os_rows (h_store h')) ∧
  (∀ item, item ∈ data → val_of_key (seed_id item) ∈ stored_ids (h_store h')) ∧
  (∀ kv, kv ∈ os_rows (h_store h') →
         kv ∈ os_rows (h_store h) ∨
         ∃ item ok s1,
           item ∈ data ∧
           (val_of_key (seed_id item) ∉ stored_ids (h_store h)) ∧
           get_field kv.2 "id" = val_of_key (seed_id item) ∧
           extract_key (h_store h) (seed_object item) = Returns ok ∧
           same_config (h_store h) s1 ∧
           kv = (assign_key s1 (seed_object item) ok).1).
Proof.
  unfold seed_store, mbind, Host_bind, get_store.
  destruct (request store_getAll h) as [[e|existingData] h1] eqn:Hreq; [done|].
  apply request_success in Hreq as (Hall & Hab1 & _).
  unfold store_getAll in Hall. injection Hall as <- Hs1.
  fold (stored_ids (h_store h)).
  destruct (place_adds _ _) as [placed thrown] eqn:Hplace.
  destruct (run_seed placed h1) as [p h2] eqn:Hrun.
  destruct thrown as [e|]; [done|]. intros [= -> ->].
  apply place_adds_returns in Hplace as [Hdata Hkeys].
  assert (∀ p, p ∈ placed →
    ∃ item, item ∈ data ∧ (val_of_key (seed_id item) ∉ stored_ids (h_store h)) ∧
            p.2 = seed_object item) as Hplaced.
  { intros p Hp.
    assert (p.2 ∈ placed.*2) as Hp2 by (apply list_elem_of_fmap; eauto).
    rewrite Hdata in Hp2.
    apply list_elem_of_fmap in Hp2 as (item & -> & Hitem).
    apply list_elem_of_filter in Hitem as [Hnew Hitem]. eauto. }
  destruct (run_seed_resolved (h_store h1) placed h1 u h' Hrun)
    as (Hab & Hname & Hkeep & Hnew & Hfrom); [done| |].
  { rewrite Forall_forall in Hkeys. apply Forall_forall. intros p Hp.
    split; [by apply Hkeys|].
    destruct (Hplaced p Hp) as (item & _ & _ & ->).
    apply seed_object_id_defined. }
  rewrite <- Hs1 in *.
  split_and!; [congruence|done|done|..].
  - intros item Hitem.
    destruct (decide (val_of_key (seed_id item) ∈ stored_ids (h_store h)))
      as [Hold|Hfresh]; [by eapply stored_ids_mono|].
    assert (seed_object item ∈ placed.*2) as Hin.
    { rewrite Hdata. apply list_elem_of_fmap. exists item. split; [done|].
      by apply list_elem_of_filter. }
    apply list_elem_of_fmap in Hin as (p & Hp2 & Hp).
    rewrite <- seed_object_id, Hp2. by apply Hnew.
  - intros kv Hkv.
    destruct (Hfrom kv Hkv) as [?|(p & s1 & Hp & Hid & Hcfg & Hrow)]; [by left|].
    right. destruct (Hplaced p Hp) as (item & Hitem & Hfresh & Hobj).
    exists item, p.1, s1. rewrite <- Hobj. split_and!; [done..| | |done|done].
    + by rewrite Hid, Hobj, seed_object_id.
    + rewrite Forall_forall in Hkeys. by apply Hkeys.
Qed.

Lemma filter_none {A} (P : A → Prop) `{∀ x, Decision (P x)} (l : list A) :
  Forall (λ x, ¬ P x) l → filter P l = [].
Proof.
  induction 1 as [|x l Hx _ IH]; [done|].
  by rewrite filter_cons, decide_False.
Qed.

(** A seeding pass over a store that holds every [id] places no request. *)
Lemma seed_store_noop data h :
  h_io h = [] →
  (∀ item, item ∈ data → val_of_key (seed_id item) ∈ stored_ids (h_store h)) →
  seed_store data h = (Resolved (), h).
Proof.
  intros Hio Hids. unfold seed_store, mbind, Host_bind, get_store.
  rewrite request_quiet by done. simpl.
  fold (stored_ids (h_store h)). rewrite filter_none.
  - simpl. unfold mret, Host_ret. rewrite <- Hio. by rewrite host_eta.
  - apply Forall_forall. intros item Hitem Hfresh. by apply Hfresh, Hids.
Qed.

(** *** Stores of a database *)

Lemma find_store_replace_eq s d v s0 :
  find_store (os_name s) d = Some s0 →
  find_store (os_name s) (mkDB v (replace_store s (db_stores d))) = Some s.
Proof.
  unfold find_store. simpl.
  induction (db_stores d) as [|s1 rest IH]; [done|]. simpl.
  case_bool_decide as Hname.
  - intros _. rewrite decide_True by done. simpl.
    by rewrite bool_decide_eq_true_2.
  - intros Hfind. rewrite decide_False by done. simpl.
    rewrite bool_decide_eq_false_2 by done. by apply IH.
Qed.

Lemma find_store_replace_ne name s d v :
  name ≠ os_name s →
  find_store name (mkDB v (replace_store s (db_stores d))) = find_store name d.
Proof.
  intros Hne. unfold find_store. simpl.
  induction (db_stores d) as [|s1 rest IH]; [done|]. simpl.
  case_decide as Hname; simpl.
  - rewrite !bool_decide_eq_false_2; [done|congruence..].
  - case_bool_decide; [done|]. apply IH.
Qed.

Lemma replace_store_id s d :
  find_store (os_name s) d = Some s → replace_store s (db_stores d) = db_stores d.
Proof.
  unfold find_store.
  induction (db_stores d) as [|s1 rest IH]; [done|]. simpl.
  case_bool_decide as Hname.
  - intros [= ->]. by rewrite decide_True.
  - intros Hfind. rewrite decide_False by done. f_equal. by apply IH.
Qed.

(** *** Seeding the stores of a database *)

Lemma grows_refl name w : grows name w w.
Proof. split_and!; eauto. Qed.

Lemma grows_trans name w1 w2 w3 :
  grows name w1 w2 → grows name w2 w3 → grows name w1 w3.
Proof.
  intros (Hs1 & Hd1 & Hst1) (Hs2 & Hd2 & Hst2). split_and!; [congruence|..].
  - intros d Hd. destruct (Hd1 d Hd) as (d' & Hd' & Hv).
    destruct (Hd2 d' Hd') as (d'' & Hd'' & Hv'). exists d''. split; congruence.
  - intros storeName s Hs. destruct (Hst1 storeName s Hs) as (s' & Hs' & Hids).
    destruct (Hst2 storeName s' Hs') as (s'' & Hs'' & Hids'). eauto.
Qed.

Lemma seeded_grows name w w' store :
  grows name w w' → seeded w name store → seeded w' name store.
Proof.
  intros (_ & _ & Hst) (s & Hs & Hids).
  destruct (Hst _ s Hs) as (s' & Hs' & Hmono). exists s'. eauto.
Qed.

Lemma world_eta w : mkWorld (w_supported w) (w_dbs w) (w_io w) = w.
Proof. by destruct w. Qed.

Lemma database_eta d : mkDB (db_version d) (db_stores d) = d.
Proof. by destruct d. Qed.

(** One seeded store, when the pass succeeds. *)
Lemma on_store_seed_resolved name storeName d s t data w u w' :
  w_dbs w !! name = Some d → find_store storeName d = Some s →
  tx_db t = name →
  on_store (mkHandler t) s (seed_store data) w = (Resolved u, w') →
  grows name w w' ∧
  ∃ s', store_in w' name storeName = Some s' ∧
        ∀ item, item ∈ data → val_of_key (seed_id item) ∈ stored_ids s'.
Proof.
  intros Hd Hs Ht. unfold on_store. simpl. rewrite Ht.
  destruct (seed_store data _) as [p h] eqn:Hseed. intros [= -> <-].
  apply seed_store_resolved in Hseed as (Hab & Hname & Hkeep & Hids & _).
  simpl in Hab, Hname, Hkeep. rewrite Hab.
  pose proof (find_store_name _ _ _ Hs) as Hsname.
  unfold write_store. simpl. rewrite Hd.
  assert (store_in
    (mkWorld (w_supported w)
       (<[name := mkDB (db_version d) (replace_store (h_store h) (db_stores d))]>
          (w_dbs w)) (h_io h)) name storeName = Some (h_store h)) as Hnew.
  { unfold store_in. simpl. rewrite lookup_insert_eq. simpl.
    rewrite <- Hsname, <- Hname. eapply find_store_replace_eq.
    by rewrite Hname, Hsname. }
  split; [|eauto]. split_and!; [done|..].
  - intros d0 Hd0. simpl. rewrite lookup_insert_eq.
    assert (d0 = d) as -> by congruence. eauto.
  - intros storeName' s0. unfold store_in at 1. rewrite Hd. simpl. intros Hs0.
    destruct (decide (storeName' = storeName)) as [->|Hne].
    + exists (h_store h). split; [done|].
      assert (s0 = s) as -> by congruence. by apply stored_ids_mono.
    + exists s0. split; [|done]. unfold store_in. simpl.
      rewrite lookup_insert_eq. simpl. rewrite find_store_replace_ne; [done|].
      congruence.
Qed.

(** One seeded store, when the store holds every [id] already. *)
Lemma on_store_seed_noop name storeName d s t data w :
  w_io w = [] →
  w_dbs w !! name = Some d → find_store storeName d = Some s →
  tx_db t = name →
  (∀ item, item ∈ data → val_of_key (seed_id item) ∈ stored_ids s) →
  on_store (mkHandler t) s (seed_store data) w = (Resolved (), w).
Proof.
  intros Hio Hd Hs Ht Hids. unfold on_store. simpl.
  rewrite seed_store_noop by (simpl; done). simpl. f_equal.
  unfold write_store. simpl. rewrite Ht, Hd.
  pose proof (find_store_name _ _ _ Hs) as Hsname.
  rewrite replace_store_id by (by rewrite Hsname).
  rewrite database_eta, insert_id by done.
  apply world_eta.
Qed.

Lemma seed_stores_resolved db storesWithData :
  ∀ w u w',
    seed_stores db storesWithData w = (Resolved u, w') →
    grows (conn_name db) w w' ∧
    ∀ store, store ∈ storesWithData → seeded w' (conn_name db) store.
Proof.
  induction storesWithData as [|store rest IH]; intros w u w'; simpl.
  - intros [= <- <-]. split; [apply grows_refl|]. by intros store ?%elem_of_nil.
  - unfold mbind, Async_bind, async_call at 1.
    destruct (db_transaction db _ _ w) as [e|t] eqn:Htx; [done|].
    unfold async_call.
    destruct (tx_objectStore t (sc_name store) w) as [e|s] eqn:Hos; [done|].
    destruct (on_store _ s _ w) as [[u1|e|] w1] eqn:Hseed; [|done..].
    intros Hrest.
    assert (tx_db t = conn_name db ∧ tx_finished t = false ∧
            sc_name store ∈ tx_scope t) as (Ht & Hlive & Hscope).
    { unfold db_transaction in Htx.
      destruct (w_dbs w !! conn_name db); [|done]. simpl in Htx.
      destruct (objectStoreNames_contains _ _); [|done].
      injection Htx as <-. simpl. split_and!; [done..|left]. }
    unfold tx_objectStore in Hos. rewrite Hlive in Hos.
    rewrite bool_decide_eq_true_2 in Hos by done. rewrite Ht in Hos.
    destruct (w_dbs w !! conn_name db) as [d|] eqn:Hd; [|done]. simpl in Hos.
    destruct (find_store (sc_name store) d) as [s0|] eqn:Hs; [|done].
    injection Hos as ->.
    destruct (on_store_seed_resolved _ _ _ _ _ _ _ _ _ Hd Hs Ht Hseed)
      as (Hgrow1 & s' & Hs' & Hids).
    destruct (IH w1 u w' Hrest) as (Hgrow & Hseeded).
    split; [by eapply grows_trans|].
    intros store' [->|Hin]%elem_of_cons; [|by apply Hseeded].
    eapply seeded_grows; [done|]. by exists s'.
Qed.

Lemma seed_stores_noop db storesWithData :
  ∀ w, w_io w = [] →
       (∀ store, store ∈ storesWithData → seeded w (conn_name db) store) →
       seed_stores db storesWithData w = (Resolved (), w).
Proof.
  induction storesWithData as [|store rest IH]; intros w Hio Hseeded; [done|].
  destruct (Hseeded store) as (s & Hs & Hids); [left|].
  unfold store_in in Hs.
  destruct (w_dbs w !! conn_name db) as [d|] eqn:Hd; [|done]. simpl in Hs.
  simpl. unfold mbind, Async_bind, async_call at 1.
  unfold db_transaction. rewrite Hd. simpl.
  unfold objectStoreNames_contains. rewrite Hs.
  rewrite bool_decide_eq_true_2 by eauto. simpl.
  unfold async_call, tx_objectStore. simpl.
  rewrite bool_decide_eq_true_2 by left. rewrite Hd. simpl. rewrite Hs.
  rewrite (on_store_seed_noop (conn_name db) (sc_name store) d) by done.
  apply IH; [done|]. intros store' Hin. apply Hseeded. by right.
Qed.

(** *** Opening a database twice *)

Lemma upgrade_store_version store d d' :
  upgrade_store store d = Some d' → db_version d' = db_version d.
Proof.
  unfold upgrade_store.
  destruct (find_store (sc_name store) d) as [s|];
    (destruct (foldl _ _ _) as [s'|]; [|done]); by intros [= <-].
Qed.

Lemma onupgradeneeded_version stores d d' :
  onupgradeneeded stores d = Some d' → db_version d' = db_version d.
Proof.
  unfold onupgradeneeded. generalize (default [] stores). intros l.
  revert d. induction l as [|store rest IH]; intros d; simpl.
  - by intros [= <-].
  - destruct (upgrade_store store d) as [d1|] eqn:Hup.
    + intros Hrest. apply IH in Hrest. apply upgrade_store_version in Hup.
      congruence.
    + intros Hnone. exfalso. clear -Hnone.
      induction rest as [|store' rest IH]; [done|]. by apply IH.
Qed.

(** After an open request with success the database exists at the requested
    version. *)
Lemma indexedDB_open_success name version stores connected w db w0 :
  0 < version →
  indexedDB_open name version (onupgradeneeded stores) connected w =
    (OpenSuccess db, w0) →
  db = mkConn name version ∧ w_supported w0 = w_supported w ∧
  ∃ d, w_dbs w0 !! name = Some d ∧ db_version d = version.
Proof.
  intros Hpos. unfold indexedDB_open.
  assert (∀ io,
    (let w := mkWorld (w_supported w) (w_dbs w) io in
     let old := default (mkDB 0 []) (w_dbs w !! name) in
     if bool_decide (version < db_version old) then (OpenError VersionError, w)
     else if bool_decide (db_version old < version) then
       if connected && bool_decide (is_Some (w_dbs w !! name))
       then (OpenBlocked, w)
       else match onupgradeneeded stores (mkDB version (db_stores old)) with
            | Some d =>
                (OpenSuccess (mkConn name version),
                 mkWorld (w_supported w) (<[name := d]> (w_dbs w)) (w_io w))
            | None => (OpenError AbortError, w)
            end
     else (OpenSuccess (mkConn name version), w)) = (OpenSuccess db, w0) →
    db = mkConn name version ∧ w_supported w0 = w_supported w ∧
    ∃ d, w_dbs w0 !! name = Some d ∧ db_version d = version) as Hopen.
  { intros io. simpl. case_bool_decide as Hlt; [done|].
    case_bool_decide as Hgt.
    - destruct (connected && _); [done|].
      destruct (onupgradeneeded _ _) as [d|] eqn:Hup; [|done].
      intros [= <- <-]. simpl. split_and!; [done..|].
      exists d. rewrite lookup_insert_eq. split; [done|].
      by apply onupgradeneeded_version in Hup.
    - intros [= <- <-]. simpl. split_and!; [done..|].
      destruct (w_dbs w !! name) as [d|]; simpl in *; [|lia].
      exists d. split; [done|lia]. }
  destruct (w_io w) as [|[e|] io]; [apply Hopen|done|apply Hopen].
Qed.

(** An open request at the version the database has changes nothing, whether
    or not a connection to the database is open. *)
Lemma indexedDB_open_same_version name version upgrade connected w d :
  w_io w = [] → w_dbs w !! name = Some d → db_version d = version →
  indexedDB_open name version upgrade connected w =
    (OpenSuccess (mkConn name version), w).
Proof.
  intros Hio Hd Hv. unfold indexedDB_open. rewrite Hio. simpl. rewrite Hd. simpl.
  rewrite !bool_decide_eq_false_2 by lia.
  rewrite <- Hio at 1. by rewrite world_eta.
Qed.

Lemma createDB_promise_again name version stores connected connected' w db w1 :
  createDB_promise name version stores connected w = (Resolved db, w1) →
  w_io w1 = [] →
  createDB_promise name version stores connected' w1 = (Resolved db, w1) ∧
  w_supported w1 = w_supported w ∧
  ∀ store, store ∈ filter (λ store, has_data store) (default [] stores) →
           seeded w1 name store.
Proof.
  unfold createDB_promise. case_bool_decide as Hpos; [done|].
  destruct (indexedDB_open name version _ connected w) as [[e| |db0] w0] eqn:Hopen;
    [done..|].
  apply indexedDB_open_success in Hopen as (-> & Hsup & d & Hd & Hv); [|lia].
  assert (∀ d1, w_dbs w1 !! name = Some d1 → db_version d1 = version →
    w_io w1 = [] →
    indexedDB_open name version (onupgradeneeded stores) connected' w1 =
      (OpenSuccess (mkConn name version), w1)) as Hagain
    by (intros; by eapply indexedDB_open_same_version).
  destruct stores as [[|store0 stores]|].
  - intros [= <- <-] Hio. rewrite (Hagain d) by done.
    split_and!; [done..|]. by intros store ?%elem_of_nil.
  - simpl default.
    destruct (filter _ (store0 :: stores)) as [|store1 rest] eqn:Hfilter.
    + intros [= <- <-] Hio. rewrite (Hagain d) by done.
      split_and!; [done..|]. by intros store ?%elem_of_nil.
    + destruct (seed_stores _ _ w0) as [[u|e|] w2] eqn:Hseed; [|done..].
      intros [= <- <-] Hio.
      apply seed_stores_resolved in Hseed as ((Hsup2 & Hdb & _) & Hseeded).
      simpl in Hdb, Hseeded. destruct (Hdb d Hd) as (d' & Hd' & Hv').
      rewrite (Hagain d') by (done || congruence).
      rewrite seed_stores_noop by done. split_and!; [done|congruence|done].
  - intros [= <- <-] Hio. rewrite (Hagain d) by done.
    split_and!; [done..|]. by intros store ?%elem_of_nil.
Qed.

(** ** The invariant of a store under the record operations *)

Lemma keeps_wf_ret {A} (a : A) : keeps_wf (mret a).
Proof. by intros h. Qed.

Lemma keeps_wf_bind {A B} (op : Host A) (f : A → Host B) :
  keeps_wf op → (∀ a, keeps_wf (f a)) → keeps_wf (op ≫= f).
Proof.
  intros Hop Hf h Hwf. unfold mbind, Host_bind.
  specialize (Hop h Hwf). destruct (op h) as [a h1]. by apply Hf.
Qed.

Lemma keeps_wf_request {A} (run : IDBObjectStore → DOMException + (A * IDBObjectStore)) :
  (∀ s a s', store_wf s → run s = inr (a, s') → store_wf s') →
  keeps_wf (request run).
Proof.
  intros Hrun h Hwf. unfold request.
  destruct (h_io h) as [|[e|] io]; [|done|];
    (destruct (run (h_store h)) as [e|[a s']] eqn:Hr; [done|by eapply Hrun]).
Qed.

Lemma keeps_wf_read {A} (f : IDBObjectStore → A) :
  keeps_wf (request (λ s, inr (f s, s))).
Proof. apply keeps_wf_request. by intros s a s' Hwf [= _ <-]. Qed.

Lemma keeps_wf_get_store : keeps_wf get_store.
Proof. by intros h. Qed.

Lemma keeps_wf_store_add ok data : keeps_wf (request (store_add ok data)).
Proof. apply keeps_wf_request. intros s k s' Hwf. by apply store_add_wf. Qed.

Lemma getAllObjectData_wf : keeps_wf getAllObjectData.
Proof.
  unfold getAllObjectData. apply keeps_wf_bind; [apply (keeps_wf_read _)|].
  intros [e|result]; apply keeps_wf_ret.
Qed.

Lemma getObjectData_wf k : keeps_wf (getObjectData k).
Proof.
  unfold getObjectData. apply keeps_wf_bind; [apply (keeps_wf_read _)|].
  intros [e|result]; apply keeps_wf_ret.
Qed.

Lemma countObjectData_wf keyRange : keeps_wf (countObjectData keyRange).
Proof.
  unfold countObjectData. apply keeps_wf_bind; [apply (keeps_wf_read _)|].
  intros [e|result]; apply keeps_wf_ret.
Qed.

Lemma query_cursor_wf offset limit cursor :
  ∀ skipped counted results,
    keeps_wf (query_cursor offset limit cursor skipped counted results).
Proof.
  induction cursor as [|[pk value] rest IH]; intros; simpl;
    (apply keeps_wf_bind; [apply (keeps_wf_read _)|]);
    intros [e|[]]; try apply keeps_wf_ret.
  case_bool_decide; [apply IH|].
  destruct (limit_reached limit counted); [apply keeps_wf_ret|apply IH].
Qed.

Lemma queryObjectData_wf options : keeps_wf (queryObjectData options).
Proof.
  unfold queryObjectData. apply keeps_wf_bind; [apply keeps_wf_get_store|].
  intros s. destruct (query_source _ _); [apply keeps_wf_ret|].
  apply query_cursor_wf.
Qed.

Lemma addObjectData_wf data : keeps_wf (addObjectData data).
Proof.
  unfold addObjectData. apply keeps_wf_bind; [apply keeps_wf_get_store|].
  intros s. destruct (extract_key s data) as [e|ok]; [apply keeps_wf_ret|].
  apply keeps_wf_bind; [apply keeps_wf_store_add|].
  intros [e|k]; [apply keeps_wf_ret|apply getAllObjectData_wf].
Qed.

Lemma putObjectData_wf data : keeps_wf (putObjectData data).
Proof.
  unfold putObjectData. apply keeps_wf_bind; [apply keeps_wf_get_store|].
  intros s. destruct (extract_key s data) as [e|ok]; [apply keeps_wf_ret|].
  apply keeps_wf_bind.
  - apply keeps_wf_request. intros s0 k s' Hwf. by apply store_put_wf.
  - intros [e|k]; apply keeps_wf_ret.
Qed.

Lemma run_adds_wf total placed :
  ∀ index completed results,
    keeps_wf (run_adds total placed index completed results).
Proof.
  induction placed as [|[ok data] rest IH]; intros; simpl; [apply keeps_wf_ret|].
  apply keeps_wf_bind; [apply keeps_wf_store_add|].
  intros [e|k]; [apply keeps_wf_ret|].
  case_decide; [apply keeps_wf_ret|apply IH].
Qed.

Lemma bulkAddObjectData_wf dataArray : keeps_wf (bulkAddObjectData dataArray).
Proof.
  unfold bulkAddObjectData. destruct dataArray as [|data rest];
    [apply keeps_wf_ret|].
  apply keeps_wf_bind; [apply keeps_wf_get_store|]. intros s.
  destruct (place_adds s (data :: rest)) as [placed thrown].
  apply keeps_wf_bind; [apply run_adds_wf|].
  intros p. destruct thrown; apply keeps_wf_ret.
Qed.

Lemma update_cursor_wf keyPath k newData cursor :
  keeps_wf (update_cursor keyPath k newData cursor).
Proof.
  induction cursor as [|[pk value] rest IH]; simpl;
    (apply keeps_wf_bind; [apply (keeps_wf_read _)|]);
    intros [e|[]]; try apply keeps_wf_ret.
  destruct (strict_eq _ _); [|apply IH].
  apply keeps_wf_bind; [apply keeps_wf_get_store|]. intros s.
  destruct (cursor_update_check s pk newData).
  - apply keeps_wf_bind; [by intros h|]. intros []. apply keeps_wf_ret.
  - apply keeps_wf_bind.
    + apply keeps_wf_request. intros s0 k0 s' Hwf. by apply store_update_wf.
    + intros [e|k0]; [apply keeps_wf_ret|apply getAllObjectData_wf].
Qed.

Lemma updateObjectData_wf keyPath k newData :
  keeps_wf (updateObjectData keyPath k newData).
Proof.
  unfold updateObjectData, updateObjectData_between.
  apply keeps_wf_bind; [apply getAllObjectData_wf|].
  intros [allData|e|]; try apply keeps_wf_ret.
  destruct (find _ allData).
  - apply keeps_wf_bind; [apply keeps_wf_ret|]. intros [].
    apply keeps_wf_bind; [apply keeps_wf_get_store|]. intros s.
    apply update_cursor_wf.
  - apply keeps_wf_bind; [apply keeps_wf_get_store|]. intros s.
    apply keeps_wf_ret.
Qed.

Lemma deleteObjectData_wf k : keeps_wf (deleteObjectData k).
Proof.
  unfold deleteObjectData. apply keeps_wf_bind; [apply getObjectData_wf|].
  intros [[v|]|e|]; try apply keeps_wf_ret.
  - apply keeps_wf_bind.
    + apply keeps_wf_request. intros s0 u s' Hwf. by apply store_delete_wf.
    + intros [e|u]; [apply keeps_wf_ret|].
      apply keeps_wf_bind; [apply getAllObjectData_wf|].
      intros [allData|e|]; apply keeps_wf_ret.
  - apply keeps_wf_bind; [apply keeps_wf_get_store|]. intros s.
    apply keeps_wf_ret.
Qed.

Lemma clearObjectStore_wf : keeps_wf clearObjectStore.
Proof.
  unfold clearObjectStore. apply keeps_wf_bind.
  - apply keeps_wf_request. intros s0 u s' _. by apply store_clear_wf.
  - intros [e|u]; apply keeps_wf_ret.
Qed.

(** ** Seeding: the rows of a pass, and the second open *)

Lemma key_of_val_of_key k : key_of_val (val_of_key k) = Some k.
Proof. by destruct k. Qed.

Lemma rows_lookup_elem k v rows :
  NoDup rows.*1 → (k, v) ∈ rows → rows_lookup k rows = Some v.
Proof.
  induction rows as [|[k' v'] rest IH]; simpl.
  - by intros _ ?%elem_of_nil.
  - rewrite NoDup_cons, rows_lookup_cons.
    intros [Hk' Hnd] [[= -> ->]|Hin]%elem_of_cons.
    + by rewrite decide_True.
    + rewrite decide_False; [by apply IH|]. intros ->. apply Hk'.
      apply list_elem_of_fmap. by exists (k, v).
Qed.

Lemma run_seed_wf placed : keeps_wf (run_seed placed).
Proof.
  induction placed as [|[ok item] rest IH]; simpl; [apply keeps_wf_ret|].
  apply keeps_wf_bind; [apply keeps_wf_store_add|].
  intros [e|k]; [apply keeps_wf_ret|done].
Qed.

Lemma seed_store_wf data : keeps_wf (seed_store data).
Proof.
  unfold seed_store. apply keeps_wf_bind; [apply (keeps_wf_read _)|].
  intros [e|existingData]; [apply keeps_wf_ret|].
  apply keeps_wf_bind; [apply keeps_wf_get_store|]. intros s.
  destruct (place_adds _ _) as [placed thrown].
  apply keeps_wf_bind; [apply run_seed_wf|]. intros p.
  destruct thrown; apply keeps_wf_ret.
Qed.

Lemma seed_object_field item f :
  f ≠ "id" → get_field (seed_object item) f = get_field (seed_fields item) f.
Proof.
  intros Hf. unfold get_field, seed_object. by rewrite lookup_insert_ne.
Qed.

(** In a store keyed by [id] the stored values of [id] are the keys. *)
Lemma stored_ids_keys s k :
  os_keyPath s = Some "id" → store_keyed s →
  val_of_key k ∈ stored_ids s ↔ k ∈ (os_rows s).*1.
Proof.
  intros Hp Hkeyed. unfold store_keyed in Hkeyed. rewrite Hp in Hkeyed.
  rewrite Forall_forall in Hkeyed. unfold stored_ids. split.
  - intros (v & Hid & ([k' v'] & -> & Hin)%list_elem_of_fmap)%list_elem_of_fmap.
    specialize (Hkeyed _ Hin). simpl in *.
    rewrite <- Hid, key_of_val_of_key in Hkeyed. injection Hkeyed as ->.
    apply list_elem_of_fmap. by exists (k', v').
  - intros ([k' v'] & -> & Hin)%list_elem_of_fmap.
    pose proof (Hkeyed _ Hin) as Hk. simpl in *.
    apply key_of_val_inv in Hk.
    apply list_elem_of_fmap. exists v'. split; [done|].
    apply list_elem_of_fmap. by exists (k', v').
Qed.

(** C5, amended. Seeding is idempotent on the field [id]. For every
    configuration: when [createDB] has resolved, a second call with the
    same name, version and stores, on a host without I/O failure, whether
    or not a connection is open, resolves with the same connection and
    leaves every database as it is, each store holding the [id] of each of
    its initial records. A seeding pass that succeeds keeps the stored
    records, leaves the [id] of each initial record in the store, and each
    record it inserts is an initial record whose [id] was not among the
    stored values of [id]: it has that [id], the other fields of the
    initial record, and its key at the key path; it is the initial record
    itself unless a generated key had to be put into it. In a store whose
    key path is [id] this is the primary key: the pass keeps the keys
    apart, stores a record under the key of each initial record, inserts
    exactly initial records whose key was absent, each as it is configured,
    and leaves the record under every key that was present as it was. *)
Theorem seeding_is_idempotent :
  (∀ name version stores connected connected' w db w1,
     createDB name version stores connected w = (Returns (Resolved db), w1) →
     w_io w1 = [] →
     createDB name version stores connected' w1 = (Returns (Resolved db), w1) ∧
     ∀ store, store ∈ default [] stores → has_data store = true →
              seeded w1 name store) ∧
  (∀ data h u h',
     seed_store data h = (Resolved u, h') →
     (∀ kv, kv ∈ os_rows (h_store h) → kv ∈ os_rows (h_store h')) ∧
     (∀ item, item ∈ data →
        val_of_key (seed_id item) ∈ stored_ids (h_store h')) ∧
     (∀ kv, kv ∈ os_rows (h_store h') →
        kv ∈ os_rows (h_store h) ∨
        ∃ item, item ∈ data ∧
                (val_of_key (seed_id item) ∉ stored_ids (h_store h)) ∧
                get_field kv.2 "id" = val_of_key (seed_id item) ∧
                (∀ f, f ≠ "id" → os_keyPath (h_store h) ≠ Some f →
                      get_field kv.2 f = get_field (seed_fields item) f) ∧
                (∀ p, os_keyPath (h_store h) = Some p →
                      key_of_val (get_field kv.2 p) = Some kv.1) ∧
                (∀ p, os_keyPath (h_store h) = Some p →
                      get_field (<["id" := val_of_key (seed_id item)]>
                                   (seed_fields item)) p ≠ VUndefined →
                      kv.2 = <["id" := val_of_key (seed_id item)]>
                               (seed_fields item)) ∧
                (os_keyPath (h_store h) = None →
                 kv.2 = <["id" := val_of_key (seed_id item)]>
                          (seed_fields item)))) ∧
  (∀ data h u h',
     os_keyPath (h_store h) = Some "id" →
     store_wf (h_store h) → store_keyed (h_store h) →
     seed_store data h = (Resolved u, h') →
     store_wf (h_store h') ∧
     (∀ item, item ∈ data → seed_id item ∈ (os_rows (h_store h')).*1) ∧
     (∀ kv, kv ∈ os_rows (h_store h') →
        kv ∈ os_rows (h_store h) ∨
        ∃ item, item ∈ data ∧
                (seed_id item ∉ (os_rows (h_store h)).*1) ∧
                kv = (seed_id item,
                      <["id" := val_of_key (seed_id item)]> (seed_fields item))) ∧
     (∀ k v, rows_lookup k (os_rows (h_store h)) = Some v →
             rows_lookup k (os_rows (h_store h')) = Some v)).
Proof.
  assert (∀ data h u h',
    seed_store data h = (Resolved u, h') →
    ∀ kv, kv ∈ os_rows (h_store h') →
      kv ∈ os_rows (h_store h) ∨
      ∃ item, item ∈ data ∧
              (val_of_key (seed_id item) ∉ stored_ids (h_store h)) ∧
              get_field kv.2 "id" = val_of_key (seed_id item) ∧
              (∀ f, f ≠ "id" → os_keyPath (h_store h) ≠ Some f →
                    get_field kv.2 f = get_field (seed_fields item) f) ∧
              (∀ p, os_keyPath (h_store h) = Some p →
                    key_of_val (get_field kv.2 p) = Some kv.1) ∧
              (os_keyPath (h_store h) = Some "id" →
               kv = (seed_id item, seed_object item)) ∧
              (∀ p, os_keyPath (h_store h) = Some p →
                    get_field (seed_object item) p ≠ VUndefined →
                    kv.2 = seed_object item) ∧
              (os_keyPath (h_store h) = None → kv.2 = seed_object item))
    as Hrows.
  { intros data h u h' Hseed kv Hkv.
    apply seed_store_resolved in Hseed as (_ & _ & _ & _ & Hfrom).
    destruct (Hfrom kv Hkv)
      as [?|(item & ok & s1 & Hitem & Hfresh & Hid & Hex & Hcfg & ->)];
      [by left|].
    right. exists item.
    destruct (assign_key s1 (seed_object item) ok) as [[k v] gen] eqn:Has.
    simpl in *. destruct Hcfg as [Hpath Hauto].
    rewrite (extract_key_config _ s1) in Hex by done.
    split_and!; [done..| | | | |].
    - intros f Hf Hp. rewrite <- (seed_object_field item f) by done.
      eapply assign_key_fields; [done|congruence].
    - intros p Hp. eapply assign_key_keyed; [done..|congruence].
    - intros Hp. rewrite Hpath in Hp.
      destruct (extract_key_inline s1 (seed_object item) "id" (seed_id item))
        as [Hex' [gen' Has']]; [done| |].
      { by rewrite seed_object_id, key_of_val_of_key. }
      rewrite Hex' in Hex. injection Hex as <-. congruence.
    - intros p Hp Hdef. destruct ok as [k0|]; simpl in Has.
      + by injection Has as _ <- _.
      + apply extract_key_None in Hex as [_ Hundef].
        exfalso. apply Hdef, Hundef. congruence.
    - intros Hnone. destruct ok as [k0|]; simpl in Has.
      + by injection Has as _ <- _.
      + rewrite <- Hpath, Hnone in Has. by injection Has as _ <- _. }
  split_and!.
  - intros name version stores connected connected' w db w1. unfold createDB.
    destruct (w_supported w) eqn:Hsup; [|done].
    destruct (createDB_promise name version stores connected w)
      as [p w'] eqn:Hfirst.
    intros [= -> ->] Hio.
    destruct (createDB_promise_again _ _ _ _ connected' _ _ _ Hfirst Hio)
      as (Hsecond & Hsup1 & Hseeded).
    rewrite Hsup1, Hsup, Hsecond. split; [done|].
    intros store Hin Hdata. apply Hseeded.
    apply list_elem_of_filter. split; [by rewrite Hdata|done].
  - intros data h u h' Hseed.
    pose proof (Hrows _ _ _ _ Hseed) as Hfrom.
    apply seed_store_resolved in Hseed as (_ & _ & Hkeep & Hids & _).
    split_and!; [done..|].
    intros kv Hkv.
    destruct (Hfrom kv Hkv) as [?|(item & ? & ? & ? & ? & ? & _ & ? & ?)];
      [by left|].
    right. exists item. by split_and!.
  - intros data h u h' Hp Hwf Hkeyed Hseed.
    pose proof (Hrows _ _ _ _ Hseed) as Hfrom.
    pose proof (seed_store_wf data h Hwf) as Hwf'. rewrite Hseed in Hwf'.
    simpl in Hwf'.
    apply seed_store_resolved in Hseed as (_ & _ & Hkeep & Hids & _).
    assert (∀ kv, kv ∈ os_rows (h_store h') →
              key_of_val (get_field kv.2 "id") = Some kv.1) as Hkeyed'.
    { intros kv Hkv.
      destruct (Hfrom kv Hkv) as [Hold|(item & _ & _ & _ & _ & Hk & _)];
        [|by apply Hk].
      unfold store_keyed in Hkeyed. rewrite Hp, Forall_forall in Hkeyed.
      by apply Hkeyed. }
    split_and!; [done|..].
    + intros item Hitem. specialize (Hids item Hitem). unfold stored_ids in Hids.
      apply list_elem_of_fmap in Hids
        as (v & Hid & ([k' v'] & -> & Hin)%list_elem_of_fmap).
      pose proof (Hkeyed' _ Hin) as Hk. simpl in *.
      rewrite <- Hid, key_of_val_of_key in Hk. injection Hk as ->.
      apply list_elem_of_fmap. by exists (k', v').
    + intros kv Hkv.
      destruct (Hfrom kv Hkv)
        as [?|(item & Hitem & Hfresh & _ & _ & _ & Hrow & _)]; [by left|].
      right. exists item. split_and!; [done| |by apply Hrow].
      by rewrite <- stored_ids_keys.
    + intros k v Hl. apply rows_lookup_elem; [by apply sorted_keys_NoDup|].
      by apply Hkeep, rows_lookup_Some.
Qed.

Lemma seeding_is_idempotent_witness :
  (createDB "test-db" 1 (Some test_stores) true test_world =
     (Returns (Resolved (mkConn "test-db" 1)), test_world) ∧
   (length ∘ os_rows) <$> store_in test_world "test-db" "users" = Some 2%nat) ∧
  (let h' := (seed_store [mkSeed (KNum 2) (item "x"); mkSeed (KNum 7) (item "g")]
                (handle items_abc)).2 in
   rows_lookup (KNum 2) (os_rows (h_store h')) = Some (stored_item 2 "b") ∧
   KNum 7 ∈ (os_rows (h_store h')).*1 ∧
   ∀ kv, kv ∈ os_rows (h_store h') →
         kv ∈ os_rows items_abc ∨ kv = (KNum 7, stored_item 7 "g")).
Proof.
  destruct seeding_is_idempotent as (Hopen & _ & Hkeyed).
  split.
  - split; [|reflexivity].
    apply (Hopen "test-db" 1 (Some test_stores) false true empty_world);
      reflexivity.
  - destruct (Hkeyed [mkSeed (KNum 2) (item "x"); mkSeed (KNum 7) (item "g")]
                (handle items_abc) ()
                (seed_store [mkSeed (KNum 2) (item "x"); mkSeed (KNum 7) (item "g")]
                   (handle items_abc)).2)
      as (_ & Hall & Hnew & Hold).
    + reflexivity.
    + apply (bool_decide_unpack _). vm_compute. exact I.
    + apply (bool_decide_unpack _). vm_compute. exact I.
    + reflexivity.
    + split_and!.
      * apply Hold. reflexivity.
      * apply (Hall (mkSeed (KNum 7) (item "g"))).
        apply elem_of_cons. right. apply elem_of_cons. by left.
      * intros kv Hkv. destruct (Hnew kv Hkv) as [?|(it & Hit & Hfresh & ->)];
          [by left|].
        apply elem_of_cons in Hit as [->|Hit].
        { exfalso. apply Hfresh. apply (bool_decide_unpack _). vm_compute.
          exact I. }
        apply elem_of_cons in Hit as [->|Hit]; [by right|].
        by apply elem_of_nil in Hit.
Defined.

(** C5, as the specification has it, fails in a store that is not keyed by
    [id]. The substore [parts] is keyed by [sku] and configured with the
    initial record [{ id: 1, sku: 'A' }]; the first open stores it. After the
    record under the key [A] was overwritten by one with the [id] 99, the
    second open adds the initial record again, although its key [A] is in
    the store: the request fails and the open rejects. And after a record
    with the [id] 1 was put under the key [B] and the record under [A] was
    deleted, the second open resolves and the initial record is not
    inserted, although its key [A] is absent. *)
Lemma seeding_is_idempotent_counterexample :
  createDB "shop" 1 (Some [parts_config]) false empty_world =
    (Returns (Resolved (mkConn "shop" 1)), parts_world [(KStr "A", part "A" 1)]) ∧
  (Util.put parts_util "parts" (part "A" 99)
     (parts_world [(KStr "A", part "A" 1)]) =
     (Resolved (KStr "A"), parts_world [(KStr "A", part "A" 99)]) ∧
   is_Some (rows_lookup (KStr "A") [(KStr "A", part "A" 99)]) ∧
   createDB "shop" 1 (Some [parts_config]) false
     (parts_world [(KStr "A", part "A" 99)]) =
     (Returns (Rejected (LibError (TransactionError "Transaction failed"))),
      parts_world [(KStr "A", part "A" 99)])) ∧
  (Util.put parts_util "parts" (part "B" 1)
     (parts_world [(KStr "A", part "A" 1)]) =
     (Resolved (KStr "B"),
      parts_world [(KStr "A", part "A" 1); (KStr "B", part "B" 1)]) ∧
   Util.delete parts_util "parts" (KStr "A")
     (parts_world [(KStr "A", part "A" 1); (KStr "B", part "B" 1)]) =
     (Resolved (Some (part "A" 1), [part "B" 1]),
      parts_world [(KStr "B", part "B" 1)]) ∧
   rows_lookup (KStr "A") [(KStr "B", part "B" 1)] = None ∧
   createDB "shop" 1 (Some [parts_config]) false
     (parts_world [(KStr "B", part "B" 1)]) =
     (Returns (Resolved (mkConn "shop" 1)),
      parts_world [(KStr "B", part "B" 1)])).
Proof. split_and!; try (vm_compute; reflexivity). by eexists. Qed.

(** ** The scenarios of the specification *)

Example count_empty :
  (countObjectData None (handle items_empty)).1 = Resolved 0.
Proof. reflexivity. Qed.

Example count_after_bulk_insert :
  (countObjectData None
     (bulkAddObjectData [item "a"; item "b"; item "c"; item "d"; item "e"]
        (handle items_empty)).2).1 = Resolved 5.
Proof. reflexivity. Qed.

Example put_then_get :
  (getObjectData (KNum 1) (putObjectData (item "a") (handle items_empty)).2).1 =
    Resolved (Some (stored_item 1 "a")).
Proof. reflexivity. Qed.

Example find_and_replace_missing :
  (updateObjectData "email" (KStr "missing@x.com") (item "q")
     (handle users_two)).1 =
    Rejected (LibError (IndexedDBError
      "There's no object in the users whose email matches missing@x.com.")).
Proof. reflexivity. Qed.

(** ** The library's test of the class *)

Example class_test_init :
  db class_test_util = Some (mkConn "class-test-db" 1) ∧
  (length ∘ os_rows) <$> store_in class_test_world "class-test-db" "users"
    = Some 0%nat.
Proof. split; reflexivity. Qed.

Example class_test_add_get_delete :
  let added := Util.add class_test_util "users" test_user class_test_world in
  added.1 = Resolved [<["id" := VNum 1]> test_user] ∧
  (Util.get class_test_util "users" (KNum 1) added.2).1 =
    Resolved (Some (<["id" := VNum 1]> test_user)) ∧
  (Util.delete class_test_util "users" (KNum 1) added.2).1 =
    Resolved (Some (<["id" := VNum 1]> test_user), []).
Proof. split_and!; reflexivity. Qed.

Example class_test_errors :
  (Util.get class_test_util "users" (KNum 999) class_test_world).1 =
    Resolved None ∧
  (Util.update class_test_util "users" "id" (KNum 999) (item "Test")
     class_test_world).1 =
    Rejected (update_not_found
                (createObjectStore "users" (mkParams (Some "id") true))
                "id" (KNum 999)) ∧
  (Util.delete class_test_util "users" (KNum 999) class_test_world).1 =
    Rejected (delete_not_found (KNum 999)
                (createObjectStore "users" (mkParams (Some "id") true))).
Proof. split_and!; reflexivity. Qed.

(** A rejected insert leaves the database as it was: the error event aborts
    the transaction. *)
Example class_test_insert_rolled_back :
  let added := Util.add class_test_util "users" test_user class_test_world in
  promise_ending (Util.add class_test_util "users" test_user added.2).1 =
    Failed (LibError (IndexedDBError
              (dom_message (ConstraintError_index "email")))) ∧
  w_dbs (Util.add class_test_util "users" test_user added.2).2 = w_dbs added.2.
Proof. split; reflexivity. Qed.

(** * Further properties *)

(** ** The invariants of a store under every record operation *)

Lemma rows_insert_elem k v rows kv :
  kv ∈ rows_insert k v rows → kv = (k, v) ∨ kv ∈ rows.
Proof.
  induction rows as [|[k' v'] rest IH]; simpl.
  - intros ->%list_elem_of_singleton. by left.
  - repeat case_decide; rewrite !elem_of_cons; intros Hin; try tauto.
Qed.

Lemma rows_insert_Forall (P : key * record → Prop) k v rows :
  P (k, v) → Forall P rows → Forall P (rows_insert k v rows).
Proof.
  rewrite !Forall_forall. intros Hk Hrows kv Hin.
  destruct (rows_insert_elem _ _ _ _ Hin) as [->|Hin']; auto.
Qed.

Lemma rows_delete_Forall (P : key * record → Prop) k rows :
  Forall P rows → Forall P (rows_delete k rows).
Proof.
  rewrite !Forall_forall. intros Hrows kv Hin. apply Hrows.
  unfold rows_delete in Hin. by apply list_elem_of_filter in Hin as [_ ?].
Qed.

Lemma assign_key_gen s v ok k v' gen :
  extract_key s v = Returns ok → assign_key s v ok = (k, v', gen) →
  os_keygen s ≤ gen ∧ (os_autoIncrement s = true → key_below gen k).
Proof.
  intros Hex Has. destruct ok as [[n|t]|]; simpl in Has.
  - injection Has as <- _ <-. destruct (os_autoIncrement s); simpl.
    + case_bool_decide; split; try lia; intros _; simpl; lia.
    + split; [lia|done].
  - injection Has as <- _ <-. split; [lia|done].
  - injection Has as <- _ <-. split; [lia|]. intros _. simpl. lia.
Qed.

Lemma key_below_mono gen gen' k : gen ≤ gen' → key_below gen k → key_below gen' k.
Proof. destruct k; simpl; [lia|done]. Qed.

Lemma store_inv_set_rows s gen rows :
  StronglySorted key_lt rows.*1 →
  (∀ p, os_keyPath s = Some p →
        Forall (λ kv, key_of_val (get_field kv.2 p) = Some kv.1) rows) →
  (os_autoIncrement s = true → Forall (λ kv, key_below gen kv.1) rows) →
  store_inv (set_rows s gen rows).
Proof.
  intros Hs Hk Hg. split_and!; [done| |done].
  unfold store_keyed, set_rows. simpl.
  destruct (os_keyPath s); [by apply Hk|done].
Qed.

Lemma store_keyed_rows s p :
  store_keyed s → os_keyPath s = Some p →
  Forall (λ kv, key_of_val (get_field kv.2 p) = Some kv.1) (os_rows s).
Proof. unfold store_keyed. intros H Hp. by rewrite Hp in H. Qed.

Lemma cfg_inv_insert s0 s ok v k v' gen :
  cfg_inv s0 s → extract_key s v = Returns ok →
  assign_key s v ok = (k, v', gen) →
  cfg_inv s0 (set_rows s gen (rows_insert k v' (os_rows s))).
Proof.
  intros [Hcfg (Hwf & Hkeyed & Hgen)] Hex Has. split; [done|].
  destruct (assign_key_gen _ _ _ _ _ _ Hex Has) as [Hle Hbelow].
  apply store_inv_set_rows.
  - by apply rows_insert_sorted.
  - intros p Hp. apply rows_insert_Forall.
    + simpl. by eapply assign_key_keyed.
    + by apply store_keyed_rows.
  - intros Hai. apply rows_insert_Forall; [by apply Hbelow|].
    eapply Forall_impl; [by apply Hgen|].
    intros kv. by apply key_below_mono.
Qed.

Lemma store_add_inv s0 ok v s k s' :
  cfg_inv s0 s → extract_key s0 v = Returns ok →
  store_add ok v s = inr (k, s') → cfg_inv s0 s'.
Proof.
  intros Hinv Hex. rewrite (extract_key_config s0 s) in Hex by apply Hinv.
  unfold store_add. destruct (keygen_exhausted _ _) eqn:Hexh; [done|].
  destruct (assign_key s v ok) as [[k' v'] gen] eqn:Has.
  case_bool_decide; [done|]. destruct (unique_violation _ _ _); [done|].
  intros [= <- <-]. by eapply cfg_inv_insert.
Qed.

Lemma store_put_inv s0 ok v s k s' :
  cfg_inv s0 s → extract_key s0 v = Returns ok →
  store_put ok v s = inr (k, s') → cfg_inv s0 s'.
Proof.
  intros Hinv Hex. rewrite (extract_key_config s0 s) in Hex by apply Hinv.
  unfold store_put. destruct (keygen_exhausted _ _) eqn:Hexh; [done|].
  destruct (assign_key s v ok) as [[k' v'] gen] eqn:Has.
  destruct (unique_violation _ _ _); [done|].
  intros [= <- <-]. by eapply cfg_inv_insert.
Qed.

Lemma store_update_inv s0 pk v s k s' :
  cfg_inv s0 s → cursor_update_check s pk v = Returns () →
  pk ∈ (os_rows s).*1 →
  store_update pk v s = inr (k, s') → cfg_inv s0 s'.
Proof.
  intros [Hcfg (Hwf & Hkeyed & Hgen)] Hcheck Hin. unfold store_update.
  destruct (unique_violation _ _ _); [done|]. intros [= <- <-].
  split; [done|]. apply store_inv_set_rows.
  - by apply rows_insert_sorted.
  - intros p Hp. apply rows_insert_Forall; [|by apply store_keyed_rows].
    unfold cursor_update_check in Hcheck. rewrite Hp in Hcheck.
    by case_decide.
  - intros Hai. specialize (Hgen Hai).
    apply rows_insert_Forall; [|done]. simpl.
    apply list_elem_of_fmap in Hin as ([k0 v0] & -> & Hin).
    rewrite Forall_forall in Hgen. by apply (Hgen _ Hin).
Qed.

Lemma store_delete_inv s0 k s u s' :
  cfg_inv s0 s → store_delete k s = inr (u, s') → cfg_inv s0 s'.
Proof.
  intros [Hcfg (Hwf & Hkeyed & Hgen)] [= <- <-]. split; [done|].
  apply store_inv_set_rows.
  - by apply rows_delete_sorted.
  - intros p Hp. by apply rows_delete_Forall, store_keyed_rows.
  - intros Hai. by apply rows_delete_Forall, Hgen.
Qed.

Lemma store_clear_inv s0 s u s' :
  cfg_inv s0 s → store_clear s = inr (u, s') → cfg_inv s0 s'.
Proof.
  intros [Hcfg _] [= <- <-]. split; [done|].
  apply store_inv_set_rows; by constructor.
Qed.

Lemma store_inv_new name config : store_inv (createObjectStore name config).
Proof.
  split_and!; [constructor| |by constructor].
  unfold store_keyed. simpl. by destruct (keyPath config).
Qed.

Lemma keeps_inv_ret {A} s0 (a : A) : keeps_inv s0 (mret a).
Proof. by intros h. Qed.

Lemma keeps_inv_bind {A B} s0 (op : Host A) (f : A → Host B) :
  keeps_inv s0 op → (∀ a, keeps_inv s0 (f a)) → keeps_inv s0 (op ≫= f).
Proof.
  intros Hop Hf h Hinv. unfold mbind, Host_bind.
  specialize (Hop h Hinv). destruct (op h) as [a h1]. by apply Hf.
Qed.

Lemma keeps_inv_request {A} s0
    (run : IDBObjectStore → DOMException + (A * IDBObjectStore)) :
  (∀ s a s', cfg_inv s0 s → run s = inr (a, s') → cfg_inv s0 s') →
  keeps_inv s0 (request run).
Proof.
  intros Hrun h Hinv. unfold request.
  destruct (h_io h) as [|[e|] io]; [|done|];
    (destruct (run (h_store h)) as [e|[a s']] eqn:Hr; [done|by eapply Hrun]).
Qed.

Lemma keeps_inv_read {A} s0 (f : IDBObjectStore → A) :
  keeps_inv s0 (request (λ s, inr (f s, s))).
Proof. apply keeps_inv_request. by intros s a s' Hinv [= _ <-]. Qed.

Lemma keeps_inv_get_store {A} s0 (f : IDBObjectStore → Host A) :
  (∀ s, cfg_inv s0 s → keeps_inv s0 (f s)) → keeps_inv s0 (get_store ≫= f).
Proof. intros Hf h Hinv. unfold mbind, Host_bind, get_store. by apply Hf. Qed.

Lemma keeps_inv_store_add s0 ok data :
  extract_key s0 data = Returns ok → keeps_inv s0 (request (store_add ok data)).
Proof.
  intros Hex. apply keeps_inv_request. intros s k s' Hinv.
  by apply store_add_inv.
Qed.

Lemma extract_key_cfg s0 s data :
  cfg_inv s0 s → extract_key s0 data = extract_key s data.
Proof. intros [Hcfg _]. by apply extract_key_config. Qed.

Lemma getAllObjectData_inv s0 : keeps_inv s0 getAllObjectData.
Proof.
  unfold getAllObjectData. apply keeps_inv_bind; [apply (keeps_inv_read _ _)|].
  intros [e|result]; apply keeps_inv_ret.
Qed.

Lemma getObjectData_inv s0 k : keeps_inv s0 (getObjectData k).
Proof.
  unfold getObjectData. apply keeps_inv_bind; [apply (keeps_inv_read _ _)|].
  intros [e|result]; apply keeps_inv_ret.
Qed.

Lemma countObjectData_inv s0 keyRange : keeps_inv s0 (countObjectData keyRange).
Proof.
  unfold countObjectData. apply keeps_inv_bind; [apply (keeps_inv_read _ _)|].
  intros [e|result]; apply keeps_inv_ret.
Qed.

Lemma query_cursor_inv s0 offset limit cursor :
  ∀ skipped counted results,
    keeps_inv s0 (query_cursor offset limit cursor skipped counted results).
Proof.
  induction cursor as [|[pk value] rest IH]; intros; simpl;
    (apply keeps_inv_bind; [apply (keeps_inv_read _ _)|]);
    intros [e|[]]; try apply keeps_inv_ret.
  case_bool_decide; [apply IH|].
  destruct (limit_reached limit counted); [apply keeps_inv_ret|apply IH].
Qed.

Lemma queryObjectData_inv s0 options : keeps_inv s0 (queryObjectData options).
Proof.
  unfold queryObjectData. apply keeps_inv_get_store. intros s _.
  destruct (query_source _ _); [apply keeps_inv_ret|].
  apply query_cursor_inv.
Qed.

Lemma addObjectData_inv s0 data : keeps_inv s0 (addObjectData data).
Proof.
  unfold addObjectData. apply keeps_inv_get_store. intros s Hs.
  destruct (extract_key s data) as [e|ok] eqn:Hex; [apply keeps_inv_ret|].
  rewrite <- (extract_key_cfg s0) in Hex by done.
  apply keeps_inv_bind; [by apply keeps_inv_store_add|].
  intros [e|k]; [apply keeps_inv_ret|apply getAllObjectData_inv].
Qed.

Lemma putObjectData_inv s0 data : keeps_inv s0 (putObjectData data).
Proof.
  unfold putObjectData. apply keeps_inv_get_store. intros s Hs.
  destruct (extract_key s data) as [e|ok] eqn:Hex; [apply keeps_inv_ret|].
  rewrite <- (extract_key_cfg s0) in Hex by done.
  apply keeps_inv_bind.
  - apply keeps_inv_request. intros s1 k s' Hinv. by apply store_put_inv.
  - intros [e|k]; apply keeps_inv_ret.
Qed.

Lemma place_adds_placed s dataArray :
  Forall (λ p, extract_key s p.2 = Returns p.1) (place_adds s dataArray).1.
Proof.
  induction dataArray as [|data rest IH]; simpl; [constructor|].
  destruct (extract_key s data) as [e|ok] eqn:Hex; [constructor|].
  destruct (place_adds s rest) as [placed thrown]. by constructor.
Qed.

Lemma run_adds_inv s0 total placed :
  Forall (λ p, extract_key s0 p.2 = Returns p.1) placed →
  ∀ index completed results,
    keeps_inv s0 (run_adds total placed index completed results).
Proof.
  induction 1 as [|[ok data] rest Hex Hrest IH]; intros; simpl;
    [apply keeps_inv_ret|].
  apply keeps_inv_bind; [by apply keeps_inv_store_add|].
  intros [e|k]; [apply keeps_inv_ret|].
  case_decide; [apply keeps_inv_ret|apply IH].
Qed.

Lemma place_adds_placed_cfg s0 s dataArray :
  cfg_inv s0 s →
  Forall (λ p, extract_key s0 p.2 = Returns p.1) (place_adds s dataArray).1.
Proof.
  intros Hs. eapply Forall_impl; [apply place_adds_placed|].
  intros p Hp. simpl in Hp. by rewrite (extract_key_cfg s0 s).
Qed.

Lemma bulkAddObjectData_inv s0 dataArray :
  keeps_inv s0 (bulkAddObjectData dataArray).
Proof.
  unfold bulkAddObjectData. destruct dataArray as [|data rest];
    [apply keeps_inv_ret|].
  apply keeps_inv_get_store. intros s Hs.
  pose proof (place_adds_placed_cfg s0 s (data :: rest) Hs) as Hplaced.
  destruct (place_adds s (data :: rest)) as [placed thrown].
  apply keeps_inv_bind; [by apply run_adds_inv|].
  intros p. destruct thrown; apply keeps_inv_ret.
Qed.

Lemma run_seed_inv s0 placed :
  Forall (λ p, extract_key s0 p.2 = Returns p.1) placed →
  keeps_inv s0 (run_seed placed).
Proof.
  induction 1 as [|[ok data] rest Hex Hrest IH]; simpl; [apply keeps_inv_ret|].
  apply keeps_inv_bind; [by apply keeps_inv_store_add|].
  intros [e|k]; [apply keeps_inv_ret|apply IH].
Qed.

Lemma seed_store_inv s0 data : keeps_inv s0 (seed_store data).
Proof.
  unfold seed_store. apply keeps_inv_bind; [apply (keeps_inv_read _ _)|].
  intros [e|existingData]; [apply keeps_inv_ret|].
  apply keeps_inv_get_store. intros s Hs.
  match goal with |- context [place_adds s ?l] =>
    pose proof (place_adds_placed_cfg s0 s l Hs) as Hplaced;
    destruct (place_adds s l) as [placed thrown]
  end.
  apply keeps_inv_bind; [by apply run_seed_inv|].
  intros p. destruct thrown; apply keeps_inv_ret.
Qed.

(** A request leaves the store as it is or as its algorithm made it. *)
Lemma request_store {A}
    (run : IDBObjectStore → DOMException + (A * IDBObjectStore)) h :
  (∃ e, (request run h).1 = inl e ∧ h_store (request run h).2 = h_store h ∧
        h_aborted (request run h).2 = true) ∨
  (∃ a s', run (h_store h) = inr (a, s') ∧
           request run h = (inr a, mkHost s' (tail (h_io h)) (h_aborted h))).
Proof.
  unfold request. destruct (h_io h) as [|[e|] io]; simpl.
  - destruct (run (h_store h)) as [e|[a s']]; [left|right]; eauto.
  - left. eauto.
  - destruct (run (h_store h)) as [e|[a s']]; [left|right]; eauto.
Qed.

Lemma cursor_event_store h : h_store (cursor_event h).2 = h_store h.
Proof.
  unfold cursor_event.
  destruct (request_store (λ s, inr ((), s)) h) as [(e & _ & Hs & _)|(a & s' & Hr & ->)];
    [done|]. by injection Hr as _ <-.
Qed.

Lemma update_cursor_inv s0 keyPath k newData cursor :
  ∀ h, cfg_inv s0 (h_store h) →
       cursor.*1 ⊆ (os_rows (h_store h)).*1 →
       cfg_inv s0 (h_store (update_cursor keyPath k newData cursor h).2).
Proof.
  induction cursor as [|[pk value] rest IH]; intros h Hinv Hsub; simpl;
    unfold mbind, Host_bind;
    pose proof (cursor_event_store h) as Hst;
    destruct (cursor_event h) as [[e|[]] h1]; simpl in Hst;
    try (simpl; by rewrite Hst).
  destruct (strict_eq _ _).
  - unfold get_store.
    destruct (cursor_update_check (h_store h1) pk newData) as [e|[]] eqn:Hcheck.
    { simpl. by rewrite Hst. }
    pose proof (keeps_inv_request s0 (store_update pk newData)) as Hreq.
    assert (cfg_inv s0 (h_store (request (store_update pk newData) h1).2)) as Hinv'.
    { destruct (request_store (store_update pk newData) h1)
        as [(e & _ & Hs & _)|(a & s' & Hr & Heq)].
      - rewrite Hs, Hst. done.
      - rewrite Heq. simpl. eapply store_update_inv; [|exact Hcheck| |exact Hr].
        + by rewrite Hst.
        + rewrite Hst. apply Hsub. simpl. apply elem_of_cons. by left. }
    destruct (request (store_update pk newData) h1) as [[e|k0] h2]; [done|].
    by apply getAllObjectData_inv.
  - apply IH; [by rewrite Hst|]. rewrite Hst. intros x Hx. apply Hsub.
    simpl. apply elem_of_cons. by right.
Qed.

Lemma updateObjectData_inv s0 keyPath k newData :
  keeps_inv s0 (updateObjectData keyPath k newData).
Proof.
  intros h Hinv. unfold updateObjectData, updateObjectData_between.
  unfold mbind at 1. unfold Host_bind.
  pose proof (getAllObjectData_inv s0 h Hinv) as Hinv1.
  destruct (getAllObjectData h) as [[allData|e|] h1]; try done.
  destruct (find _ allData); [|done].
  simpl. by apply update_cursor_inv.
Qed.

Lemma deleteObjectData_inv s0 k : keeps_inv s0 (deleteObjectData k).
Proof.
  unfold deleteObjectData. apply keeps_inv_bind; [apply getObjectData_inv|].
  intros [[v|]|e|]; try apply keeps_inv_ret.
  - apply keeps_inv_bind.
    + apply keeps_inv_request. intros s1 u s' Hinv. by apply store_delete_inv.
    + intros [e|u]; [apply keeps_inv_ret|].
      apply keeps_inv_bind; [apply getAllObjectData_inv|].
      intros [allData|e|]; apply keeps_inv_ret.
  - apply keeps_inv_get_store. intros s _. apply keeps_inv_ret.
Qed.

Lemma clearObjectStore_inv s0 : keeps_inv s0 clearObjectStore.
Proof.
  unfold clearObjectStore. apply keeps_inv_bind.
  - apply keeps_inv_request. intros s1 u s' Hinv. by apply store_clear_inv.
  - intros [e|u]; apply keeps_inv_ret.
Qed.

Lemma run_op_inv s0 op h :
  cfg_inv s0 (h_store h) → cfg_inv s0 (h_store (run_op op h)).
Proof.
  destruct op; simpl.
  - apply getObjectData_inv.
  - apply getAllObjectData_inv.
  - apply queryObjectData_inv.
  - apply countObjectData_inv.
  - apply addObjectData_inv.
  - apply putObjectData_inv.
  - apply bulkAddObjectData_inv.
  - apply updateObjectData_inv.
  - apply deleteObjectData_inv.
  - apply clearObjectStore_inv.
  - apply seed_store_inv.
Qed.

Lemma run_ops_inv s0 ops :
  ∀ h, cfg_inv s0 (h_store h) → cfg_inv s0 (h_store (run_ops ops h)).
Proof.
  induction ops as [|op rest IH]; intros h Hinv; [done|].
  simpl. apply IH. by apply run_op_inv.
Qed.

Lemma createIndex_inv indexConfig s s' :
  createIndex indexConfig s = Some s' →
  os_rows s' = os_rows s ∧ os_keyPath s' = os_keyPath s ∧
  os_autoIncrement s' = os_autoIncrement s ∧ os_keygen s' = os_keygen s ∧
  os_name s' = os_name s ∧
  os_indices s' =
    os_indices s ++ [mkIndex (ic_name indexConfig) (ic_keyPath indexConfig)
                       (ic_unique indexConfig)].
Proof. unfold createIndex. case_match; [done|]. by intros [= <-]. Qed.

(** X1. The invariants of a store hold for every store the library can reach.
    A store made by [createObjectStore] satisfies them, [createIndex] keeps
    them, and so does every sequence of record operations on a store handle,
    whatever each operation's outcome and whatever the host fails: the keys
    ascend strictly (no key twice), with in-line keys a record carries its
    key at the key path, and the key generator is above every numeric key
    as far as the generator goes: above [min(key, 2^53)], since a key beyond
    2^53 leaves the generator at 2^53 + 1. The key path and the
    auto-increment flag of the store never change. *)
Theorem store_invariants_kept :
  (∀ name config, store_inv (createObjectStore name config)) ∧
  (∀ indexConfig s s',
     createIndex indexConfig s = Some s' → store_inv s → store_inv s') ∧
  (∀ ops h, store_inv (h_store h) →
            store_inv (h_store (run_ops ops h)) ∧
            same_config (h_store h) (h_store (run_ops ops h))).
Proof.
  split_and!.
  - apply store_inv_new.
  - intros ic s s' (Hrows & Hp & Ha & Hg & _)%createIndex_inv (Hwf & Hk & Hgen).
    unfold store_inv, store_wf, store_keyed, keygen_above.
    rewrite Hrows, Hp, Ha, Hg. done.
  - intros ops h Hinv.
    destruct (run_ops_inv (h_store h) ops h) as [? ?]; [by split|done].
Qed.

Lemma store_invariants_kept_witness :
  store_inv (h_store (run_ops [OpAdd (item "a"); OpPut (stored_item 7 "b");
                               OpDelete (KNum 1); OpAdd (item "c")]
                        (handle items_empty))) ∧
  os_rows (h_store (run_ops [OpAdd (item "a"); OpPut (stored_item 7 "b");
                             OpDelete (KNum 1); OpAdd (item "c")]
                      (handle items_empty))) =
    [(KNum 7, stored_item 7 "b"); (KNum 8, stored_item 8 "c")] ∧
  store_inv (h_store (run_ops [OpPut (stored_item 9007199254740994 "z");
                               OpAdd (item "c")] (handle items_empty))) ∧
  h_store (run_ops [OpPut (stored_item 9007199254740994 "z"); OpAdd (item "c")]
             (handle items_empty)) =
    mkStore "items" (Some "id") true 9007199254740993 []
      [(KNum 9007199254740994, stored_item 9007199254740994 "z")].
Proof.
  assert (store_inv items_empty) as Hinv
    by (apply (bool_decide_unpack _); vm_compute; exact I).
  split_and!; [|reflexivity| |reflexivity].
  - apply (proj2 (proj2 store_invariants_kept)). exact Hinv.
  - apply (proj2 (proj2 store_invariants_kept)). exact Hinv.
Defined.

(** ** Upsert and lookup *)

Lemma host_quiet_eta h : h_io h = [] → mkHost (h_store h) [] (h_aborted h) = h.
Proof. intros <-. apply host_eta. Qed.

Lemma getObjectData_quiet h k :
  h_io h = [] →
  getObjectData k h = (Resolved (rows_lookup k (os_rows (h_store h))), h).
Proof.
  intros Hio. unfold getObjectData, mbind, Host_bind.
  rewrite request_quiet by done. simpl. by rewrite host_quiet_eta.
Qed.

Lemma putObjectData_quiet h data :
  h_io h = [] →
  putObjectData data h =
    match extract_key (h_store h) data with
    | Throws e => (Rejected e, h)
    | Returns ok =>
        match store_put ok data (h_store h) with
        | inl d =>
            (Rejected (LibError (IndexedDBError
               (message_or d "Failed to put data"))),
             mkHost (h_store h) [] true)
        | inr (k, s') => (Resolved k, mkHost s' [] (h_aborted h))
        end
    end.
Proof.
  intros Hio. unfold putObjectData, mbind, Host_bind, get_store.
  destruct (extract_key (h_store h) data) as [e|ok]; [done|].
  rewrite request_quiet by done.
  by destruct (store_put ok data (h_store h)) as [d|[k s']].
Qed.

Lemma putObjectData_resolved h data k h' :
  h_io h = [] → putObjectData data h = (Resolved k, h') →
  ∃ ok v gen,
    extract_key (h_store h) data = Returns ok ∧
    assign_key (h_store h) data ok = (k, v, gen) ∧
    unique_violation (h_store h) k v = None ∧
    h' = mkHost (set_rows (h_store h) gen (rows_insert k v (os_rows (h_store h))))
           [] (h_aborted h).
Proof.
  intros Hio. rewrite putObjectData_quiet by done.
  destruct (extract_key (h_store h) data) as [e|ok] eqn:Hex; [done|].
  unfold store_put. destruct (keygen_exhausted _ _) eqn:Hexh; [done|].
  destruct (assign_key (h_store h) data ok) as [[k0 v] gen] eqn:Has.
  destruct (unique_violation (h_store h) k0 v) eqn:Hu; [done|].
  intros [= <- <-]. by exists ok, v, gen.
Qed.

(** X2. Round trip of [putObjectData] and [getObjectData]. On a host that
    does not fail, when [putObjectData] resolves with a key, [getObjectData]
    on that key resolves with a record: it carries the key at the key path,
    it agrees with the input on every other field, it is the input itself
    when the input had a value at the key path, and the records under other
    keys are as before. *)
Theorem put_then_get_round_trip h data k h' :
  h_io h = [] →
  putObjectData data h = (Resolved k, h') →
  ∃ v, getObjectData k h' = (Resolved (Some v), h') ∧
       (∀ p, os_keyPath (h_store h) = Some p →
             key_of_val (get_field v p) = Some k) ∧
       (∀ f, os_keyPath (h_store h) ≠ Some f →
             get_field v f = get_field data f) ∧
       (∀ p, os_keyPath (h_store h) = Some p →
             get_field data p ≠ VUndefined → v = data) ∧
       (∀ k', k' ≠ k →
          rows_lookup k' (os_rows (h_store h')) =
          rows_lookup k' (os_rows (h_store h))).
Proof.
  intros Hio Hput.
  destruct (putObjectData_resolved _ _ _ _ Hio Hput)
    as (ok & v & gen & Hex & Has & _ & ->).
  exists v. split_and!.
  - rewrite getObjectData_quiet by done. simpl. by rewrite rows_lookup_insert.
  - intros p Hp. by eapply assign_key_keyed.
  - intros f Hf. by eapply assign_key_fields.
  - intros p Hp Hdef. destruct ok as [k0|].
    + simpl in Has. by injection Has as _ <- _.
    + apply extract_key_None in Hex as [_ Hun]. by rewrite (Hun p Hp) in Hdef.
  - intros k' Hne. simpl. by apply rows_lookup_insert_ne.
Qed.

Lemma put_then_get_round_trip_witness :
  ∃ v, getObjectData (KNum 4) (putObjectData (item "d") (handle items_abc)).2 =
         (Resolved (Some v), (putObjectData (item "d") (handle items_abc)).2) ∧
       get_field v "id" = VNum 4 ∧ get_field v "name" = VStr "d".
Proof.
  destruct (put_then_get_round_trip (handle items_abc) (item "d") (KNum 4)
              (putObjectData (item "d") (handle items_abc)).2 eq_refl eq_refl)
    as (v & Hget & Hkey & Hfields & _).
  exists v. split; [exact Hget|]. split.
  - specialize (Hkey "id" eq_refl). by apply key_of_val_inv in Hkey.
  - rewrite (Hfields "name"); [reflexivity|discriminate].
Defined.

Lemma rows_lookup_is_Some k rows : is_Some (rows_lookup k rows) ↔ k ∈ rows.*1.
Proof.
  destruct (rows_lookup k rows) as [v|] eqn:Hl.
  - split; [intros _|by eauto]. apply rows_lookup_Some in Hl.
    apply list_elem_of_fmap. by exists (k, v).
  - apply rows_lookup_None in Hl. split; [by intros [??]|done].
Qed.

(** X3. [putObjectData] is an upsert. For a record that carries a valid key
    at the key path and breaks no unique index, on a host that does not
    fail, it resolves with that key, never rejecting for the key being
    there: the record replaces the one of that key (the number of records
    stays) or is inserted (one record more); other records stay, and the
    transaction is not aborted. *)
Theorem put_overwrites_or_inserts h data p k :
  h_io h = [] →
  store_wf (h_store h) →
  os_keyPath (h_store h) = Some p →
  key_of_val (get_field data p) = Some k →
  unique_violation (h_store h) k data = None →
  ∃ h', putObjectData data h = (Resolved k, h') ∧
        rows_lookup k (os_rows (h_store h')) = Some data ∧
        (∀ k', k' ≠ k →
           rows_lookup k' (os_rows (h_store h')) =
           rows_lookup k' (os_rows (h_store h))) ∧
        length (os_rows (h_store h')) =
          match rows_lookup k (os_rows (h_store h)) with
          | Some _ => length (os_rows (h_store h))
          | None => S (length (os_rows (h_store h)))
          end ∧
        h_aborted h' = h_aborted h.
Proof.
  intros Hio Hwf Hp Hk Hu.
  destruct (extract_key_inline _ _ _ _ Hp Hk) as [Hex [gen Has]].
  rewrite putObjectData_quiet, Hex by done. unfold store_put.
  rewrite Has, Hu. eexists. split; [done|]. simpl. split_and!.
  - apply rows_lookup_insert.
  - intros k' Hne. by apply rows_lookup_insert_ne.
  - destruct (rows_lookup k (os_rows (h_store h))) eqn:Hl.
    + apply rows_insert_present; [done|]. apply rows_lookup_is_Some. by eauto.
    + by rewrite (rows_insert_absent _ _ _ Hl).
  - done.
Qed.

Lemma put_overwrites_or_inserts_witness :
  ∃ h', putObjectData (stored_item 2 "z") (handle items_abc) =
          (Resolved (KNum 2), h') ∧
        rows_lookup (KNum 2) (os_rows (h_store h')) = Some (stored_item 2 "z") ∧
        length (os_rows (h_store h')) = 3%nat.
Proof.
  destruct (put_overwrites_or_inserts (handle items_abc) (stored_item 2 "z")
              "id" (KNum 2)) as (h' & Hput & Hget & _ & Hlen & _).
  - reflexivity.
  - apply (bool_decide_unpack _). vm_compute. exact I.
  - reflexivity.
  - reflexivity.
  - reflexivity.
  - exists h'. split; [exact Hput|]. split; [exact Hget|exact Hlen].
Defined.

(** ** Insert, then delete *)

Lemma rows_delete_insert k v rows :
  k ∉ rows.*1 → rows_delete k (rows_insert k v rows) = rows.
Proof.
  unfold rows_delete. induction rows as [|[k' v'] rest IH]; simpl; intros Hk.
  - rewrite filter_cons, decide_False by (simpl; tauto). done.
  - rewrite not_elem_of_cons in Hk. destruct Hk as [Hne Hk].
    assert (filter (λ kv : key * record, kv.1 ≠ k) rest = rest) as Hrest.
    { apply filter_all. apply Forall_forall. intros [k1 v1] Hin Heq.
      simpl in Heq. subst k1. apply Hk. apply list_elem_of_fmap.
      by exists (k, v1). }
    repeat case_decide; try congruence.
    + rewrite filter_cons, decide_False by (simpl; tauto).
      rewrite filter_cons, decide_True by (simpl; congruence).
      by rewrite Hrest.
    + rewrite filter_cons, decide_True by (simpl; congruence).
      by rewrite IH.
Qed.

Lemma addObjectData_resolved h data result h' :
  h_io h = [] → addObjectData data h = (Resolved result, h') →
  ∃ ok k v gen,
    extract_key (h_store h) data = Returns ok ∧
    assign_key (h_store h) data ok = (k, v, gen) ∧
    rows_lookup k (os_rows (h_store h)) = None ∧
    unique_violation (h_store h) k v = None ∧
    h' = mkHost (set_rows (h_store h) gen (rows_insert k v (os_rows (h_store h))))
           [] (h_aborted h) ∧
    result = (rows_insert k v (os_rows (h_store h))).*2.
Proof.
  intros Hio. rewrite addObjectData_quiet by done.
  destruct (extract_key (h_store h) data) as [e|ok] eqn:Hex; [done|].
  unfold store_add. destruct (keygen_exhausted _ _) eqn:Hexh; [done|].
  destruct (assign_key (h_store h) data ok) as [[k0 v] gen] eqn:Has.
  case_bool_decide as Hl; [done|].
  destruct (unique_violation (h_store h) k0 v) eqn:Hu; [done|].
  intros [= <- <-]. exists ok, k0, v, gen. split_and!; try done.
  destruct (rows_lookup k0 _) eqn:Hl'; [|done]. exfalso. apply Hl. by eauto.
Qed.

(** X4. Insert, then delete. On a host that does not fail, when
    [addObjectData] resolves, [deleteObjectData] on the key the record was
    stored under resolves with that record and with the records as they
    were before the insert, and the store holds exactly those again. The
    key generator does not go back. *)
Theorem add_then_delete_restores h data result h1 :
  h_io h = [] →
  addObjectData data h = (Resolved result, h1) →
  ∃ k v h2,
    rows_lookup k (os_rows (h_store h)) = None ∧
    rows_lookup k (os_rows (h_store h1)) = Some v ∧
    deleteObjectData k h1 =
      (Resolved (Some v, (os_rows (h_store h)).*2), h2) ∧
    os_rows (h_store h2) = os_rows (h_store h) ∧
    os_keygen (h_store h) ≤ os_keygen (h_store h2).
Proof.
  intros Hio Hadd.
  destruct (addObjectData_resolved _ _ _ _ Hio Hadd)
    as (ok & k & v & gen & Hex & Has & Hl & _ & -> & _).
  exists k, v. eexists. split; [done|]. split; [apply rows_lookup_insert|].
  unfold deleteObjectData, mbind at 1. unfold Host_bind.
  rewrite getObjectData_quiet by done. simpl. rewrite rows_lookup_insert.
  unfold mbind, Host_bind. rewrite request_quiet by done. simpl.
  rewrite rows_delete_insert by (by apply rows_lookup_None).
  split_and!; [done|done|]. simpl.
  by destruct (assign_key_gen _ _ _ _ _ _ Hex Has).
Qed.

Lemma add_then_delete_restores_witness :
  ∃ k v h2,
    deleteObjectData k (addObjectData (item "d") (handle items_abc)).2 =
      (Resolved (Some v, (os_rows items_abc).*2), h2) ∧
    os_rows (h_store h2) = os_rows items_abc.
Proof.
  destruct (add_then_delete_restores (handle items_abc) (item "d")
              [stored_item 1 "a"; stored_item 2 "b"; stored_item 3 "c";
               stored_item 4 "d"]
              (addObjectData (item "d") (handle items_abc)).2 eq_refl eq_refl)
    as (k & v & h2 & _ & _ & Hdel & Hrows & _).
  exists k, v, h2. split; [exact Hdel|exact Hrows].
Defined.

(** ** The order of [getAll] *)

(** X5. The order of [getAllObjectData]. For a store with in-line keys that
    satisfies the invariants, on a host that does not fail, it resolves with
    every record, in the strictly ascending order of the keys the records
    carry at the key path. *)
Theorem getAll_ascending h p :
  h_io h = [] →
  store_inv (h_store h) →
  os_keyPath (h_store h) = Some p →
  ∃ result keys,
    getAllObjectData h = (Resolved result, h) ∧
    Forall2 (λ r k, key_of_val (get_field r p) = Some k) result keys ∧
    StronglySorted key_lt keys ∧
    length result = length (os_rows (h_store h)).
Proof.
  intros Hio (Hwf & Hkeyed & _) Hp.
  exists (os_rows (h_store h)).*2, (os_rows (h_store h)).*1.
  split; [by apply getAllObjectData_quiet|]. split; [|split; [done|]].
  - pose proof (store_keyed_rows _ _ Hkeyed Hp) as Hall.
    induction Hall as [|[k v] rest Hkv Hrest IH]; simpl; by constructor.
  - by rewrite length_fmap.
Qed.

Lemma getAll_ascending_witness :
  ∃ result keys,
    getAllObjectData (handle users_two) = (Resolved result, handle users_two) ∧
    Forall2 (λ r k, key_of_val (get_field r "id") = Some k) result keys ∧
    StronglySorted key_lt keys ∧
    length result = 2%nat.
Proof.
  apply (getAll_ascending (handle users_two) "id"); [reflexivity| |reflexivity].
  apply (bool_decide_unpack _). vm_compute. exact I.
Defined.

(** ** Generated keys *)

Lemma keygen_fresh s :
  keygen_above s → os_autoIncrement s = true → os_keygen s ≤ max_keygen →
  rows_lookup (KNum (os_keygen s)) (os_rows s) = None.
Proof.
  intros Hgen Hai Hmax. apply rows_lookup_None. intros Hin.
  apply list_elem_of_fmap in Hin as ([k v] & Hk & Hin). simpl in Hk. subst k.
  specialize (Hgen Hai). rewrite Forall_forall in Hgen.
  specialize (Hgen _ Hin). simpl in Hgen. lia.
Qed.

(** X6. Generated keys are fresh. When [addObjectData] has to ask the key
    generator (the record has no value at the key path, or the store has
    out-of-line keys), on a store that satisfies the invariants and a host
    that does not fail: once the generator has passed 2^53 the insert is
    refused with the host's constraint error and the store is left as it
    was. Below that, the generated key is not in the store: the insert can
    only be refused by a unique index. Otherwise it resolves, the record is
    stored under the generator's number (injected at the key path), the
    generator advances by one and the invariants hold again. *)
Theorem add_generated_key_fresh h data :
  h_io h = [] →
  store_inv (h_store h) →
  extract_key (h_store h) data = Returns None →
  let s := h_store h in
  let k := KNum (os_keygen s) in
  let v := match os_keyPath s with
           | Some p => <[p := VNum (os_keygen s)]> data
           | None => data
           end in
  if bool_decide (max_keygen < os_keygen s) then
    addObjectData data h =
      (Rejected (LibError (IndexedDBError (dom_message ConstraintError_keygen))),
       mkHost s [] true)
  else
    rows_lookup k (os_rows s) = None ∧
    match unique_violation s k v with
    | None =>
        ∃ h', addObjectData data h = (Resolved (os_rows (h_store h')).*2, h') ∧
              os_rows (h_store h') = rows_insert k v (os_rows s) ∧
              rows_lookup k (os_rows (h_store h')) = Some v ∧
              os_keygen (h_store h') = os_keygen s + 1 ∧
              store_inv (h_store h')
    | Some idx =>
        addObjectData data h =
          (Rejected (LibError (IndexedDBError
             (dom_message (ConstraintError_index (idx_name idx))))),
           mkHost s [] true)
    end.
Proof.
  intros Hio Hinv Hex s k v.
  pose proof (extract_key_None _ _ Hex) as [Hai _].
  case_bool_decide as Hmax.
  { rewrite addObjectData_quiet, Hex by done. unfold store_add. simpl.
    fold s. rewrite bool_decide_eq_true_2 by done.
    by rewrite message_or_keygen. }
  assert (rows_lookup k (os_rows s) = None) as Hfresh.
  { apply keygen_fresh; [apply Hinv|done|lia]. }
  split; [done|].
  pose proof (addObjectData_inv s data h (conj (conj eq_refl eq_refl) Hinv)) as Hinv'.
  revert Hinv'.
  rewrite addObjectData_quiet, Hex by done. unfold store_add. simpl.
  fold s. rewrite bool_decide_eq_false_2 by done.
  fold k. fold v. rewrite Hfresh. simpl.
  destruct (unique_violation s k v) as [idx|].
  { intros _. by rewrite message_or_index. }
  intros [_ Hinv'].
  exists (mkHost (set_rows s (os_keygen s + 1) (rows_insert k v (os_rows s)))
            [] (h_aborted h)).
  split_and!; try done. apply rows_lookup_insert.
Qed.

Lemma add_generated_key_fresh_witness :
  (∃ h', addObjectData (item "d") (handle items_abc) =
           (Resolved (os_rows (h_store h')).*2, h') ∧
         rows_lookup (KNum 4) (os_rows (h_store h')) = Some (stored_item 4 "d") ∧
         os_keygen (h_store h') = 5) ∧
  (∃ h', addObjectData (item "y") (handle items_last) =
           (Resolved [stored_item 9007199254740992 "y"], h') ∧
         os_keygen (h_store h') = 9007199254740993) ∧
  addObjectData (item "e") (handle items_full) =
    (Rejected (LibError (IndexedDBError "Maximum key generator value reached.")),
     mkHost items_full [] true).
Proof.
  assert (store_inv items_abc) as Habc
    by (apply (bool_decide_unpack _); vm_compute; exact I).
  assert (store_inv items_last) as Hlast
    by (apply (bool_decide_unpack _); vm_compute; exact I).
  assert (store_inv items_full) as Hfull
    by (apply (bool_decide_unpack _); vm_compute; exact I).
  split_and!.
  - pose proof (add_generated_key_fresh (handle items_abc) (item "d")
                  eq_refl Habc eq_refl) as Hadd.
    destruct Hadd as [_ (h' & Hres & _ & Hget & Hgen & _)].
    exists h'. split; [exact Hres|]. split; [exact Hget|exact Hgen].
  - pose proof (add_generated_key_fresh (handle items_last) (item "y")
                  eq_refl Hlast eq_refl) as Hadd.
    destruct Hadd as [_ (h' & Hres & Hrows & _ & Hgen & _)].
    exists h'. split; [|exact Hgen].
    rewrite Hres, Hrows. reflexivity.
  - exact (add_generated_key_fresh (handle items_full) (item "e")
             eq_refl Hfull eq_refl).
Defined.

(** ** Queries: defaults, pages, unknown indices *)

Lemma queryObjectData_quiet options h source :
  h_io h = [] →
  query_source (h_store h) (q_index options) = Returns source →
  queryObjectData options h =
    (Resolved
       (page_from (default 0 (q_offset options)) (q_limit options) 0
          (cursor_records (h_store h) source
             (default Next (q_direction options)))), h).
Proof.
  intros Hio Hsrc. unfold queryObjectData, mbind, Host_bind, get_store.
  rewrite Hsrc.
  destruct (query_cursor_quiet (default 0 (q_offset options)) (q_limit options)
              (cursor_records (h_store h) source
                 (default Next (q_direction options))) 0 0 [] h Hio)
    as [l Hl].
  rewrite Hl. f_equal. f_equal.
  pose proof (query_cursor_resolved _ _ _ 0 0 [] h l
                ltac:(by rewrite Hl)) as ->.
  by rewrite Z.sub_0_r.
Qed.

Lemma queryObjectData_source options h l :
  (queryObjectData options h).1 = Resolved l →
  ∃ source, query_source (h_store h) (q_index options) = Returns source.
Proof.
  unfold queryObjectData, mbind, Host_bind, get_store.
  destruct (query_source _ _) as [e|source]; [done|]. by eauto.
Qed.

Lemma page_from_all cursor : page_from 0 None 0 cursor = cursor.*2.
Proof. done. Qed.

Lemma page_from_slice L O cursor :
  0 < L →
  page_from O (Some L) 0 cursor =
    take (Z.to_nat L) (drop (Z.to_nat O) cursor.*2).
Proof.
  intros HL. unfold page_from. rewrite decide_False by lia.
  by rewrite Z.sub_0_r, fmap_take, fmap_drop.
Qed.

(** X7. The defaults of [queryObjectData], on a host that does not fail.
    Without options it is [getAllObjectData]; with the direction [prev] it
    resolves with the records in the reverse order; and the empty string as
    the index name is no index. *)
Theorem query_defaults h :
  h_io h = [] →
  queryObjectData (mkQuery None None None None) h = getAllObjectData h ∧
  queryObjectData (mkQuery None (Some Prev) None None) h =
    (Resolved (reverse (os_rows (h_store h)).*2), h) ∧
  (∀ direction limit offset,
     queryObjectData (mkQuery (Some EmptyString) direction limit offset) h =
     queryObjectData (mkQuery None direction limit offset) h).
Proof.
  intros Hio. split_and!.
  - rewrite (queryObjectData_quiet _ h None) by done.
    by rewrite getAllObjectData_quiet.
  - rewrite (queryObjectData_quiet _ h None) by done. simpl.
    by rewrite page_from_all, fmap_reverse.
  - done.
Qed.

Lemma query_defaults_witness :
  queryObjectData (mkQuery None None None None) (handle items_abc) =
    getAllObjectData (handle items_abc) ∧
  queryObjectData (mkQuery None (Some Prev) None None) (handle items_abc) =
    (Resolved [stored_item 3 "c"; stored_item 2 "b"; stored_item 1 "a"],
     handle items_abc).
Proof.
  destruct (query_defaults (handle items_abc) eq_refl) as (Hall & Hprev & _).
  split; [exact Hall|exact Hprev].
Defined.

(** X8. Pages are slices. On a host that does not fail, for a limit
    [L > 0] and an offset [O >= 0], the query resolves with the [L] records
    that follow the first [O] records of the same query (same index, same
    direction) without limit and offset. *)
Theorem query_page_is_slice h index direction L O all :
  h_io h = [] → 0 < L → 0 ≤ O →
  (queryObjectData (mkQuery index direction None None) h).1 = Resolved all →
  queryObjectData (mkQuery index direction (Some L) (Some O)) h =
    (Resolved (take (Z.to_nat L) (drop (Z.to_nat O) all)), h).
Proof.
  intros Hio HL HO Hall.
  destruct (queryObjectData_source _ _ _ Hall) as [source Hsrc].
  rewrite (queryObjectData_quiet _ h source) in Hall by done.
  rewrite (queryObjectData_quiet _ h source) by done.
  simpl in *. injection Hall as <-.
  by rewrite page_from_slice, page_from_all.
Qed.

Lemma query_page_is_slice_witness :
  queryObjectData (mkQuery (Some "email") (Some Prev) (Some 1) (Some 1))
    (handle users_two) =
    (Resolved [user 2 "jane@example.com" None], handle users_two).
Proof.
  apply (query_page_is_slice (handle users_two) (Some "email") (Some Prev) 1 1
           [user 1 "john@example.com" (Some 30); user 2 "jane@example.com" None]);
    [reflexivity|lia|lia|reflexivity].
Defined.

(** X9. Pages compose. On a host that does not fail, the page of [L1]
    records at the offset [O], followed by the page of [L2] records at the
    offset [O + L1], is the page of [L1 + L2] records at the offset [O]:
    paging skips no record and repeats none. *)
Theorem query_pages_compose h index direction L1 L2 O l1 l2 :
  h_io h = [] → 0 < L1 → 0 < L2 → 0 ≤ O →
  (queryObjectData (mkQuery index direction (Some L1) (Some O)) h).1 =
    Resolved l1 →
  (queryObjectData (mkQuery index direction (Some L2) (Some (O + L1))) h).1 =
    Resolved l2 →
  queryObjectData (mkQuery index direction (Some (L1 + L2)) (Some O)) h =
    (Resolved (l1 ++ l2), h).
Proof.
  intros Hio H1 H2 HO Hl1 Hl2.
  destruct (queryObjectData_source _ _ _ Hl1) as [source Hsrc].
  rewrite (queryObjectData_quiet _ h source) in Hl1 by done.
  rewrite (queryObjectData_quiet _ h source) in Hl2 by done.
  rewrite (queryObjectData_quiet _ h source) by done.
  simpl in *. injection Hl1 as <-. injection Hl2 as <-.
  rewrite !page_from_slice by lia. f_equal. f_equal.
  rewrite !Z2Nat.inj_add by lia.
  by rewrite <- drop_drop, take_take_drop.
Qed.

Lemma query_pages_compose_witness :
  queryObjectData (mkQuery None None (Some 2) (Some 1)) (handle items_abc) =
    (Resolved ([stored_item 2 "b"] ++ [stored_item 3 "c"]), handle items_abc).
Proof.
  apply (query_pages_compose (handle items_abc) None None 1 1 1);
    [reflexivity|lia|lia|lia|reflexivity|reflexivity].
Defined.

Lemma store_index_unknown s name :
  indexNames_contains s name = false →
  store_index s name = Throws (HostError NotFoundError).
Proof.
  unfold indexNames_contains, store_index. intros Hno.
  apply bool_decide_eq_false in Hno.
  induction (os_indices s) as [|idx rest IH]; simpl; [done|].
  case_bool_decide as Hname.
  - exfalso. apply Hno. by constructor.
  - apply IH. intros Hex. apply Hno. by constructor.
Qed.

(** X10. A query on an index that the store does not have rejects with an
    [IndexedDBError] that carries the message of the host's NotFoundError.
    No request is placed: the handle is left as it is, even on a host that
    is about to fail. *)
Theorem query_unknown_index_rejected h options name :
  q_index options = Some name → name ≠ EmptyString →
  indexNames_contains (h_store h) name = false →
  queryObjectData options h =
    (Rejected (LibError (IndexedDBError (dom_message NotFoundError))), h).
Proof.
  intros Hidx Hne Hno. unfold queryObjectData, mbind, Host_bind, get_store.
  unfold query_source. rewrite Hidx, decide_False by done.
  by rewrite store_index_unknown.
Qed.

Lemma query_unknown_index_rejected_witness :
  queryObjectData (mkQuery (Some "name") None None None)
    (mkHost users_two [Some AbortError] false) =
    (Rejected (LibError (IndexedDBError (dom_message NotFoundError))),
     mkHost users_two [Some AbortError] false).
Proof.
  apply (query_unknown_index_rejected _ _ "name");
    [reflexivity|discriminate|reflexivity].
Defined.

(** ** Counting and clearing *)

Lemma countObjectData_quiet h keyRange :
  h_io h = [] →
  countObjectData keyRange h =
    (Resolved (Z.of_nat (length (filter (λ kv, range_admits keyRange kv.1)
                                   (os_rows (h_store h))))), h).
Proof.
  intros Hio. unfold countObjectData, mbind, Host_bind.
  rewrite request_quiet by done. simpl. by rewrite host_quiet_eta.
Qed.

Lemma in_range_only k k' : in_range (KeyRange.only k) k' ↔ k' = k.
Proof.
  unfold in_range. simpl. rewrite andb_True, !bool_decide_spec. split.
  - intros [H1 H2]. by apply (anti_symm key_le).
  - intros ->. split; reflexivity.
Qed.

Lemma count_only k rows :
  NoDup rows.*1 →
  length (filter (λ kv, range_admits (Some (KeyRange.only k)) kv.1) rows) =
    match rows_lookup k rows with
    | Some _ => 1%nat
    | None => 0%nat
    end.
Proof.
  induction rows as [|[k' v'] rest IH]; [done|].
  rewrite fmap_cons, NoDup_cons. intros [Hk' Hnd].
  specialize (IH Hnd). rewrite filter_cons, rows_lookup_cons. simpl in *.
  case_decide as Hr.
  - apply in_range_only in Hr. rewrite decide_True by done.
    subst k'. simpl. rewrite IH.
    by apply rows_lookup_None in Hk' as ->.
  - rewrite decide_False; [done|].
    intros ->. apply Hr. by apply in_range_only.
Qed.

(** X11. [countObjectData] agrees with the other reads. On a store whose
    keys ascend and a host that does not fail: without a range it resolves
    with the length of the list [getAllObjectData] resolves with; with any
    range it resolves with a number between 0 and that length; with
    [KeyRange.only(k)] it resolves with 1 when [getObjectData] finds a record
    under [k], and with 0 when it does not. *)
Theorem count_agrees_with_getAll_and_get h :
  h_io h = [] →
  store_wf (h_store h) →
  ∃ all,
    getAllObjectData h = (Resolved all, h) ∧
    countObjectData None h = (Resolved (Z.of_nat (length all)), h) ∧
    (∀ keyRange, ∃ n, countObjectData keyRange h = (Resolved n, h) ∧
                      0 ≤ n ≤ Z.of_nat (length all)) ∧
    (∀ k, ∃ r, getObjectData k h = (Resolved r, h) ∧
               countObjectData (Some (KeyRange.only k)) h =
                 (Resolved (match r with Some _ => 1 | None => 0 end), h)).
Proof.
  intros Hio Hwf. exists (os_rows (h_store h)).*2. split_and!.
  - by apply getAllObjectData_quiet.
  - rewrite countObjectData_quiet by done. simpl.
    rewrite filter_all by (by apply Forall_forall). by rewrite length_fmap.
  - intros keyRange. eexists. split; [by apply countObjectData_quiet|].
    rewrite length_fmap.
    pose proof (length_filter (λ kv : key * record, range_admits keyRange kv.1)
                  (os_rows (h_store h))). lia.
  - intros k. eexists. split; [by apply getObjectData_quiet|].
    rewrite countObjectData_quiet by done.
    rewrite count_only by (by apply sorted_keys_NoDup).
    by destruct (rows_lookup k _).
Qed.

Lemma count_agrees_with_getAll_and_get_witness :
  countObjectData None (handle items_abc) = (Resolved 3, handle items_abc) ∧
  countObjectData (Some (KeyRange.only (KNum 2))) (handle items_abc) =
    (Resolved 1, handle items_abc) ∧
  countObjectData (Some (KeyRange.only (KNum 9))) (handle items_abc) =
    (Resolved 0, handle items_abc).
Proof.
  destruct (count_agrees_with_getAll_and_get (handle items_abc) eq_refl)
    as (all & Hall & Hcount & _ & Hone).
  - apply (bool_decide_unpack _). vm_compute. exact I.
  - injection Hall as <-. split; [exact Hcount|]. split.
    + destruct (Hone (KNum 2)) as (r & Hget & Hc). injection Hget as <-.
      exact Hc.
    + destruct (Hone (KNum 9)) as (r & Hget & Hc). injection Hget as <-.
      exact Hc.
Defined.

Lemma unique_violation_empty s k v : os_rows s = [] → unique_violation s k v = None.
Proof.
  intros Hrows. unfold unique_violation, index_clash. rewrite Hrows.
  induction (os_indices s) as [|idx rest IH]; simpl; [done|].
  destruct (index_key idx v); rewrite andb_false_r; apply IH.
Qed.

(** X12. [clearObjectStore], on a host that does not fail, resolves and
    leaves a store without records: [getAllObjectData] resolves with the
    empty list, [countObjectData] with 0, [getObjectData] with [undefined]
    for every key. The indices stay, and so does the key generator: the next
    insert that asks it is stored under the number the generator had before
    the clear, and is refused as before the clear when the generator had
    passed 2^53. *)
Theorem clear_empties_store h :
  h_io h = [] →
  ∃ h', clearObjectStore h = (Resolved (), h') ∧
        getAllObjectData h' = (Resolved [], h') ∧
        countObjectData None h' = (Resolved 0, h') ∧
        (∀ k, getObjectData k h' = (Resolved None, h')) ∧
        os_keygen (h_store h') = os_keygen (h_store h) ∧
        os_indices (h_store h') = os_indices (h_store h) ∧
        (∀ data, extract_key (h_store h) data = Returns None →
           if bool_decide (max_keygen < os_keygen (h_store h)) then
             addObjectData data h' =
               (Rejected (LibError (IndexedDBError
                  (dom_message ConstraintError_keygen))),
                mkHost (h_store h') [] true)
           else
             ∃ v h'', addObjectData data h' = (Resolved [v], h'') ∧
                      os_rows (h_store h'') =
                        [(KNum (os_keygen (h_store h)), v)]).
Proof.
  intros Hio.
  exists (mkHost (set_rows (h_store h) (os_keygen (h_store h)) []) []
            (h_aborted h)).
  split_and!; try done.
  - unfold clearObjectStore, mbind, Host_bind. by rewrite request_quiet.
  - intros data Hex. rewrite addObjectData_quiet by done. simpl.
    rewrite (extract_key_config _ (h_store h)) by done. rewrite Hex.
    unfold store_add. simpl. case_bool_decide as Hmax.
    + by rewrite message_or_keygen.
    + rewrite unique_violation_empty by done. by eexists _, _.
Qed.

Lemma clear_empties_store_witness :
  ∃ h', clearObjectStore (handle items_abc) = (Resolved (), h') ∧
        addObjectData (item "z") h' =
          (Resolved [stored_item 4 "z"],
           handle (mkStore "items" (Some "id") true 5 []
                     [(KNum 4, stored_item 4 "z")])).
Proof.
  destruct (clear_empties_store (handle items_abc) eq_refl)
    as (h' & Hclear & _).
  exists h'. split; [exact Hclear|].
  injection Hclear as <-. reflexivity.
Defined.

(** ** Reads *)

Lemma read_store {A} (f : IDBObjectStore → A) h :
  h_store (request (λ s, inr (f s, s)) h).2 = h_store h.
Proof.
  destruct (request_store (λ s, inr (f s, s)) h)
    as [(e & _ & Hs & _)|(a & s' & Hr & ->)]; [done|].
  by injection Hr as _ <-.
Qed.

Lemma getObjectData_store h k : h_store (getObjectData k h).2 = h_store h.
Proof.
  unfold getObjectData, mbind, Host_bind.
  pose proof (read_store (λ s, rows_lookup k (os_rows s)) h) as Hs.
  unfold store_get.
  by destruct (request _ h) as [[e|r] h1].
Qed.

Lemma getAllObjectData_store h : h_store (getAllObjectData h).2 = h_store h.
Proof.
  unfold getAllObjectData, mbind, Host_bind.
  pose proof (read_store (λ s, (os_rows s).*2) h) as Hs.
  unfold store_getAll.
  by destruct (request _ h) as [[e|r] h1].
Qed.

Lemma countObjectData_store h keyRange :
  h_store (countObjectData keyRange h).2 = h_store h.
Proof.
  unfold countObjectData, mbind, Host_bind.
  pose proof (read_store
    (λ s, Z.of_nat (length (filter (λ kv, range_admits keyRange kv.1)
                              (os_rows s)))) h) as Hs.
  unfold store_count.
  by destruct (request _ h) as [[e|r] h1].
Qed.

Lemma query_cursor_store offset limit cursor :
  ∀ skipped counted results h,
    h_store (query_cursor offset limit cursor skipped counted results h).2 =
    h_store h.
Proof.
  induction cursor as [|[pk value] rest IH]; intros; simpl;
    unfold mbind, Host_bind;
    pose proof (cursor_event_store h) as Hs;
    destruct (cursor_event h) as [[e|[]] h1]; try done.
  case_bool_decide; [by rewrite IH|].
  destruct (limit_reached limit counted); [done|by rewrite IH].
Qed.

Lemma queryObjectData_store h options :
  h_store (queryObjectData options h).2 = h_store h.
Proof.
  unfold queryObjectData, mbind, Host_bind, get_store.
  destruct (query_source _ _); [done|]. apply query_cursor_store.
Qed.

(** X13. The read operations never change the store. Whatever the host
    fails and whatever the outcome, the content of the store handle is the
    same after [getObjectData], [getAllObjectData], [queryObjectData] and
    [countObjectData] as before. *)
Theorem reads_leave_store_unchanged h :
  (∀ k, h_store (getObjectData k h).2 = h_store h) ∧
  h_store (getAllObjectData h).2 = h_store h ∧
  (∀ options, h_store (queryObjectData options h).2 = h_store h) ∧
  (∀ keyRange, h_store (countObjectData keyRange h).2 = h_store h).
Proof.
  split_and!.
  - intros k. apply getObjectData_store.
  - apply getAllObjectData_store.
  - intros options. apply queryObjectData_store.
  - intros keyRange. apply countObjectData_store.
Qed.

(** ** Bulk insert: the inserts it keeps *)

Lemma place_adds_cons s data rest ok :
  extract_key s data = Returns ok →
  place_adds s (data :: rest) =
    ((ok, data) :: (place_adds s rest).1, (place_adds s rest).2).
Proof. intros Hex. simpl. rewrite Hex. by destruct (place_adds s rest). Qed.

Lemma place_adds_app_throw s good bad rest e :
  (place_adds s good).2 = None → extract_key s bad = Throws e →
  place_adds s (good ++ bad :: rest) = ((place_adds s good).1, Some e).
Proof.
  intros Hgood Hbad. induction good as [|data good IH]; simpl in *.
  - by rewrite Hbad.
  - destruct (extract_key s data) as [e'|ok]; [done|].
    destruct (place_adds s good) as [placed thrown]. simpl in *.
    by rewrite IH.
Qed.

Lemma run_adds_unfinished good :
  ∀ s0 index completed results h total keys s',
    h_io h = [] → same_config s0 (h_store h) →
    (completed + length good < total)%nat →
    insert_each (h_store h) good index = inr (keys, s') →
    run_adds total (place_adds s0 good).1 index completed results h =
      (Pending, mkHost s' [] (h_aborted h)).
Proof.
  induction good as [|data rest IH];
    intros s0 index completed results h total keys s' Hio Hcfg Hlt.
  - simpl. intros [= <- <-]. by rewrite host_quiet_eta.
  - simpl insert_each. rewrite <- (extract_key_config s0) by done.
    destruct (extract_key s0 data) as [e|ok] eqn:Hex; [done|].
    destruct (store_add ok data (h_store h)) as [d|[k s1]] eqn:Hadd; [done|].
    destruct (insert_each s1 rest (S index)) as [?|[keys' s2]] eqn:Hrest;
      [done|].
    intros [= <- <-]. rewrite (place_adds_cons _ _ _ _ Hex).
    simpl. unfold mbind, Host_bind. rewrite request_quiet, Hadd by done.
    rewrite decide_False by (simpl in Hlt; lia).
    rewrite (IH s0 (S index) (S completed) _
               (mkHost s1 [] (h_aborted h)) total keys' s2); try done.
    + eapply same_config_trans, store_add_config; done.
    + simpl in Hlt. lia.
Qed.

Lemma insert_each_rows dataArray :
  ∀ s index keys s',
    insert_each s dataArray index = inr (keys, s') →
    length (os_rows s') = (length (os_rows s) + length dataArray)%nat ∧
    (∀ kv, kv ∈ os_rows s → kv ∈ os_rows s').
Proof.
  induction dataArray as [|data rest IH]; intros s index keys s'; simpl.
  - intros [= <- <-]. split; [lia|done].
  - destruct (extract_key s data) as [?|ok]; [done|].
    destruct (store_add ok data s) as [d|[k s1]] eqn:Hadd; [done|].
    destruct (insert_each s1 rest (S index)) as [?|[keys' s2]] eqn:Hrest; [done|].
    intros [= <- <-]. destruct (IH _ _ _ _ Hrest) as [Hlen Hsub].
    apply store_add_rows in Hadd as (v & gen & _ & Hperm & _).
    split.
    + rewrite Hlen, Hperm. simpl. lia.
    + intros kv Hin. apply Hsub. rewrite Hperm. by apply elem_of_cons; right.
Qed.

(** X14. [bulkAddObjectData] is not all-or-nothing when [store.add] throws.
    When the records [good] can be inserted one after the other and
    [store.add] throws for the record [bad] that follows them (it has no
    usable key), then on a host that does not fail the promise rejects with
    what was thrown, the transaction is not aborted, and the records [good]
    are in the store, next to the records it held. *)
Theorem bulk_add_partial_insert h good bad rest e keys s' :
  h_io h = [] →
  insert_each (h_store h) good 0 = inr (keys, s') →
  extract_key (h_store h) bad = Throws e →
  bulkAddObjectData (good ++ bad :: rest) h =
    (Rejected e, mkHost s' [] (h_aborted h)) ∧
  length (os_rows s') = (length (os_rows (h_store h)) + length good)%nat ∧
  (∀ kv, kv ∈ os_rows (h_store h) → kv ∈ os_rows s').
Proof.
  intros Hio Heach Hbad. split; [|by eapply insert_each_rows].
  assert ((place_adds (h_store h) good).2 = None) as Hgood.
  { destruct (place_adds (h_store h) good).2 as [e'|] eqn:Hthrown; [|done].
    destruct (place_adds_throws good (h_store h) (h_store h) 0 e' Hthrown)
      as [failure Hfail]; [done|]. congruence. }
  unfold bulkAddObjectData.
  destruct (good ++ bad :: rest) as [|data0 rest0] eqn:Happ.
  { by destruct good. }
  rewrite <- Happ. unfold mbind, Host_bind, get_store.
  rewrite (place_adds_app_throw _ _ _ _ e Hgood Hbad).
  rewrite (run_adds_unfinished good (h_store h) 0 0 [] h _ keys s');
    try done.
  rewrite length_app. simpl. lia.
Qed.

Lemma bulk_add_partial_insert_witness :
  bulkAddObjectData [stored_item 1 "a"; {[ "id" := VBool true ]}; item "c"]
    (handle items_empty) =
    (Rejected (HostError DataError),
     handle (mkStore "items" (Some "id") true 2 []
               [(KNum 1, stored_item 1 "a")])).
Proof.
  apply (bulk_add_partial_insert (handle items_empty) [stored_item 1 "a"]
           {[ "id" := VBool true ]} [item "c"] (HostError DataError)
           [KNum 1]);
    reflexivity.
Defined.

(** ** Bulk insert against successive inserts *)

Lemma add_each_insert_each dataArray :
  ∀ h index,
    h_io h = [] →
    match insert_each (h_store h) dataArray index with
    | inr (keys, s') =>
        add_each dataArray h = (Resolved (), mkHost s' [] (h_aborted h))
    | inl _ => ∃ e h', add_each dataArray h = (Rejected e, h')
    end.
Proof.
  induction dataArray as [|data rest IH]; intros h index Hio; simpl.
  - by rewrite host_quiet_eta.
  - unfold mbind, Host_bind. rewrite addObjectData_quiet by done.
    destruct (extract_key (h_store h) data) as [e|ok]; [by eauto|].
    destruct (store_add ok data (h_store h)) as [d|[k s1]]; [by eauto|].
    specialize (IH (mkHost s1 [] (h_aborted h)) (S index) eq_refl).
    simpl in IH.
    by destruct (insert_each s1 rest (S index)) as [?|[keys s2]].
Qed.

Lemma bulkAddObjectData_insert_each h dataArray :
  h_io h = [] →
  match insert_each (h_store h) dataArray 0 with
  | inr (keys, s') =>
      bulkAddObjectData dataArray h =
        (Resolved (Some <$> keys), mkHost s' [] (h_aborted h))
  | inl _ => ∃ e, (bulkAddObjectData dataArray h).1 = Rejected e
  end.
Proof.
  intros Hio. destruct dataArray as [|data rest].
  { simpl. by rewrite host_quiet_eta. }
  pose proof (run_adds_insert_each (data :: rest) (h_store h)) as Hrun.
  pose proof (place_adds_throws (data :: rest) (h_store h) (h_store h) 0) as Hthrow.
  unfold bulkAddObjectData, mbind, Host_bind, get_store.
  destruct (place_adds (h_store h) (data :: rest)) as [placed thrown].
  specialize (Hrun placed 0%nat [] h (length (data :: rest))).
  destruct thrown as [e|].
  - destruct (Hthrow e) as [failure Hfail]; [done..|].
    rewrite Hfail. exists e. by destruct (run_adds _ _ _ _ _ _).
  - specialize (Hrun eq_refl Hio (conj eq_refl eq_refl) eq_refl eq_refl).
    destruct (insert_each (h_store h) (data :: rest) 0) as [[i d]|[keys s']].
    + exists (bulk_add_failed i d).
      destruct (run_adds _ _ _ _ _ _) as [p h']. simpl in *. by apply Hrun.
    + by rewrite Hrun.
Qed.

(** X15. A bulk insert against successive inserts. On a host that does
    not fail, [bulkAddObjectData] resolves exactly when awaiting
    [addObjectData] for each record in turn resolves every time, and both
    leave the same store handle. *)
Theorem bulk_add_as_successive_adds h dataArray h' :
  h_io h = [] →
  (∃ keys, bulkAddObjectData dataArray h = (Resolved keys, h')) ↔
  add_each dataArray h = (Resolved (), h').
Proof.
  intros Hio.
  pose proof (bulkAddObjectData_insert_each h dataArray Hio) as Hbulk.
  pose proof (add_each_insert_each dataArray h 0 Hio) as Heach.
  destruct (insert_each (h_store h) dataArray 0) as [failure|[keys s']].
  - destruct Hbulk as [e He]. destruct Heach as (e' & h1 & He'). split.
    + intros [keys Hk]. rewrite Hk in He. done.
    + rewrite He'. done.
  - rewrite Hbulk, Heach. split.
    + by intros [keys' [= _ <-]].
    + intros [= <-]. by eauto.
Qed.

Lemma bulk_add_as_successive_adds_witness :
  add_each [item "a"; item "b"; item "c"] (handle items_empty) =
    (Resolved (), handle items_abc).
Proof.
  apply (bulk_add_as_successive_adds (handle items_empty)
           [item "a"; item "b"; item "c"] (handle items_abc) eq_refl).
  exists [Some (KNum 1); Some (KNum 2); Some (KNum 3)]. reflexivity.
Defined.

(** ** Find and replace on the key path *)

Lemma val_of_key_inj k k' : val_of_key k = val_of_key k' → k = k'.
Proof. destruct k, k'; simpl; congruence. Qed.

Lemma first_match_key p k rows :
  Forall (λ kv, key_of_val (get_field kv.2 p) = Some kv.1) rows →
  first_match p k rows = (λ v, (k, v)) <$> rows_lookup k rows.
Proof.
  unfold first_match. induction 1 as [|[k' v'] rest Hkv Hrest IH]; [done|].
  rewrite rows_lookup_cons. simpl in *.
  apply key_of_val_inv in Hkv. unfold field_matches, strict_eq at 1.
  rewrite Hkv. case_bool_decide as Heq.
  - apply val_of_key_inj in Heq. subst k'. by rewrite decide_True.
  - rewrite decide_False by congruence. apply IH.
Qed.

Lemma assign_key_present s data k v :
  keygen_above s → rows_lookup k (os_rows s) = Some v →
  assign_key s data (Some k) = (k, data, os_keygen s).
Proof.
  intros Hgen Hl. simpl. destruct k as [n|t]; [|done].
  destruct (os_autoIncrement s) eqn:Hai; [|done]. simpl.
  specialize (Hgen Hai). rewrite Forall_forall in Hgen.
  specialize (Hgen _ (rows_lookup_Some _ _ _ Hl)). simpl in Hgen.
  rewrite bool_decide_eq_false_2; [done|lia].
Qed.

(** X16. Find and replace on the key path. On a store with in-line keys
    that satisfies the invariants, with a new record that carries the key
    [k] at the key path and breaks no unique index, on a host that does not
    fail: when a record is stored under [k], [updateObjectData] on the key
    path and [k] resolves with all records and leaves the very store that
    [putObjectData] of the new record leaves, with the new record under [k]
    and as many records as before; when no record is stored under [k], it
    rejects with its not-found error and changes nothing. *)
Theorem update_on_key_path_is_put h p k newData :
  h_io h = [] →
  store_inv (h_store h) →
  os_keyPath (h_store h) = Some p →
  key_of_val (get_field newData p) = Some k →
  unique_violation (h_store h) k newData = None →
  match rows_lookup k (os_rows (h_store h)) with
  | Some _ =>
      ∃ h', updateObjectData p k newData h =
              (Resolved (os_rows (h_store h')).*2, h') ∧
            putObjectData newData h = (Resolved k, h') ∧
            rows_lookup k (os_rows (h_store h')) = Some newData ∧
            length (os_rows (h_store h')) = length (os_rows (h_store h))
  | None =>
      updateObjectData p k newData h =
        (Rejected (update_not_found (h_store h) p k), h)
  end.
Proof.
  intros Hio (Hwf & Hkeyed & Hgen) Hp Hk Hu.
  unfold updateObjectData. rewrite updateObjectData_between_quiet by done.
  rewrite (first_match_key p k) by (by apply store_keyed_rows).
  destruct (rows_lookup k (os_rows (h_store h))) as [old|] eqn:Hl; [|done].
  simpl. rewrite update_cursor_quiet by done.
  rewrite (first_match_key p k) by (by apply store_keyed_rows).
  rewrite Hl. simpl. unfold cursor_update_check. rewrite Hp.
  rewrite decide_True by done. unfold store_update. rewrite Hu.
  exists (mkHost (set_rows (h_store h) (os_keygen (h_store h))
                    (rows_insert k newData (os_rows (h_store h))))
            [] (h_aborted h)).
  split; [done|]. simpl.
  destruct (extract_key_inline _ _ _ _ Hp Hk) as [Hex _].
  rewrite putObjectData_quiet, Hex by done. unfold store_put.
  rewrite (assign_key_present _ _ _ _ Hgen Hl), Hu. split_and!.
  - done.
  - apply rows_lookup_insert.
  - apply rows_insert_present; [done|]. apply rows_lookup_is_Some. by eauto.
Qed.

Lemma update_on_key_path_is_put_witness :
  ∃ h', updateObjectData "id" (KNum 2) (stored_item 2 "z") (handle items_abc) =
          (Resolved (os_rows (h_store h')).*2, h') ∧
        putObjectData (stored_item 2 "z") (handle items_abc) =
          (Resolved (KNum 2), h') ∧
        rows_lookup (KNum 2) (os_rows (h_store h')) = Some (stored_item 2 "z").
Proof.
  pose proof (update_on_key_path_is_put (handle items_abc) "id" (KNum 2)
                (stored_item 2 "z") eq_refl) as H.
  destruct H as (h' & Hup & Hput & Hget & _).
  - apply (bool_decide_unpack _). vm_compute. exact I.
  - reflexivity.
  - reflexivity.
  - reflexivity.
  - exists h'. split; [exact Hup|]. split; [exact Hput|exact Hget].
Defined.

(** ** The methods of the class on a live object *)

Lemma util_pipeline {A} this storeName mode
    (K : TransactionHandler → IDBObjectStore → Async A) w :
  (async_call (Util.transaction this (inl storeName) mode) ≫=
     (λ t, getStore t storeName ≫= K t)) w =
  with_store this storeName mode w (λ t store, K t store w).
Proof.
  unfold mbind, Async_bind, async_call, Util.transaction, Util.getDB, with_store.
  destruct (db this) as [d|]; [|done].
  unfold transaction, db_transaction.
  destruct (w_dbs w !! conn_name d) as [before|] eqn:Hd; [|done].
  simpl scope_of. simpl forallb. unfold objectStoreNames_contains.
  destruct (find_store storeName before) as [s|] eqn:Hs.
  - rewrite bool_decide_eq_true_2 by eauto. simpl.
    unfold getStore, tx_objectStore. simpl.
    rewrite bool_decide_eq_true_2 by (apply elem_of_cons; by left).
    rewrite Hd. simpl. by rewrite Hs.
  - rewrite bool_decide_eq_false_2; [done|]. by intros [??].
Qed.

Lemma commit_absorbed {A} t s (op : Host (promise A)) w :
  tx_finished (tx t) = false →
  (on_store t s op ≫= (λ result, commit t ≫= (λ _, mret result))) w =
  on_store t s op w.
Proof.
  intros Hfin. unfold mbind, Async_bind.
  destruct (on_store t s op w) as [[r|e|] w']; try done.
  unfold commit. by rewrite Hfin.
Qed.

Lemma with_store_ext {A} this storeName mode w
    (run run' : TransactionHandler → IDBObjectStore → promise A * world) :
  (∀ d before s, run (method_tx d storeName mode before) s =
                 run' (method_tx d storeName mode before) s) →
  with_store this storeName mode w run = with_store this storeName mode w run'.
Proof.
  intros Heq. unfold with_store. destruct (db this); [|done].
  destruct (w_dbs w !! _); [|done]. destruct (find_store _ _); [|done].
  apply Heq.
Qed.

Lemma Util_get_with_store this storeName k w :
  Util.get this storeName k w =
  with_store this storeName readonly w
    (λ t s, on_store t s (getObjectData k) w).
Proof.
  exact (util_pipeline this storeName readonly
           (λ t store, on_store t store (getObjectData k)) w).
Qed.

Lemma Util_getAll_with_store this storeName w :
  Util.getAll this storeName w =
  with_store this storeName readonly w (λ t s, on_store t s getAllObjectData w).
Proof.
  exact (util_pipeline this storeName readonly
           (λ t store, on_store t store getAllObjectData) w).
Qed.

Lemma Util_query_with_store this storeName options w :
  Util.query this storeName options w =
  with_store this storeName readonly w
    (λ t s, on_store t s (queryObjectData options) w).
Proof.
  exact (util_pipeline this storeName readonly
           (λ t store, on_store t store (queryObjectData options)) w).
Qed.

Lemma Util_count_with_store this storeName keyRange w :
  Util.count this storeName keyRange w =
  with_store this storeName readonly w
    (λ t s, on_store t s (countObjectData keyRange) w).
Proof.
  exact (util_pipeline this storeName readonly
           (λ t store, on_store t store (countObjectData keyRange)) w).
Qed.

Lemma Util_write_with_store {A} this storeName (op : Host (promise A)) w :
  (async_call (Util.transaction this (inl storeName) readwrite) ≫=
     (λ t, getStore t storeName ≫=
        (λ store, on_store t store op ≫=
           (λ result, commit t ≫= (λ _, mret result))))) w =
  with_store this storeName readwrite w (λ t s, on_store t s op w).
Proof.
  rewrite (util_pipeline this storeName readwrite
             (λ t store, on_store t store op ≫=
                (λ result, commit t ≫= (λ _, mret result))) w).
  apply with_store_ext. intros d before s. by apply commit_absorbed.
Qed.

Lemma Util_add_with_store this storeName data w :
  Util.add this storeName data w =
  with_store this storeName readwrite w
    (λ t s, on_store t s (addObjectData data) w).
Proof. apply Util_write_with_store. Qed.

Lemma Util_put_with_store this storeName data w :
  Util.put this storeName data w =
  with_store this storeName readwrite w
    (λ t s, on_store t s (putObjectData data) w).
Proof. apply Util_write_with_store. Qed.

Lemma Util_bulkAdd_with_store this storeName dataArray w :
  Util.bulkAdd this storeName dataArray w =
  with_store this storeName readwrite w
    (λ t s, on_store t s (bulkAddObjectData dataArray) w).
Proof. apply Util_write_with_store. Qed.

Lemma Util_update_with_store this storeName keyPath k newData w :
  Util.update this storeName keyPath k newData w =
  with_store this storeName readwrite w
    (λ t s, on_store t s (updateObjectData keyPath k newData) w).
Proof. apply Util_write_with_store. Qed.

Lemma Util_delete_with_store this storeName k w :
  Util.delete this storeName k w =
  with_store this storeName readwrite w
    (λ t s, on_store t s (deleteObjectData k) w).
Proof. apply Util_write_with_store. Qed.

Lemma Util_clear_with_store this storeName w :
  Util.clear this storeName w =
  with_store this storeName readwrite w
    (λ t s, on_store t s clearObjectStore w).
Proof.
  unfold Util.clear.
  rewrite (util_pipeline this storeName readwrite
             (λ t store, on_store t store clearObjectStore ≫= (λ _, commit t)) w).
  apply with_store_ext. intros d before s.
  unfold mbind, Async_bind.
  by destruct (on_store _ s clearObjectStore w) as [[[]|e|] w'].
Qed.

(** X17. A method of the class on a store that the database does not
    have. On a live object, each of [get], [getAll], [query], [count],
    [add], [put], [bulkAdd], [update], [delete] and [clear] rejects with the
    NotFoundError that the host throws from [db.transaction], before
    [getStore] is reached, and leaves the browser as it is. *)
Theorem method_on_unknown_store this d before storeName w :
  db this = Some d →
  w_dbs w !! conn_name d = Some before →
  find_store storeName before = None →
  (∀ k, Util.get this storeName k w = store_missing w) ∧
  Util.getAll this storeName w = store_missing w ∧
  (∀ options, Util.query this storeName options w = store_missing w) ∧
  (∀ keyRange, Util.count this storeName keyRange w = store_missing w) ∧
  (∀ data, Util.add this storeName data w = store_missing w) ∧
  (∀ data, Util.put this storeName data w = store_missing w) ∧
  (∀ dataArray, Util.bulkAdd this storeName dataArray w = store_missing w) ∧
  (∀ keyPath k newData,
     Util.update this storeName keyPath k newData w = store_missing w) ∧
  (∀ k, Util.delete this storeName k w = store_missing w) ∧
  Util.clear this storeName w = store_missing w.
Proof.
  intros Hdb Hbefore Hstore.
  assert (∀ A mode run, @with_store A this storeName mode w run = store_missing w)
    as Hmiss.
  { intros A mode run. unfold with_store. by rewrite Hdb, Hbefore, Hstore. }
  split_and!; intros.
  - by rewrite Util_get_with_store.
  - by rewrite Util_getAll_with_store.
  - by rewrite Util_query_with_store.
  - by rewrite Util_count_with_store.
  - by rewrite Util_add_with_store.
  - by rewrite Util_put_with_store.
  - by rewrite Util_bulkAdd_with_store.
  - by rewrite Util_update_with_store.
  - by rewrite Util_delete_with_store.
  - by rewrite Util_clear_with_store.
Qed.

Lemma method_on_unknown_store_witness :
  Util.add class_test_util "comments" test_user class_test_world =
    (Rejected (HostError NotFoundError), class_test_world) ∧
  Util.getAll class_test_util "comments" class_test_world =
    (Rejected (HostError NotFoundError), class_test_world).
Proof.
  destruct (method_on_unknown_store class_test_util
              (mkConn "class-test-db" 1) class_test_db
              "comments" class_test_world)
    as (_ & Hall & _ & _ & Hadd & _); [reflexivity..|].
  split; [exact (Hadd test_user)|exact Hall].
Defined.

(** ** What a failed write leaves *)

Lemma request_inl {A}
    (run : IDBObjectStore → DOMException + (A * IDBObjectStore)) h e h' :
  request run h = (inl e, h') →
  h_aborted h' = true ∧ h_store h' = h_store h.
Proof.
  intros Hreq.
  destruct (request_store run h) as [(e' & _ & Hs & Ha)|(a & s' & _ & Heq)].
  - rewrite Hreq in Hs, Ha. done.
  - rewrite Hreq in Heq. done.
Qed.

Lemma getAllObjectData_cases h :
  (∃ l, (getAllObjectData h).1 = Resolved l) ∨
  (∃ e, (getAllObjectData h).1 = Rejected e ∧
        h_aborted (getAllObjectData h).2 = true).
Proof.
  unfold getAllObjectData, mbind, Host_bind.
  destruct (request store_getAll h) as [[e|l] h1] eqn:Hreq; simpl.
  - right. apply request_inl in Hreq as [Ha _]. by eauto.
  - left. by eauto.
Qed.

Lemma addObjectData_reverts data : reverts (addObjectData data).
Proof.
  intros h. unfold addObjectData, mbind, Host_bind, get_store.
  destruct (extract_key (h_store h) data) as [e|ok]; [by right|].
  destruct (request (store_add ok data) h) as [[e|k] h1] eqn:Hreq.
  - apply request_inl in Hreq as [Ha _]. by left.
  - destruct (getAllObjectData_cases h1) as [[l Hl]|(e' & He & Ha)].
    + by rewrite Hl.
    + rewrite He. by left.
Qed.

Lemma putObjectData_reverts data : reverts (putObjectData data).
Proof.
  intros h. unfold putObjectData, mbind, Host_bind, get_store.
  destruct (extract_key (h_store h) data) as [e|ok]; [by right|].
  destruct (request (store_put ok data) h) as [[e|k] h1] eqn:Hreq; [|done].
  apply request_inl in Hreq as [Ha _]. by left.
Qed.

Lemma clearObjectStore_reverts : reverts clearObjectStore.
Proof.
  intros h. unfold clearObjectStore, mbind, Host_bind.
  destruct (request store_clear h) as [[e|k] h1] eqn:Hreq; [|done].
  apply request_inl in Hreq as [Ha _]. by left.
Qed.

Lemma reverts_intro {A} (op : Host (promise A)) :
  (∀ h p h', op h = (p, h') →
     match p with
     | Resolved _ => True
     | _ => h_aborted h' = true ∨ h_store h' = h_store h
     end) →
  reverts op.
Proof. intros Hop h. specialize (Hop h). destruct (op h) as [p h']. by apply Hop. Qed.

Lemma getObjectData_outcome h k p h1 :
  getObjectData k h = (p, h1) →
  h_store h1 = h_store h ∧
  match p with
  | Resolved _ => True
  | Rejected _ => h_aborted h1 = true
  | Pending => False
  end.
Proof.
  intros Hget. pose proof (getObjectData_store h k) as Hs.
  rewrite Hget in Hs. split; [done|]. revert Hget.
  unfold getObjectData, mbind, Host_bind.
  destruct (request (store_get k) h) as [[e|l] h2] eqn:Hreq; intros [= <- <-];
    [|done].
  by apply request_inl in Hreq as [Ha _].
Qed.

Lemma getAllObjectData_outcome h p h1 :
  getAllObjectData h = (p, h1) →
  h_store h1 = h_store h ∧
  match p with
  | Resolved _ => True
  | Rejected _ => h_aborted h1 = true
  | Pending => False
  end.
Proof.
  intros Hget. pose proof (getAllObjectData_store h) as Hs.
  rewrite Hget in Hs. split; [done|]. revert Hget.
  unfold getAllObjectData, mbind, Host_bind.
  destruct (request store_getAll h) as [[e|l] h2] eqn:Hreq; intros [= <- <-];
    [|done].
  by apply request_inl in Hreq as [Ha _].
Qed.

Lemma deleteObjectData_reverts k : reverts (deleteObjectData k).
Proof.
  apply reverts_intro. intros h p h'. unfold deleteObjectData.
  unfold mbind at 1. unfold Host_bind at 1.
  destruct (getObjectData k h) as [p1 h1] eqn:Hget.
  apply getObjectData_outcome in Hget as [Hs Hp1].
  destruct p1 as [[v|]|e|]; [| | |done].
  - unfold mbind at 1. unfold Host_bind at 1.
    destruct (request (store_delete k) h1) as [[e|u] h2] eqn:Hdel.
    + intros [= <- <-]. apply request_inl in Hdel as [Ha _]. by left.
    + unfold mbind, Host_bind.
      destruct (getAllObjectData h2) as [p2 h3] eqn:Hall.
      apply getAllObjectData_outcome in Hall as [_ Hp2].
      destruct p2; intros [= <- <-]; [done|by left|done].
  - intros [= <- <-]. by right.
  - intros [= <- <-]. by left.
Qed.

Lemma update_cursor_reverts keyPath k newData cursor :
  reverts (update_cursor keyPath k newData cursor).
Proof.
  induction cursor as [|[pk value] rest IH]; intros h; simpl;
    unfold mbind, Host_bind;
    pose proof (cursor_event_store h) as Hs;
    destruct (cursor_event h) as [[e|[]] h1] eqn:Hev; simpl in Hs;
    try (apply request_inl in Hev as [Ha _]; by left);
    try by right.
  destruct (strict_eq _ _).
  - unfold get_store.
    destruct (cursor_update_check (h_store h1) pk newData); [by left|].
    destruct (request (store_update pk newData) h1) as [[e|k0] h2] eqn:Hreq.
    + apply request_inl in Hreq as [Ha _]. by left.
    + destruct (getAllObjectData_cases h2) as [[l Hl]|(e' & He & Ha)].
      * by rewrite Hl.
      * rewrite He. by left.
  - specialize (IH h1). rewrite Hs in IH. done.
Qed.

Lemma updateObjectData_reverts keyPath k newData :
  reverts (updateObjectData keyPath k newData).
Proof.
  apply reverts_intro. intros h p h'.
  unfold updateObjectData, updateObjectData_between.
  unfold mbind at 1. unfold Host_bind at 1.
  destruct (getAllObjectData h) as [p1 h1] eqn:Hall.
  apply getAllObjectData_outcome in Hall as [Hs Hp1].
  destruct p1 as [l|e|]; [| |done].
  - destruct (find _ l).
    + simpl. intros Hup.
      pose proof (update_cursor_reverts keyPath k newData
                    (os_rows (h_store h1)) h1) as Hrev.
      unfold mbind, Host_bind, get_store in Hup. simpl in Hup.
      rewrite Hup in Hrev. simpl in Hrev. by rewrite Hs in Hrev.
    + intros [= <- <-]. by right.
  - intros [= <- <-]. by left.
Qed.

Lemma write_store_same name s w before :
  w_dbs w !! name = Some before → find_store (os_name s) before = Some s →
  w_dbs (write_store name s w) = w_dbs w.
Proof.
  intros Hw Hs. unfold write_store. rewrite Hw. simpl.
  rewrite (replace_store_id _ _ Hs), database_eta. by apply insert_id.
Qed.

Lemma on_store_reverted {A} t s (op : Host (promise A)) w :
  reverts op →
  w_dbs w !! tx_db (tx t) = Some (tx_before (tx t)) →
  find_store (os_name s) (tx_before (tx t)) = Some s →
  match (on_store t s op w).1 with
  | Resolved _ => True
  | _ => w_dbs (on_store t s op w).2 = w_dbs w
  end.
Proof.
  intros Hrev Hw Hs. unfold on_store.
  specialize (Hrev (mkHost s (w_io w) false)).
  destruct (op (mkHost s (w_io w) false)) as [p h]. simpl in *.
  destruct p; [done|..]; destruct (h_aborted h); simpl;
    try (by apply insert_id);
    (destruct Hrev as [?|Hst]; [done|]); rewrite Hst;
    by apply (write_store_same _ _ (mkWorld _ _ _) _ Hw).
Qed.

Lemma on_store_read {A} t s (op : Host (promise A)) w :
  (∀ h, h_store (op h).2 = h_store h) →
  w_dbs w !! tx_db (tx t) = Some (tx_before (tx t)) →
  find_store (os_name s) (tx_before (tx t)) = Some s →
  w_dbs (on_store t s op w).2 = w_dbs w.
Proof.
  intros Hread Hw Hs. unfold on_store.
  specialize (Hread (mkHost s (w_io w) false)).
  destruct (op (mkHost s (w_io w) false)) as [p h]. simpl in *.
  destruct (h_aborted h); simpl; [by apply insert_id|].
  rewrite Hread. by apply (write_store_same _ _ (mkWorld _ _ _) _ Hw).
Qed.

Lemma with_store_reverted {A} this storeName mode (op : Host (promise A)) w :
  reverts op →
  match (with_store this storeName mode w (λ t s, on_store t s op w)).1 with
  | Resolved _ => True
  | _ => w_dbs (with_store this storeName mode w
                  (λ t s, on_store t s op w)).2 = w_dbs w
  end.
Proof.
  intros Hrev. unfold with_store. destruct (db this) as [d|]; [|done].
  destruct (w_dbs w !! conn_name d) as [before|] eqn:Hw; [|done].
  destruct (find_store storeName before) as [s|] eqn:Hs; [|done].
  apply on_store_reverted; [done|done|]. simpl.
  by rewrite (find_store_name _ _ _ Hs).
Qed.

Lemma with_store_read {A} this storeName mode (op : Host (promise A)) w :
  (∀ h, h_store (op h).2 = h_store h) →
  w_dbs (with_store this storeName mode w (λ t s, on_store t s op w)).2 =
  w_dbs w.
Proof.
  intros Hread. unfold with_store. destruct (db this) as [d|]; [|done].
  destruct (w_dbs w !! conn_name d) as [before|] eqn:Hw; [|done].
  destruct (find_store storeName before) as [s|] eqn:Hs; [|done].
  apply on_store_read; [done|done|]. simpl.
  by rewrite (find_store_name _ _ _ Hs).
Qed.

(** X18. A write of the class that does not resolve changes no database.
    For every object, store name and browser, whatever the host fails: when
    [add], [put], [update], [delete] or [clear] rejects or stays pending,
    every database is as it was before the call. *)
Theorem failed_write_leaves_databases this storeName w :
  (∀ data, promise_ending (Util.add this storeName data w).1 ≠ Fulfilled →
           w_dbs (Util.add this storeName data w).2 = w_dbs w) ∧
  (∀ data, promise_ending (Util.put this storeName data w).1 ≠ Fulfilled →
           w_dbs (Util.put this storeName data w).2 = w_dbs w) ∧
  (∀ keyPath k newData,
     promise_ending (Util.update this storeName keyPath k newData w).1
       ≠ Fulfilled →
     w_dbs (Util.update this storeName keyPath k newData w).2 = w_dbs w) ∧
  (∀ k, promise_ending (Util.delete this storeName k w).1 ≠ Fulfilled →
        w_dbs (Util.delete this storeName k w).2 = w_dbs w) ∧
  (promise_ending (Util.clear this storeName w).1 ≠ Fulfilled →
   w_dbs (Util.clear this storeName w).2 = w_dbs w).
Proof.
  split_and!.
  - intros data Hnot. rewrite Util_add_with_store in *.
    pose proof (with_store_reverted this storeName readwrite _ w
                  (addObjectData_reverts data)) as Hrev.
    by destruct (with_store _ _ _ _ _).1.
  - intros data Hnot. rewrite Util_put_with_store in *.
    pose proof (with_store_reverted this storeName readwrite _ w
                  (putObjectData_reverts data)) as Hrev.
    by destruct (with_store _ _ _ _ _).1.
  - intros field k newData Hnot. rewrite Util_update_with_store in *.
    pose proof (with_store_reverted this storeName readwrite _ w
                  (updateObjectData_reverts field k newData)) as Hrev.
    by destruct (with_store _ _ _ _ _).1.
  - intros k Hnot. rewrite Util_delete_with_store in *.
    pose proof (with_store_reverted this storeName readwrite _ w
                  (deleteObjectData_reverts k)) as Hrev.
    by destruct (with_store _ _ _ _ _).1.
  - intros Hnot. rewrite Util_clear_with_store in *.
    pose proof (with_store_reverted this storeName readwrite _ w
                  clearObjectStore_reverts) as Hrev.
    by destruct (with_store _ _ _ _ _).1.
Qed.

Lemma failed_write_leaves_databases_witness :
  promise_ending
    (Util.add class_test_util "users" test_user
       (mkWorld true (w_dbs class_test_world) [None; Some AbortError])).1 =
    Failed (LibError (IndexedDBError "The transaction was aborted.")) ∧
  w_dbs (Util.add class_test_util "users" test_user
           (mkWorld true (w_dbs class_test_world) [None; Some AbortError])).2 =
    w_dbs class_test_world.
Proof.
  split; [reflexivity|].
  apply (proj1 (failed_write_leaves_databases class_test_util "users"
                  (mkWorld true (w_dbs class_test_world)
                     [None; Some AbortError]))).
  discriminate.
Defined.

(** X19. The reads of the class change no database. For every object,
    store name and browser, whatever the host fails and whatever the
    outcome, every database is the same after [get], [getAll], [query] and
    [count] as before. *)
Theorem reads_leave_databases_unchanged this storeName w :
  (∀ k, w_dbs (Util.get this storeName k w).2 = w_dbs w) ∧
  w_dbs (Util.getAll this storeName w).2 = w_dbs w ∧
  (∀ options, w_dbs (Util.query this storeName options w).2 = w_dbs w) ∧
  (∀ keyRange, w_dbs (Util.count this storeName keyRange w).2 = w_dbs w).
Proof.
  split_and!; intros.
  - rewrite Util_get_with_store. apply with_store_read.
    intros h. apply getObjectData_store.
  - rewrite Util_getAll_with_store. apply with_store_read.
    apply getAllObjectData_store.
  - rewrite Util_query_with_store. apply with_store_read.
    intros h. apply queryObjectData_store.
  - rewrite Util_count_with_store. apply with_store_read.
    intros h. apply countObjectData_store.
Qed.

(** ** Committed writes are seen by later transactions *)

Lemma on_store_unchanged {A} t s (op : Host (promise A)) w p :
  w_io w = [] →
  w_dbs w !! tx_db (tx t) = Some (tx_before (tx t)) →
  find_store (os_name s) (tx_before (tx t)) = Some s →
  op (mkHost s [] false) = (p, mkHost s [] false) →
  on_store t s op w = (p, w).
Proof.
  intros Hio Hw Hs Hop. unfold on_store. rewrite Hio, Hop. simpl.
  f_equal. unfold write_store. simpl. rewrite Hw.
  rewrite (replace_store_id _ _ Hs), database_eta, insert_id by done.
  rewrite <- Hio. apply world_eta.
Qed.

Lemma on_store_written {A} t s (op : Host (promise A)) w p s' :
  w_io w = [] →
  w_dbs w !! tx_db (tx t) = Some (tx_before (tx t)) →
  op (mkHost s [] false) = (p, mkHost s' [] false) →
  on_store t s op w =
    (p, mkWorld (w_supported w)
          (<[tx_db (tx t) :=
               mkDB (db_version (tx_before (tx t)))
                 (replace_store s' (db_stores (tx_before (tx t))))]> (w_dbs w))
          []).
Proof.
  intros Hio Hw Hop. unfold on_store. rewrite Hio, Hop. simpl.
  unfold write_store. simpl. by rewrite Hw.
Qed.

Lemma assign_key_keeps_fields s data ok k v gen f :
  extract_key s data = Returns ok → assign_key s data ok = (k, v, gen) →
  get_field data f ≠ VUndefined → get_field v f = get_field data f.
Proof.
  intros Hex Has Hf. destruct (decide (os_keyPath s = Some f)) as [Hp|Hp].
  - destruct ok as [k0|].
    + simpl in Has. by injection Has as _ <- _.
    + apply extract_key_None in Hex as [_ Hun]. by rewrite (Hun f Hp) in Hf.
  - by eapply assign_key_fields.
Qed.

(** X20. Round trip through the class: a committed write is seen by a
    later transaction. On a host that does not fail, when [put] resolves
    with a key, a following [get] on that key resolves with a record that
    has every field of the input, and changes nothing. *)
Theorem class_put_then_get this storeName data k w w' :
  w_io w = [] →
  Util.put this storeName data w = (Resolved k, w') →
  ∃ v, Util.get this storeName k w' = (Resolved (Some v), w') ∧
       (∀ f, get_field data f ≠ VUndefined → get_field v f = get_field data f).
Proof.
  intros Hio. rewrite Util_put_with_store. unfold with_store.
  destruct (db this) as [d|] eqn:Hdb; [|done].
  destruct (w_dbs w !! conn_name d) as [before|] eqn:Hw; [|done].
  destruct (find_store storeName before) as [s|] eqn:Hs; [|done].
  destruct (putObjectData data (mkHost s [] false)) as [p h] eqn:Hput.
  intros Hon. assert (p = Resolved k) as ->.
  { unfold on_store in Hon. rewrite Hio, Hput in Hon. by injection Hon. }
  destruct (putObjectData_resolved (mkHost s [] false) data k h eq_refl Hput)
    as (ok & v & gen & Hex & Has & _ & ->). simpl in *.
  rewrite (on_store_written (method_tx d storeName readwrite before) s _ w _ _
             Hio Hw Hput) in Hon.
  injection Hon as <-. simpl.
  pose proof (find_store_name _ _ _ Hs) as Hname.
  set (s' := set_rows s gen (rows_insert k v (os_rows s))).
  assert (find_store storeName
            (mkDB (db_version before) (replace_store s' (db_stores before)))
          = Some s') as Hs'.
  { rewrite <- Hname. apply (find_store_replace_eq s' before _ s).
    simpl. by rewrite Hname. }
  exists v. split.
  - rewrite Util_get_with_store. unfold with_store. rewrite Hdb. simpl.
    rewrite lookup_insert_eq, Hs'.
    apply on_store_unchanged; simpl; try done.
    + by rewrite lookup_insert_eq.
    + by rewrite Hname.
    + rewrite getObjectData_quiet by done. simpl.
      by rewrite rows_lookup_insert.
  - intros f. by eapply assign_key_keeps_fields.
Qed.

Lemma class_put_then_get_witness :
  ∃ v, Util.get class_test_util "users" (KNum 1)
         (Util.put class_test_util "users" test_user class_test_world).2 =
         (Resolved (Some v),
          (Util.put class_test_util "users" test_user class_test_world).2) ∧
       get_field v "email" = VStr "test@example.com".
Proof.
  destruct (class_put_then_get class_test_util "users" test_user (KNum 1)
              class_test_world
              (Util.put class_test_util "users" test_user class_test_world).2
              eq_refl eq_refl) as (v & Hget & Hfields).
  exists v. split; [exact Hget|].
  rewrite (Hfields "email"); [reflexivity|discriminate].
Defined.

(** ** Abort *)

Lemma transaction_before dbObject stores mode w t :
  transaction dbObject stores mode w = Returns t →
  w_dbs w !! tx_db (tx t) = Some (tx_before (tx t)) ∧
  tx_finished (tx t) = false.
Proof.
  unfold transaction, db_transaction.
  destruct (w_dbs w !! conn_name dbObject) as [before|] eqn:Hw; [|done].
  destruct (scope_of stores) as [|name names]; [done|].
  destruct (forallb _ _); [|done]. by intros [= <-].
Qed.

Lemma on_store_dbs {A} t s (op : Host (promise A)) w :
  w_dbs w !! tx_db (tx t) = Some (tx_before (tx t)) →
  ∃ after, w_dbs (on_store t s op w).2 = <[tx_db (tx t) := after]> (w_dbs w) ∧
           w_supported (on_store t s op w).2 = w_supported w.
Proof.
  intros Hw. unfold on_store.
  destruct (op (mkHost s (w_io w) false)) as [p h]. simpl.
  destruct (h_aborted h); simpl; [by eauto|].
  unfold write_store. simpl. rewrite Hw. simpl. by eauto.
Qed.

(** X21. [abort()] undoes the transaction. For a handler that
    [transaction] returned and a record operation on a store handle that
    left the transaction alive (no request error aborted it), whatever the
    operation wrote, [abort()] returns and every database is as it was when
    the transaction was created; a second [abort()] throws the host's
    InvalidStateError. *)
Theorem abort_undoes_operation {A} dbObject stores mode w t s
    (op : Host (promise A)) :
  transaction dbObject stores mode w = Returns t →
  h_aborted (op (mkHost s (w_io w) false)).2 = false →
  ∃ w2, abort t (on_store t s op w).2 =
          (Returns (mkHandler (tx_finish (tx t))), w2) ∧
        w_dbs w2 = w_dbs w ∧
        w_supported w2 = w_supported w ∧
        abort (mkHandler (tx_finish (tx t))) w2 =
          (Throws (HostError InvalidStateError), w2).
Proof.
  intros [Hw Hfin]%transaction_before _.
  destruct (on_store_dbs t s op w Hw) as (after & Hdbs & Hsup).
  unfold abort at 1. unfold tx_abort. rewrite Hfin. eexists. split; [done|].
  simpl. rewrite Hdbs, insert_insert_eq, insert_id by done.
  split_and!; done.
Qed.

Lemma abort_undoes_operation_witness :
  ∃ w2, abort app_tx
          (on_store app_tx users_two
             (addObjectData (user 3 "new@example.com" None)) app_world).2 =
          (Returns app_tx_aborted, w2) ∧
        w_dbs w2 = w_dbs app_world ∧
        store_in (on_store app_tx users_two
                    (addObjectData (user 3 "new@example.com" None))
                    app_world).2 "app" "users" ≠ Some users_two.
Proof.
  destruct (abort_undoes_operation app_conn (inr ["users"; "items"]) readwrite
              app_world app_tx users_two
              (addObjectData (user 3 "new@example.com" None)) eq_refl eq_refl)
    as (w2 & Habort & Hdbs & _).
  exists w2. split; [exact Habort|]. split; [exact Hdbs|].
  vm_compute. discriminate.
Defined.

(** ** Bulk insert through the class *)

Lemma insert_each_name dataArray :
  ∀ s index keys s',
    insert_each s dataArray index = inr (keys, s') → os_name s' = os_name s.
Proof.
  induction dataArray as [|data rest IH]; intros s index keys s'; simpl.
  - by intros [= <- <-].
  - destruct (extract_key s data) as [?|ok]; [done|].
    destruct (store_add ok data s) as [d|[k s1]] eqn:Hadd; [done|].
    destruct (insert_each s1 rest (S index)) as [?|[keys' s2]] eqn:Hrest; [done|].
    intros [= <- <-]. rewrite (IH _ _ _ _ Hrest).
    by apply store_add_rows in Hadd as (v & gen & _ & _ & ->).
Qed.

(** X22. [bulkAdd] of the class is not all-or-nothing when [store.add]
    throws. On a live object and a host that does not fail, when the
    records [good] can be inserted one after the other and [store.add]
    throws for the record that follows them, [bulkAdd] rejects with what was
    thrown, and the database then holds the store with the records [good]
    inserted. *)
Theorem class_bulk_add_keeps_earlier_inserts
    this d before storeName s w good bad rest e keys s' :
  db this = Some d →
  w_dbs w !! conn_name d = Some before →
  find_store storeName before = Some s →
  w_io w = [] →
  insert_each s good 0 = inr (keys, s') →
  extract_key s bad = Throws e →
  ∃ w', Util.bulkAdd this storeName (good ++ bad :: rest) w = (Rejected e, w') ∧
        store_in w' (conn_name d) storeName = Some s' ∧
        length (os_rows s') = (length (os_rows s) + length good)%nat.
Proof.
  intros Hdb Hw Hs Hio Heach Hbad.
  rewrite Util_bulkAdd_with_store. unfold with_store. rewrite Hdb, Hw, Hs.
  assert (bulkAddObjectData (good ++ bad :: rest) (mkHost s [] false) =
            (Rejected e, mkHost s' [] false)) as Hbulk.
  { assert ((place_adds s good).2 = None) as Hgood.
    { destruct (place_adds s good).2 as [e'|] eqn:Hthrown; [|done].
      destruct (place_adds_throws good s s 0 e' Hthrown) as [failure Hfail];
        [done|]. congruence. }
    unfold bulkAddObjectData.
    destruct (good ++ bad :: rest) as [|data0 rest0] eqn:Happ.
    { by destruct good. }
    rewrite <- Happ. unfold mbind, Host_bind, get_store. simpl h_store.
    rewrite (place_adds_app_throw _ _ _ _ e Hgood Hbad).
    rewrite (run_adds_unfinished good s 0 0 []
               (mkHost s [] false) _ keys s'); try done.
    rewrite length_app. simpl. lia. }
  rewrite (on_store_written (method_tx d storeName readwrite before) s _ w _ _
             Hio Hw Hbulk).
  eexists. split; [done|]. split; [|by eapply insert_each_rows].
  unfold store_in. simpl. rewrite lookup_insert_eq. simpl.
  pose proof (find_store_name _ _ _ Hs) as Hname.
  pose proof (insert_each_name _ _ _ _ _ Heach) as Hname'.
  rewrite <- Hname, <- Hname'. apply (find_store_replace_eq s' before _ s).
  by rewrite Hname', Hname.
Qed.

Lemma class_bulk_add_keeps_earlier_inserts_witness :
  ∃ w', Util.bulkAdd class_test_util "users"
          [test_user; {[ "id" := VBool true ]}] class_test_world =
          (Rejected (HostError DataError), w') ∧
        ∃ s', store_in w' "class-test-db" "users" = Some s' ∧
              length (os_rows s') = 1%nat.
Proof.
  destruct (class_bulk_add_keeps_earlier_inserts class_test_util
              (mkConn "class-test-db" 1) class_test_db "users"
              (mkStore "users" (Some "id") true 1
                 [mkIndex "email" ["email"] true; mkIndex "name" ["name"] false]
                 [])
              class_test_world [test_user] {[ "id" := VBool true ]} []
              (HostError DataError) [KNum 1]
              (mkStore "users" (Some "id") true 2
                 [mkIndex "email" ["email"] true; mkIndex "name" ["name"] false]
                 [(KNum 1, <["id" := VNum 1]> test_user)]))
    as (w' & Hbulk & Hstore & Hlen); [reflexivity..|].
  exists w'. split; [exact Hbulk|]. eexists. split; [exact Hstore|exact Hlen].
Defined.

(** ** Opening and deleting a database *)

(** X23. [openDB] on a browser with IndexedDB and a host that does not
    fail, for a version above 0. A database that does not exist is created
    at the version, without stores. A database of a higher version is left
    as it is and the promise rejects with an [IndexedDBError] that carries
    the message of the host's VersionError. At the version the database has,
    the promise resolves with a connection and nothing changes. At a higher
    version the database has to be upgraded: while another connection to it
    is open the promise rejects with the text of the blocked handler and
    the database is as it was; otherwise the promise resolves with a
    connection, the database gets the version asked for and keeps its
    stores. *)
Theorem openDB_outcomes name version connected w :
  w_supported w = true → w_io w = [] → 0 < version →
  match w_dbs w !! name with
  | None =>
      openDB name version connected w =
        (Returns (Resolved (mkConn name version)),
         mkWorld true (<[name := mkDB version []]> (w_dbs w)) [])
  | Some d =>
      if decide (version < db_version d) then
        openDB name version connected w =
          (Returns (Rejected (LibError
             (IndexedDBError (dom_message VersionError)))), w)
      else if decide (version = db_version d) then
        openDB name version connected w =
          (Returns (Resolved (mkConn name version)), w)
      else if connected then
        openDB name version connected w =
          (Returns (Rejected (LibError
             (IndexedDBError "Database open request was blocked"))), w)
      else
        openDB name version connected w =
          (Returns (Resolved (mkConn name version)),
           mkWorld true (<[name := mkDB version (db_stores d)]> (w_dbs w)) [])
  end.
Proof.
  destruct w as [sup dbs io]. simpl. intros -> -> Hv.
  unfold openDB. simpl. rewrite bool_decide_eq_false_2 by lia.
  unfold indexedDB_open. simpl.
  destruct (dbs !! name) as [d|] eqn:Hd; simpl.
  - case_decide as Hlt.
    + by rewrite bool_decide_eq_true_2 by done.
    + rewrite bool_decide_eq_false_2 by done.
      case_decide as Heq.
      * by rewrite bool_decide_eq_false_2 by lia.
      * rewrite bool_decide_eq_true_2 by lia.
        by destruct connected.
  - rewrite bool_decide_eq_false_2 by lia.
    rewrite bool_decide_eq_true_2 by lia.
    by rewrite andb_false_r.
Qed.

Lemma openDB_outcomes_witness :
  openDB "app" 1 true app_world = (Returns (Resolved app_conn), app_world) ∧
  openDB "other" 2 true app_world =
    (Returns (Resolved (mkConn "other" 2)),
     mkWorld true (<["other" := mkDB 2 []]> (w_dbs app_world)) []) ∧
  openDB "app" 2 true app_world =
    (Returns (Rejected (LibError
       (IndexedDBError "Database open request was blocked"))), app_world) ∧
  openDB "app" 2 false app_world =
    (Returns (Resolved (mkConn "app" 2)),
     mkWorld true (<["app" := mkDB 2 (db_stores app_db)]> (w_dbs app_world))
       []).
Proof.
  split_and!.
  - apply (openDB_outcomes "app" 1 true app_world eq_refl eq_refl). lia.
  - apply (openDB_outcomes "other" 2 true app_world eq_refl eq_refl). lia.
  - apply (openDB_outcomes "app" 2 true app_world eq_refl eq_refl). lia.
  - apply (openDB_outcomes "app" 2 false app_world eq_refl eq_refl). lia.
Defined.

(** X24. [deleteDatabase] on a browser with IndexedDB and a host that does
    not fail. While no connection to the database is open it resolves, the
    database is gone and the other databases are as before; deleting again
    resolves too, and [openDB] then makes a database without stores. While
    a connection is open it rejects with the text of the blocked handler,
    and the database is still there. *)
Theorem deleteDatabase_outcomes name w :
  w_supported w = true → w_io w = [] →
  (∃ w1, deleteDatabase name false w = (Resolved (), w1) ∧
         w_dbs w1 !! name = None ∧
         (∀ other, other ≠ name → w_dbs w1 !! other = w_dbs w !! other) ∧
         deleteDatabase name false w1 = (Resolved (), w1) ∧
         (∀ version connected, 0 < version →
            ∃ w2, openDB name version connected w1 =
                    (Returns (Resolved (mkConn name version)), w2) ∧
                  w_dbs w2 !! name = Some (mkDB version []))) ∧
  deleteDatabase name true w =
    (Rejected (LibError (IndexedDBError "Database deletion was blocked")), w).
Proof.
  destruct w as [sup dbs io]. simpl. intros -> ->. split; [|done].
  exists (mkWorld true (delete name dbs) []). split_and!.
  - done.
  - simpl. apply lookup_delete_eq.
  - intros other Hne. simpl. by apply lookup_delete_ne.
  - unfold deleteDatabase, indexedDB_deleteDatabase. simpl.
    by rewrite delete_id by apply lookup_delete_eq.
  - intros version connected Hv. eexists. unfold openDB. simpl.
    rewrite bool_decide_eq_false_2 by lia. unfold indexedDB_open. simpl.
    rewrite lookup_delete_eq. simpl.
    rewrite bool_decide_eq_false_2 by lia.
    rewrite bool_decide_eq_true_2 by lia.
    rewrite andb_false_r. simpl. split; [done|].
    simpl. apply lookup_insert_eq.
Qed.

Lemma deleteDatabase_outcomes_witness :
  (∃ w1, deleteDatabase "app" false app_world = (Resolved (), w1) ∧
         w_dbs w1 !! "app" = None) ∧
  deleteDatabase "app" true app_world =
    (Rejected (LibError (IndexedDBError "Database deletion was blocked")),
     app_world).
Proof.
  destruct (deleteDatabase_outcomes "app" app_world eq_refl eq_refl)
    as [(w1 & Hdel & Hgone & _) Hblocked].
  split; [|exact Hblocked]. exists w1. split; [exact Hdel|exact Hgone].
Defined.

(** ** The upgrade handler of [createDB] *)

Lemma store_extends_refl s : store_extends s s.
Proof. by split_and!. Qed.

Lemma store_extends_trans s1 s2 s3 :
  store_extends s1 s2 → store_extends s2 s3 → store_extends s1 s3.
Proof.
  intros (?&?&?&?&?&Hi) (?&?&?&?&?&Hi'). split_and!; try congruence.
  intros idx Hin. by apply Hi', Hi.
Qed.

Lemma indexNames_contains_mono s s' name :
  store_extends s s' → indexNames_contains s name = true →
  indexNames_contains s' name = true.
Proof.
  intros (_&_&_&_&_&Hi). unfold indexNames_contains.
  rewrite !bool_decide_eq_true, !Exists_exists.
  intros (idx & Hin & Hname). exists idx. split; [by apply Hi|done].
Qed.

Lemma createIndex_extends indexConfig s s' :
  createIndex indexConfig s = Some s' →
  store_extends s s' ∧ indexNames_contains s' (ic_name indexConfig) = true.
Proof.
  intros (Hrows & Hp & Ha & Hg & Hn & Hidx)%createIndex_inv. split.
  - split_and!; try done. intros idx Hin. rewrite Hidx.
    apply elem_of_app. by left.
  - unfold indexNames_contains. rewrite bool_decide_eq_true, Exists_exists.
    eexists. split; [rewrite Hidx; apply elem_of_app; right;
                     by apply list_elem_of_singleton|done].
Qed.

Lemma foldl_option_None {A B} (f : B → A → option B) l :
  foldl (λ acc x, b ← acc; f b x) None l = None.
Proof. by induction l. Qed.

Lemma index_fold_extends indices :
  ∀ s0 s1,
    foldl (λ acc indexConfig,
             s ← acc;
             if indexNames_contains s (ic_name indexConfig) then Some s
             else createIndex indexConfig s)
          (Some s0) indices = Some s1 →
    store_extends s0 s1 ∧
    ∀ indexConfig, indexConfig ∈ indices →
                   indexNames_contains s1 (ic_name indexConfig) = true.
Proof.
  induction indices as [|ic rest IH]; intros s0 s1; simpl.
  - intros [= <-]. split; [apply store_extends_refl|].
    by intros ? ?%elem_of_nil.
  - destruct (indexNames_contains s0 (ic_name ic)) eqn:Hhas.
    + intros Hfold. destruct (IH _ _ Hfold) as [Hext Hall]. split; [done|].
      intros ic' [->|Hin]%elem_of_cons; [|by apply Hall].
      by eapply indexNames_contains_mono.
    + destruct (createIndex ic s0) as [s'|] eqn:Hcreate.
      * intros Hfold. destruct (IH _ _ Hfold) as [Hext Hall].
        apply createIndex_extends in Hcreate as [Hext0 Hhas'].
        split; [by eapply store_extends_trans|].
        intros ic' [->|Hin]%elem_of_cons; [|by apply Hall].
        by eapply indexNames_contains_mono.
      * by rewrite foldl_option_None.
Qed.

Lemma find_store_app name v stores s :
  find_store name (mkDB v (stores ++ [s])) =
    match find_store name (mkDB v stores) with
    | Some x => Some x
    | None => if bool_decide (os_name s = name) then Some s else None
    end.
Proof.
  unfold find_store. simpl. induction stores as [|s0 rest IH]; simpl; [done|].
  destruct (bool_decide (os_name s0 = name)); [done|apply IH].
Qed.

Lemma upgrade_store_extends store d d' :
  upgrade_store store d = Some d' →
  (∀ name s, find_store name d = Some s →
     ∃ s', find_store name d' = Some s' ∧ store_extends s s') ∧
  configured store d' ∧
  (find_store (sc_name store) d = None →
   ∃ s', find_store (sc_name store) d' = Some s' ∧ os_rows s' = [] ∧
         os_keyPath s' = keyPath (sc_config store) ∧
         os_autoIncrement s' = autoIncrement (sc_config store)).
Proof.
  unfold upgrade_store.
  destruct (find_store (sc_name store) d) as [s0|] eqn:Hf.
  - destruct (foldl _ _ _) as [s1|] eqn:Hfold; [|done]. simpl.
    intros [= <-]. apply index_fold_extends in Hfold as [Hext Hall].
    pose proof (find_store_name _ _ _ Hf) as Hname0.
    assert (os_name s1 = sc_name store) as Hname1.
    { destruct Hext as [-> _]. done. }
    assert (find_store (sc_name store)
              (mkDB (db_version d) (replace_store s1 (db_stores d))) = Some s1)
      as Hfound.
    { rewrite <- Hname1. apply (find_store_replace_eq s1 d _ s0).
      by rewrite Hname1. }
    split_and!; [|by exists s1|done].
    intros name s Hs. destruct (decide (name = sc_name store)) as [->|Hne].
    + exists s1. split; [done|]. congruence.
    + exists s. split; [|apply store_extends_refl].
      rewrite find_store_replace_ne; [done|congruence].
  - set (s0 := createObjectStore (sc_name store) (sc_config store)).
    destruct (foldl _ _ _) as [s1|] eqn:Hfold; [|done]. simpl.
    intros [= <-]. apply index_fold_extends in Hfold as [Hext Hall].
    assert (os_name s1 = sc_name store) as Hname1.
    { destruct Hext as [-> _]. done. }
    assert (find_store (sc_name store) (mkDB (db_version d) (db_stores d ++ [s0]))
            = Some s0) as Hf0.
    { rewrite find_store_app, database_eta, Hf. simpl.
      by rewrite bool_decide_eq_true_2. }
    assert (find_store (sc_name store)
              (mkDB (db_version d)
                 (replace_store s1 (db_stores d ++ [s0]))) = Some s1)
      as Hfound.
    { rewrite <- Hname1.
      apply (find_store_replace_eq s1
               (mkDB (db_version d) (db_stores d ++ [s0])) _ s0).
      by rewrite Hname1. }
    split_and!; [|by exists s1|].
    + intros name s Hs. destruct (decide (name = sc_name store)) as [->|Hne];
        [congruence|].
      exists s. split; [|apply store_extends_refl].
      rewrite (find_store_replace_ne name s1
                 (mkDB (db_version d) (db_stores d ++ [s0]))) by congruence.
      by rewrite find_store_app, database_eta, Hs.
    + intros _. exists s1. split; [done|].
      destruct Hext as (_ & -> & -> & -> & _). done.
Qed.

Lemma configured_extends store d d' :
  (∀ name s, find_store name d = Some s →
     ∃ s', find_store name d' = Some s' ∧ store_extends s s') →
  configured store d → configured store d'.
Proof.
  intros Hext (s & Hs & Hall). destruct (Hext _ _ Hs) as (s' & Hs' & Hss).
  exists s'. split; [done|]. intros ic Hin.
  eapply indexNames_contains_mono; [done|]. by apply Hall.
Qed.

(** X25. The upgrade handler of [createDB]. When it completes, the
    database keeps its version; every store that existed is still there
    with its name, its records, its key path, its auto-increment flag, its
    key generator and its indices (it is never made anew from the
    configuration, it can only gain indices); and every store of the
    configuration exists with an index of each configured name. *)
Theorem upgrade_keeps_existing_stores stores d d' :
  onupgradeneeded stores d = Some d' →
  db_version d' = db_version d ∧
  (∀ name s, find_store name d = Some s →
     ∃ s', find_store name d' = Some s' ∧ store_extends s s') ∧
  (∀ store, store ∈ default [] stores → configured store d').
Proof.
  intros Hup. split; [by eapply onupgradeneeded_version|].
  revert Hup. unfold onupgradeneeded. generalize (default [] stores).
  intros l. revert d. induction l as [|store rest IH]; intros d; simpl.
  - intros [= <-]. split; [|by intros ? ?%elem_of_nil].
    intros name s Hs. exists s. split; [done|apply store_extends_refl].
  - destruct (upgrade_store store d) as [d1|] eqn:Hup1.
    + intros Hrest. destruct (IH _ Hrest) as [Hext Hconf].
      apply upgrade_store_extends in Hup1 as (Hext1 & Hconf1 & _).
      split.
      * intros name s Hs. destruct (Hext1 _ _ Hs) as (s1 & Hs1 & Hss1).
        destruct (Hext _ _ Hs1) as (s2 & Hs2 & Hss2).
        exists s2. split; [done|by eapply store_extends_trans].
      * intros store' [->|Hin]%elem_of_cons; [|by apply Hconf].
        by eapply configured_extends.
    + intros Hnone. exfalso. clear -Hnone.
      induction rest as [|store' rest IH]; [done|]. by apply IH.
Qed.

Lemma upgrade_keeps_existing_stores_witness :
  ∃ d', onupgradeneeded (Some test_stores) (mkDB 2 (db_stores app_db)) = Some d' ∧
        (∃ s', find_store "users" d' = Some s' ∧ store_extends users_two s') ∧
        configured (mkStoreConfig "products" (mkParams (Some "id") true) None None)
          d'.
Proof.
  eexists. split; [reflexivity|].
  destruct (upgrade_keeps_existing_stores (Some test_stores)
              (mkDB 2 (db_stores app_db)) _ eq_refl) as (_ & Hext & Hconf).
  split.
  - apply (Hext "users" users_two). reflexivity.
  - apply Hconf. simpl. apply elem_of_cons. right. apply elem_of_cons. by left.
Defined.

(** ** [createDB] on a database of the version asked for *)



(** ** [init] *)

Lemma createDB_promise_resolved name version stores connected w db w1 :
  createDB_promise name version stores connected w = (Resolved db, w1) →
  0 < version ∧ db = mkConn name version ∧ w_supported w1 = w_supported w ∧
  ∃ d, w_dbs w1 !! name = Some d ∧ db_version d = version.
Proof.
  unfold createDB_promise. case_bool_decide as Hpos; [done|].
  destruct (indexedDB_open name version _ connected w) as [[e| |db0] w0] eqn:Hopen;
    [done..|].
  apply indexedDB_open_success in Hopen as (-> & Hsup & d & Hd & Hv); [|lia].
  destruct stores as [[|store0 stores]|].
  - intros [= <- <-]. split_and!; [lia|done..|by eauto].
  - destruct (filter _ (store0 :: stores)) as [|store1 rest] eqn:Hfilter.
    + intros [= <- <-]. split_and!; [lia|done..|by eauto].
    + destruct (seed_stores _ _ w0) as [[u|e|] w2] eqn:Hseed; [|done..].
      intros [= <- <-].
      apply seed_stores_resolved in Hseed as ((Hsup2 & Hdb & _) & _).
      simpl in Hdb. destruct (Hdb d Hd) as (d' & Hd' & Hv').
      split_and!; [lia|done|congruence|]. exists d'. split; [done|congruence].
  - intros [= <- <-]. split_and!; [lia|done..|by eauto].
Qed.

(** X27. The outcomes of [init]. When it resolves, the handle is a
    connection to the database of the object's name at the object's
    version, nothing else of the object changes, the version is above 0
    and the database exists at that version. When it rejects or stays
    pending the object is as it was; without IndexedDB it rejects with the
    error [createDB] throws and the browser is untouched. *)
Theorem init_outcome this connected w :
  match Util.init this connected w with
  | (Resolved _, this', w') =>
      this' = Util.set_db this (Some (mkConn (dbName this) (dbVersion this))) ∧
      0 < dbVersion this ∧
      w_supported w = true ∧ w_supported w' = true ∧
      ∃ d, w_dbs w' !! dbName this = Some d ∧ db_version d = dbVersion this
  | (Rejected e, this', w') =>
      this' = this ∧ (w_supported w = false → e = not_supported ∧ w' = w)
  | (Pending, this', w') => this' = this
  end.
Proof.
  unfold Util.init. destruct (w_supported w) eqn:Hsup; simpl; [|done].
  unfold createDB. rewrite Hsup.
  destruct (createDB_promise _ _ _ connected w) as [[dbObject|e|] w'] eqn:Hcreate;
    [|done..].
  apply createDB_promise_resolved in Hcreate as (Hpos & -> & Hsup' & Hd).
  split_and!; try done. congruence.
Qed.

Lemma init_outcome_witness :
  Util.init (Util.constructor class_test_config) false (mkWorld false ∅ []) =
    (Rejected not_supported, Util.constructor class_test_config,
     mkWorld false ∅ []) ∧
  db (Util.init (Util.constructor class_test_config) false empty_world).1.2 =
    Some (mkConn "class-test-db" 1).
Proof.
  split.
  - pose proof (init_outcome (Util.constructor class_test_config) false
                  (mkWorld false ∅ [])) as H.
    destruct (Util.init _ _) as [[[u|e|] this'] w'] eqn:Hinit;
      [discriminate Hinit| |discriminate Hinit].
    destruct H as [-> H]. destruct (H eq_refl) as [-> ->]. reflexivity.
  - pose proof (init_outcome (Util.constructor class_test_config) false
                  empty_world) as H.
    destruct (Util.init _ _) as [[[u|e|] this'] w'] eqn:Hinit;
      [|discriminate Hinit..].
    destruct H as [-> _]. reflexivity.
Defined.

(** ** When the first request fails *)

Lemma request_fails {A}
    (run : IDBObjectStore → DOMException + (A * IDBObjectStore)) h d io :
  h_io h = Some d :: io →
  request run h = (inl d, mkHost (h_store h) io true).
Proof. intros Hio. unfold request. by rewrite Hio. Qed.

(** X28. The error of each record operation when the host fails its first
    request with [d]. Each one rejects with an [IndexedDBError] whose message
    is the message of [d], or the operation's own text when [d] has none;
    [deleteObjectData] prefixes the message of the failed lookup, and
    [updateObjectData] passes on the error of [getAllObjectData]. The store
    is left as it is and the transaction is aborted. *)
Theorem first_request_failure h d io :
  h_io h = Some d :: io →
  getAllObjectData h =
    (Rejected (host_failure d "Failed to retrieve all data"),
     mkHost (h_store h) io true) ∧
  (∀ keyRange,
     countObjectData keyRange h =
       (Rejected (host_failure d "Count failed"), mkHost (h_store h) io true)) ∧
  clearObjectStore h =
    (Rejected (host_failure d "Clear operation failed"),
     mkHost (h_store h) io true) ∧
  (∀ options source,
     query_source (h_store h) (q_index options) = Returns source →
     queryObjectData options h =
       (Rejected (host_failure d "Query failed"), mkHost (h_store h) io true)) ∧
  (∀ data ok,
     extract_key (h_store h) data = Returns ok →
     addObjectData data h =
       (Rejected (host_failure d "Failed to add data to store"),
        mkHost (h_store h) io true) ∧
     putObjectData data h =
       (Rejected (host_failure d "Failed to put data"),
        mkHost (h_store h) io true)) ∧
  (∀ k,
     deleteObjectData k h =
       (Rejected (LibError (IndexedDBError
          ("Failed to retrieve object before deletion: " +:+
           message_or d "Failed to retrieve data"))),
        mkHost (h_store h) io true)) ∧
  (∀ keyPath k newData,
     updateObjectData keyPath k newData h =
       (Rejected (host_failure d "Failed to retrieve all data"),
        mkHost (h_store h) io true)) ∧
  (dom_message d = EmptyString → ∀ text, message_or d text = text).
Proof.
  intros Hio. split_and!.
  - unfold getAllObjectData, mbind, Host_bind.
    by rewrite (request_fails _ _ _ _ Hio).
  - intros keyRange. unfold countObjectData, mbind, Host_bind.
    by rewrite (request_fails _ _ _ _ Hio).
  - unfold clearObjectStore, mbind, Host_bind.
    by rewrite (request_fails _ _ _ _ Hio).
  - intros options source Hsrc.
    unfold queryObjectData, mbind, Host_bind, get_store. rewrite Hsrc.
    destruct (cursor_records _ _ _) as [|[pk value] rest]; simpl;
      unfold mbind, Host_bind, cursor_event;
      by rewrite (request_fails _ _ _ _ Hio).
  - intros data ok Hex. split.
    + unfold addObjectData, mbind, Host_bind, get_store. rewrite Hex.
      by rewrite (request_fails _ _ _ _ Hio).
    + unfold putObjectData, mbind, Host_bind, get_store. rewrite Hex.
      by rewrite (request_fails _ _ _ _ Hio).
  - intros k. unfold deleteObjectData, getObjectData, mbind, Host_bind.
    by rewrite (request_fails _ _ _ _ Hio).
  - intros keyPath k newData.
    unfold updateObjectData, updateObjectData_between, getAllObjectData,
      mbind, Host_bind.
    by rewrite (request_fails _ _ _ _ Hio).
  - intros Hempty text. unfold message_or, or_default.
    by rewrite decide_True.
Qed.

Lemma first_request_failure_witness :
  deleteObjectData (KNum 1) (mkHost items_abc [Some AbortError] false) =
    (Rejected (LibError (IndexedDBError
       "Failed to retrieve object before deletion: The transaction was aborted.")),
     mkHost items_abc [] true) ∧
  countObjectData None (mkHost items_abc [Some (mkDOM "UnknownError" EmptyString)]
                          false) =
    (Rejected (LibError (IndexedDBError "Count failed")),
     mkHost items_abc [] true).
Proof.
  split.
  - exact (proj1 (proj2 (proj2 (proj2 (proj2 (proj2
             (first_request_failure (mkHost items_abc [Some AbortError] false)
                AbortError [] eq_refl)))))) (KNum 1)).
  - exact (proj1 (proj2
             (first_request_failure
                (mkHost items_abc [Some (mkDOM "UnknownError" EmptyString)] false)
                (mkDOM "UnknownError" EmptyString) [] eq_refl)) None).
Defined.

(** ** Key ranges *)

Lemma filter_split_length {A} (P Q : A → Prop)
    `{∀ x, Decision (P x)} `{∀ x, Decision (Q x)} (l : list A) :
  (∀ x, P x ↔ ¬ Q x) →
  (length (filter P l) + length (filter Q l))%nat = length l.
Proof.
  intros HPQ. induction l as [|x l IH]; [done|].
  rewrite !filter_cons. destruct (decide (Q x)) as [HQ|HQ].
  - rewrite decide_False by (rewrite HPQ; tauto). simpl. lia.
  - rewrite decide_True by (by rewrite HPQ). simpl. lia.
Qed.

Lemma key_lt_not_le k k' : key_lt k' k ↔ ¬ key_le k k'.
Proof.
  unfold key_lt, strict. split; [tauto|]. intros Hn. split; [|done].
  by destruct (total key_le k k').
Qed.

(** X29. Key ranges split the keys. On a host that does not fail, the
    count over [KeyRange.upperBound(k, true)] (the keys below [k]) plus the
    count over [KeyRange.lowerBound(k, false)] (the keys from [k] on) is the
    count of all records: every record is in exactly one of the two
    ranges. *)
Theorem key_range_split h k :
  h_io h = [] →
  ∃ below above total,
    countObjectData (Some (KeyRange.upperBound k true)) h = (Resolved below, h) ∧
    countObjectData (Some (KeyRange.lowerBound k false)) h = (Resolved above, h) ∧
    countObjectData None h = (Resolved total, h) ∧
    below + above = total ∧ 0 ≤ below ∧ 0 ≤ above.
Proof.
  intros Hio. do 3 eexists.
  split; [by apply countObjectData_quiet|].
  split; [by apply countObjectData_quiet|].
  split; [by apply countObjectData_quiet|].
  split; [|lia].
  rewrite <- Nat2Z.inj_add. f_equal.
  rewrite (filter_all (λ kv : key * record, range_admits None kv.1))
    by (by apply Forall_forall).
  apply filter_split_length. intros [k' v']. simpl.
  unfold in_range. simpl. rewrite andb_true_r.
  rewrite !bool_decide_spec. apply key_lt_not_le.
Qed.

Lemma key_range_split_witness :
  ∃ below above,
    countObjectData (Some (KeyRange.upperBound (KNum 2) true)) (handle items_abc) =
      (Resolved below, handle items_abc) ∧
    countObjectData (Some (KeyRange.lowerBound (KNum 2) false)) (handle items_abc) =
      (Resolved above, handle items_abc) ∧
    below + above = 3.
Proof.
  destruct (key_range_split (handle items_abc) (KNum 2) eq_refl)
    as (below & above & total & Hb & Ha & Ht & Hsum & _ & _).
  exists below, above. split; [exact Hb|]. split; [exact Ha|].
  injection Ht as <-. exact Hsum.
Defined.

(** ** Queries on an index *)

Lemma entry_insert_perm e es : entry_insert e es ≡ₚ e :: es.
Proof.
  induction es as [|e' rest IH]; simpl; [done|].
  destruct (entry_ltb e e'); [done|]. rewrite IH. apply perm_swap.
Qed.

Lemma index_entries_perm idx rows :
  (index_entries idx rows).*2 ≡ₚ indexed idx rows.
Proof.
  unfold index_entries, indexed. induction rows as [|[k v] rest IH]; [done|].
  rewrite filter_cons. simpl.
  destruct (index_key idx v) as [ik|] eqn:Hik; simpl.
  - rewrite entry_insert_perm. simpl. f_equiv. apply IH.
  - apply IH.
Qed.

Lemma index_entries_omap idx rows :
  index_entries idx rows ≡ₚ
    omap (λ kv, (λ ik, (ik, kv)) <$> index_key idx kv.2) rows.
Proof.
  unfold index_entries.
  generalize (omap (λ kv : key * record, (λ ik, (ik, kv)) <$> index_key idx kv.2)
                rows).
  intros l. induction l as [|e l IH]; simpl; [done|].
  rewrite entry_insert_perm. by f_equiv.
Qed.

(** An entry of an index carries the index key of its record. *)
Lemma index_entries_key idx rows e :
  e ∈ index_entries idx rows → index_key idx e.2.2 = Some e.1.
Proof.
  rewrite index_entries_omap, list_elem_of_omap.
  intros (kv & Hin & Hf). destruct (index_key idx kv.2) as [ik|] eqn:Hik; [|done].
  simpl in Hf. injection Hf as <-. done.
Qed.

Lemma unique_entries_sublist es :
  ∀ seen, unique_entries seen es `sublist_of` es.
Proof.
  induction es as [|e rest IH]; intros seen; simpl; [done|].
  case_decide; [apply sublist_cons, IH|apply sublist_skip, IH].
Qed.

(** Every index key of the entries is the index key of an entry that a
    unique cursor visits, unless it was seen before. *)
Lemma unique_entries_covers es :
  ∀ seen e, e ∈ es →
    seen = Some e.1 ∨ ∃ e', e' ∈ unique_entries seen es ∧ e'.1 = e.1.
Proof.
  induction es as [|e0 rest IH]; intros seen e; simpl.
  - by intros ?%elem_of_nil.
  - intros [->|Hin]%elem_of_cons.
    + case_decide as Hseen; [by left|]. right. exists e0. split; [left|done].
    + case_decide as Hseen; [by apply IH|].
      destruct (IH (Some e0.1) e Hin) as [[= Heq]|(e' & He' & Hk)].
      * right. exists e0. split; [left|done].
      * right. exists e'. split; [by right|done].
Qed.

(** *** The order of the index keys *)

Lemma key_lt_trichotomy x y : ¬ key_lt x y → ¬ key_lt y x → x = y.
Proof.
  intros Hxy Hyx. apply (anti_symm key_le).
  - destruct (decide (key_le x y)) as [|Hn]; [done|].
    by apply key_lt_not_le in Hn.
  - destruct (decide (key_le y x)) as [|Hn]; [done|].
    by apply key_lt_not_le in Hn.
Qed.

Lemma idxkey_ltb_irrefl a : idxkey_ltb a a = false.
Proof.
  induction a as [|x a IH]; simpl; [done|].
  rewrite decide_False by apply key_lt_irrefl. by rewrite decide_True.
Qed.

Lemma idxkey_ltb_trichotomy a b :
  idxkey_ltb a b = false → idxkey_ltb b a = false → a = b.
Proof.
  revert b. induction a as [|x a IH]; intros [|y b]; simpl; try done.
  destruct (decide (key_lt x y)) as [|Hxy]; [done|].
  destruct (decide (key_lt y x)) as [|Hyx]; [by destruct (decide (x = y))|].
  pose proof (key_lt_trichotomy x y Hxy Hyx) as ->.
  rewrite !decide_True by done. intros Hab Hba. f_equal. by apply IH.
Qed.

Lemma idxkey_ltb_trans a b c :
  idxkey_ltb a b = true → idxkey_ltb b c = true → idxkey_ltb a c = true.
Proof.
  revert b c. induction a as [|x a IH]; intros [|y b] [|z c]; simpl; try done.
  destruct (decide (key_lt x y)) as [Hxy|Hxy].
  - intros _. destruct (decide (key_lt y z)) as [Hyz|Hyz].
    + intros _. rewrite decide_True; [done|by eapply key_lt_trans].
    + destruct (decide (y = z)) as [<-|]; [|done]. intros _.
      by rewrite decide_True.
  - destruct (decide (x = y)) as [<-|]; [|done]. intros Hab.
    destruct (decide (key_lt x z)) as [|Hxz]; [done|].
    destruct (decide (x = z)) as [<-|]; [|done]. by apply IH.
Qed.

Lemma idxkey_ltb_asym a b : idxkey_ltb a b = true → idxkey_ltb b a = false.
Proof.
  intros Hab. destruct (idxkey_ltb b a) eqn:Hba; [|done].
  pose proof (idxkey_ltb_trans a b a Hab Hba) as Haa.
  by rewrite idxkey_ltb_irrefl in Haa.
Qed.

Lemma idxkey_le_trans a b c :
  idxkey_ltb b a = false → idxkey_ltb c b = false → idxkey_ltb c a = false.
Proof.
  intros Hab Hbc. destruct (idxkey_ltb c a) eqn:Hca; [|done].
  destruct (idxkey_ltb a b) eqn:Hlt.
  - by rewrite (idxkey_ltb_trans c a b Hca Hlt) in Hbc.
  - pose proof (idxkey_ltb_trichotomy a b Hlt Hab) as ->. congruence.
Qed.

(** The entries of an index ascend in the index key. *)
Lemma entry_insert_sorted e es :
  StronglySorted (λ a b, idxkey_ltb b.1 a.1 = false) es →
  StronglySorted (λ a b, idxkey_ltb b.1 a.1 = false) (entry_insert e es).
Proof.
  induction 1 as [|e' rest Hs IH Hall]; simpl.
  - by repeat constructor.
  - destruct (entry_ltb e e') eqn:Hlt.
    + assert (idxkey_ltb e'.1 e.1 = false) as Hle.
      { unfold entry_ltb in Hlt. apply orb_true_iff in Hlt as [Hlt|Heq].
        - by apply idxkey_ltb_asym.
        - apply andb_true_iff in Heq as [->%bool_decide_eq_true _].
          apply idxkey_ltb_irrefl. }
      constructor; [by constructor|]. constructor; [done|].
      eapply Forall_impl; [exact Hall|]. intros x Hx. simpl in *.
      by eapply idxkey_le_trans.
    + constructor; [done|]. apply Forall_forall. intros x Hx.
      rewrite entry_insert_perm in Hx. apply elem_of_cons in Hx as [->|Hx].
      * unfold entry_ltb in Hlt. by apply orb_false_iff in Hlt as [? _].
      * rewrite Forall_forall in Hall. by apply Hall.
Qed.

Lemma index_entries_sorted idx rows :
  StronglySorted (λ a b, idxkey_ltb b.1 a.1 = false) (index_entries idx rows).
Proof.
  unfold index_entries.
  generalize (omap (λ kv : key * record, (λ ik, (ik, kv)) <$> index_key idx kv.2)
                rows).
  intros l. induction l as [|e l IH]; simpl; [constructor|].
  by apply entry_insert_sorted.
Qed.

(** A unique cursor visits no index key twice. *)
Lemma unique_entries_NoDup es :
  StronglySorted (λ a b, idxkey_ltb b.1 a.1 = false) es →
  ∀ seen,
    (∀ k0, seen = Some k0 → Forall (λ e, idxkey_ltb e.1 k0 = false) es) →
    NoDup (unique_entries seen es).*1 ∧
    Forall (λ e, seen ≠ Some e.1) (unique_entries seen es).
Proof.
  induction 1 as [|e rest Hs IH Hall]; intros seen Hseen; simpl.
  - split; constructor.
  - case_decide as Hd.
    + apply IH. intros k0 Hk. specialize (Hseen k0 Hk).
      by apply Forall_cons in Hseen as [_ ?].
    + destruct (IH (Some e.1)) as [Hnd Hne]; [by intros k0 [= <-]|].
      rewrite Forall_forall in Hne. split.
      * simpl. constructor; [|done]. intros Hin.
        apply list_elem_of_fmap in Hin as (e' & Heq & Hin').
        apply (Hne e' Hin'). by rewrite Heq.
      * constructor; [done|]. apply Forall_forall. intros e' Hin' Heq.
        specialize (Hseen _ Heq). apply Forall_cons in Hseen as [Hle _].
        assert (e' ∈ rest) as Hin
          by (eapply elem_of_sublist; [done|apply unique_entries_sublist]).
        rewrite Forall_forall in Hall. specialize (Hall _ Hin). simpl in *.
        apply Hd. rewrite Heq. f_equal.
        by apply idxkey_ltb_trichotomy.
Qed.

(** X30. A query on an index, on a host that does not fail, without limit
    and offset, resolves with records that have a key in the index, and with
    no other record: a record without a valid key at the key path of the
    index is left out, so the result can be shorter than the store. With the
    direction [next] or [prev] (or none) the result has every record with a
    key in the index, each once. With [nextunique] or [prevunique] it has
    some of them, none more often than the store has it: for every record
    with a key in the index a record with the same index key, and no two
    records with the same index key. *)
Theorem index_query_omits_records_without_key h name idx direction :
  h_io h = [] → name ≠ EmptyString →
  store_index (h_store h) name = Returns idx →
  ∃ l, queryObjectData (mkQuery (Some name) direction None None) h =
         (Resolved l, h) ∧
       match default Next direction with
       | Next | Prev => l ≡ₚ (indexed idx (os_rows (h_store h))).*2
       | NextUnique | PrevUnique =>
           l ⊆+ (indexed idx (os_rows (h_store h))).*2 ∧
           (∀ kv, kv ∈ indexed idx (os_rows (h_store h)) →
                  ∃ r, r ∈ l ∧ index_key idx r = index_key idx kv.2) ∧
           NoDup (index_key idx <$> l)
       end ∧
       (∀ r, r ∈ l → is_Some (index_key idx r)) ∧
       (length l ≤ length (os_rows (h_store h)))%nat.
Proof.
  intros Hio Hne Hidx. eexists. split.
  { apply (queryObjectData_quiet _ h (Some idx)); [done|].
    simpl. unfold query_source. by rewrite decide_False, Hidx. }
  simpl q_offset. simpl q_limit. simpl q_direction. simpl default at 1.
  rewrite page_from_all.
  set (rows := os_rows (h_store h)).
  set (es := index_entries idx rows).
  assert (∀ l : list record, l ⊆+ (indexed idx rows).*2 →
            (∀ r, r ∈ l → is_Some (index_key idx r)) ∧
            (length l ≤ length rows)%nat) as Hsub.
  { intros l Hl. split.
    - intros r Hr. apply (elem_of_submseteq _ _ _ Hr) in Hl as Hr'.
      clear Hr. rename Hr' into Hr.
      apply list_elem_of_fmap in Hr as (kv & -> & Hkv).
      unfold indexed in Hkv. by apply list_elem_of_filter in Hkv as [? _].
    - apply submseteq_length in Hl. rewrite length_fmap in Hl.
      pose proof (length_filter (λ kv : key * record, is_Some (index_key idx kv.2))
                    rows) as Hlen.
      unfold indexed in Hl. lia. }
  assert ((unique_entries None es).*2.*2 ⊆+ (indexed idx rows).*2 ∧
          (∀ kv, kv ∈ indexed idx rows →
                 ∃ r, r ∈ (unique_entries None es).*2.*2 ∧
                      index_key idx r = index_key idx kv.2) ∧
          NoDup (index_key idx <$> (unique_entries None es).*2.*2))
    as (Huniq & Hcover & Hnodup).
  { split_and!.
    - rewrite <- (index_entries_perm idx rows). fold es.
      apply sublist_submseteq. do 2 apply fmap_sublist.
      apply unique_entries_sublist.
    - intros kv Hkv. rewrite <- (index_entries_perm idx rows) in Hkv. fold es in Hkv.
      apply list_elem_of_fmap in Hkv as (e & -> & He).
      destruct (unique_entries_covers es None e He) as [?|(e' & He' & Hk)];
        [done|].
      exists e'.2.2. split.
      + apply list_elem_of_fmap. exists e'.2. split; [done|].
        apply list_elem_of_fmap. by exists e'.
      + assert (e' ∈ es) as Hin'.
        { eapply elem_of_sublist; [done|apply unique_entries_sublist]. }
        rewrite (index_entries_key idx rows e' Hin').
        rewrite (index_entries_key idx rows e He). by rewrite Hk.
    - destruct (unique_entries_NoDup es (index_entries_sorted idx rows) None)
        as [Hnd _]; [done|].
      assert (index_key idx <$> (unique_entries None es).*2.*2 =
              Some <$> (unique_entries None es).*1) as ->.
      { rewrite <- !list_fmap_compose. apply Forall_fmap_ext, Forall_forall.
        intros e He. simpl. apply (index_entries_key idx rows).
        eapply elem_of_sublist; [done|apply unique_entries_sublist]. }
      apply NoDup_fmap_2; [apply _|done]. }
  destruct direction as [[| | |]|]; simpl.
  - split; [by rewrite index_entries_perm|].
    apply Hsub. by rewrite index_entries_perm.
  - split; [by split_and!|]. by apply Hsub.
  - split; [by rewrite reverse_Permutation, index_entries_perm|].
    apply Hsub. by rewrite reverse_Permutation, index_entries_perm.
  - split; [split_and!|].
    + by rewrite reverse_Permutation.
    + intros kv Hkv. destruct (Hcover kv Hkv) as (r & Hr & Hk).
      exists r. split; [|done]. by rewrite reverse_Permutation.
    + by rewrite reverse_Permutation.
    + apply Hsub. by rewrite reverse_Permutation.
  - split; [by rewrite index_entries_perm|].
    apply Hsub. by rewrite index_entries_perm.
Qed.

Lemma index_query_omits_records_without_key_witness :
  (∃ l, queryObjectData (mkQuery (Some "age") None None None) (handle users_two) =
          (Resolved l, handle users_two) ∧
        l ≡ₚ [user 1 "john@example.com" (Some 30)]) ∧
  queryObjectData (mkQuery (Some "tag") (Some Prev) None None)
    (handle tasks_three) =
    (Resolved [task 2 (Some "x"); task 1 (Some "x")], handle tasks_three) ∧
  queryObjectData (mkQuery (Some "tag") (Some NextUnique) None None)
    (handle tasks_three) =
    (Resolved [task 1 (Some "x")], handle tasks_three) ∧
  queryObjectData (mkQuery (Some "tag") (Some PrevUnique) None None)
    (handle tasks_three) =
    (Resolved [task 1 (Some "x")], handle tasks_three).
Proof.
  split_and!.
  - destruct (index_query_omits_records_without_key (handle users_two) "age"
                (mkIndex "age" ["age"] false) None eq_refl)
      as (l & Hq & Hperm & _); [discriminate|reflexivity|].
    exists l. split; [exact Hq|exact Hperm].
  - destruct (index_query_omits_records_without_key (handle tasks_three) "tag"
                (mkIndex "tag" ["tag"] false) (Some Prev) eq_refl)
      as (l & Hq & _); [discriminate|reflexivity|].
    pose proof Hq as Hl. vm_compute in Hl. injection Hl as <-. exact Hq.
  - destruct (index_query_omits_records_without_key (handle tasks_three) "tag"
                (mkIndex "tag" ["tag"] false) (Some NextUnique) eq_refl)
      as (l & Hq & _); [discriminate|reflexivity|].
    pose proof Hq as Hl. vm_compute in Hl. injection Hl as <-. exact Hq.
  - destruct (index_query_omits_records_without_key (handle tasks_three) "tag"
                (mkIndex "tag" ["tag"] false) (Some PrevUnique) eq_refl)
      as (l & Hq & _); [discriminate|reflexivity|].
    pose proof Hq as Hl. vm_compute in Hl. injection Hl as <-. exact Hq.
Defined.
